(** * DocuDiff: the diff and reconciliation engine

    A shallow embedding of the comparison core of DocuDiff
    ([comparator.py], [llm_comparator.py]) together with the parts of the
    Python standard library it is built on ([str] methods, [html.escape],
    the regular expressions it uses, [difflib.SequenceMatcher]).

    Text is modelled as [list ascii]: a Python [str] whose code points lie
    in 0..255.  Every character class below ([isspace], line boundaries,
    [string.punctuation], [str.lower]) is the restriction of the Python one
    to that range.  Python integers that index sequences are naturals. *)

From Stdlib Require Import List Ascii String Lia Arith ZArith Bool.
From stdpp Require Import base option list gmap sorting.
Import ListNotations.

(** ** Python strings *)

Module Py.

Abbreviation str := (list ascii).

(** A string literal. *)
Definition lit (s : string) : str := list_ascii_of_string s.

Definition chr (n : nat) : ascii := ascii_of_nat n.
Definition ord (c : ascii) : nat := nat_of_ascii c.

Definition LF : ascii := chr 10.
Definition CR : ascii := chr 13.
Definition SP : ascii := chr 32.

#[global] Instance ascii_eq_dec : EqDecision ascii := ascii_dec.

#[global] Program Instance ascii_countable : Countable ascii :=
  inj_countable' nat_of_ascii ascii_of_nat _.
Next Obligation. intros c. apply ascii_nat_embedding. Qed.

(** [str.isspace] on one character; also the class [\s] of [re] for [str]
    patterns.  Code points below 256 that are whitespace: TAB, LF, VT, FF,
    CR, FS, GS, RS, US, SPACE, NEL (0x85) and NBSP (0xA0). *)
Definition isspace (c : ascii) : bool :=
  let n := ord c in
  ((9 <=? n) && (n <=? 13)) || ((28 <=? n) && (n <=? 32))
  || (n =? 133) || (n =? 160).

(** [bool(s)]: a string is truthy when it is not empty. *)
Definition truthy {A} (s : list A) : bool :=
  match s with [] => false | _ :: _ => true end.

Fixpoint lstrip (s : str) : str :=
  match s with
  | c :: s' => if isspace c then lstrip s' else s
  | [] => []
  end.

Definition rstrip (s : str) : str := rev (lstrip (rev s)).

(** [s.strip()] *)
Definition strip (s : str) : str := rstrip (lstrip s).

(** [s1.startswith(p)] *)
Fixpoint startswith (p s : str) : bool :=
  match p, s with
  | [], _ => true
  | c :: p', d :: s' => bool_decide (c = d) && startswith p' s'
  | _ :: _, [] => false
  end.

(** [a[i:j]] for non-negative [i], [j]: clamped at the end of the list, empty
    when [j <= i]. *)
Definition slice {A} (l : list A) (i j : nat) : list A := take (j - i) (drop i l).

(** ["".join(l)] *)
Definition join0 (l : list str) : str := concat l.

(** [sep.join(l)] *)
Fixpoint join (sep : str) (l : list str) : str :=
  match l with
  | [] => []
  | [x] => x
  | x :: l' => x ++ sep ++ join sep l'
  end.

(** [html.escape(s)] with the default [quote=True]. *)
Definition escape_char (c : ascii) : str :=
  if bool_decide (c = "&"%char) then lit "&amp;"
  else if bool_decide (c = "<"%char) then lit "&lt;"
  else if bool_decide (c = ">"%char) then lit "&gt;"
  else if bool_decide (c = chr 34) then lit "&quot;"
  else if bool_decide (c = "'"%char) then lit "&#x27;"
  else [c].

Definition html_escape (s : str) : str := flat_map escape_char s.

(** [str.lower] on one character: A-Z and the Latin-1 capitals (all of
    0xC0..0xDE but the multiplication sign 0xD7) move up by 32. *)
Definition lower_char (c : ascii) : ascii :=
  let n := ord c in
  if ((65 <=? n) && (n <=? 90))
     || ((192 <=? n) && (n <=? 222) && negb (n =? 215))
  then chr (n + 32) else c.

(** [s.lower()] *)
Definition lower (s : str) : str := map lower_char s.

(** Membership in [string.punctuation]. *)
Definition is_punctuation (c : ascii) : bool :=
  let n := ord c in
  ((33 <=? n) && (n <=? 47)) || ((58 <=? n) && (n <=? 64))
  || ((91 <=? n) && (n <=? 96)) || ((123 <=? n) && (n <=? 126)).

(** [s.translate(str.maketrans('', '', string.punctuation))] *)
Definition remove_punctuation (s : str) : str :=
  filter (λ c, is_punctuation c = false) s.

(** The line boundaries of [str.splitlines] below 256: LF, VT, FF, CR, FS,
    GS, RS and NEL. *)
Definition is_linebreak (c : ascii) : bool :=
  let n := ord c in
  ((10 <=? n) && (n <=? 13)) || ((28 <=? n) && (n <=? 30)) || (n =? 133).

(** [s.splitlines()]: [cur] is the line being read; [after_cr] is set right
    after a CR, so that the LF of a CR LF pair ends no second line. *)
Fixpoint splitlines_from (after_cr : bool) (s cur : str) : list str :=
  match s with
  | [] => if truthy cur then [cur] else []
  | c :: s' =>
      if after_cr && bool_decide (c = LF) then splitlines_from false s' cur
      else if is_linebreak c
      then cur :: splitlines_from (bool_decide (c = CR)) s' []
      else splitlines_from false s' (cur ++ [c])
  end.

Definition splitlines (s : str) : list str := splitlines_from false s [].

(** [s.split(sep)] for a one-character separator: empty fields are kept. *)
Fixpoint split_char_from (sep : ascii) (s cur : str) : list str :=
  match s with
  | [] => [cur]
  | c :: s' =>
      if bool_decide (c = sep) then cur :: split_char_from sep s' []
      else split_char_from sep s' (cur ++ [c])
  end.

Definition split_char (sep : ascii) (s : str) : list str := split_char_from sep s [].

(** [s.split()]: the maximal runs of characters that are not whitespace. *)
Fixpoint split_ws_from (s cur : str) : list str :=
  match s with
  | [] => if truthy cur then [cur] else []
  | c :: s' =>
      if isspace c
      then (if truthy cur then [cur] else []) ++ split_ws_from s' []
      else split_ws_from s' (cur ++ [c])
  end.

Definition split_ws (s : str) : list str := split_ws_from s [].

(** [s.replace(old, new)] for a one-character [old]. *)
Definition replace_char (old : ascii) (new : str) (s : str) : str :=
  flat_map (λ c, if bool_decide (c = old) then new else [c]) s.

(** The longest prefix of [s] whose characters satisfy [p]. *)
Fixpoint span_len (p : ascii → bool) (s : str) : nat :=
  match s with
  | c :: s' => if p c then S (span_len p s') else 0
  | [] => 0
  end.

End Py.
Import Py.


(** ** Regular expressions

    Every pattern the program uses matches at least one character, and
    where it matches at a position it matches in exactly one way.  A pattern
    is therefore given by a function [m prev s]: the length of its match at
    the start of [s], when the character before [s] is [prev].  The scan
    below is the one behind [re.finditer], [re.sub] and [re.split]: try each
    position from the left; after a match go on behind it. *)

Module Re.

(** A stretch between two matches, or a match. *)
Inductive piece := Gap (s : str) | Hit (s : str).

Definition piece_text (p : piece) : str :=
  match p with Gap s | Hit s => s end.

Definition pattern : Type := option ascii → str → option nat.

(** The pieces of [s]: gap, match, gap, ..., match, gap.  [fuel] bounds the
    number of positions tried; [gap] is the stretch read since the last
    match. *)
Fixpoint pieces_from (m : pattern) (fuel : nat) (prev : option ascii)
    (s gap : str) : list piece :=
  match fuel with
  | O => [Gap gap]
  | S fuel' =>
      match s with
      | [] => [Gap gap]
      | c :: s' =>
          match m prev s with
          | Some (S n) =>
              Gap gap :: Hit (take (S n) s)
                :: pieces_from m fuel' (last (take (S n) s)) (drop (S n) s) []
          | _ => pieces_from m fuel' (Some c) s' (gap ++ [c])
          end
      end
  end.

Definition pieces (m : pattern) (s : str) : list piece :=
  pieces_from m (length s) None s [].

(** [re.split(pattern, s)] for a pattern without groups: the gaps. *)
Definition split (m : pattern) (s : str) : list str :=
  omap (λ p, match p with Gap g => Some g | Hit _ => None end) (pieces m s).

(** [re.split(pattern, s)] for a pattern that is one group: gaps and
    matches alternate. *)
Definition split_keep (m : pattern) (s : str) : list str :=
  piece_text <$> pieces m s.

(** [re.sub(pattern, repl, s)] for a replacement without references. *)
Definition sub (m : pattern) (repl : str) (s : str) : str :=
  concat ((λ p, match p with Gap g => g | Hit _ => repl end) <$> pieces m s).

(** [\s+] *)
Definition ws_run : pattern := λ _ s,
  match span_len isspace s with O => None | n => Some n end.

(** [-\s*\n\s*]: a hyphen and the whole run of whitespace behind it, when
    that run has a newline in it ([\s*] gives back up to the last newline
    of the run, and the second [\s*] takes the rest of the run). *)
Definition hyphen_break : pattern := λ _ s,
  match s with
  | c :: s' =>
      let n := span_len isspace s' in
      if bool_decide (c = "-"%char) && bool_decide (LF ∈ take n s')
      then Some (S n) else None
  | [] => None
  end.

(** The position behind the last newline of [s], if [s] has one. *)
Fixpoint after_last_newline (s : str) : option nat :=
  match s with
  | [] => None
  | c :: s' =>
      match after_last_newline s' with
      | Some n => Some (S n)
      | None => if bool_decide (c = LF) then Some 1 else None
      end
  end.

(** [\n\s*\n]: a newline, then the run of whitespace behind it up to its
    last newline. *)
Definition blank_line : pattern := λ _ s,
  match s with
  | c :: s' =>
      if bool_decide (c = LF)
      then S <$> after_last_newline (take (span_len isspace s') s')
      else None
  | [] => None
  end.

(** [(?<=[.!?])\s+] *)
Definition after_sentence : pattern := λ prev s,
  match prev with
  | Some c =>
      if bool_decide (c = "."%char) || bool_decide (c = "!"%char)
         || bool_decide (c = "?"%char)
      then ws_run prev s else None
  | None => None
  end.

(** The class [[^\s/$.?#]]. *)
Definition url_first (c : ascii) : bool :=
  negb (isspace c) && negb (bool_decide (c ∈ lit "/$.?#")).

(** [https?://|ftp://|www\.]: the length of the alternative that matches. *)
Definition url_scheme (s : str) : option nat :=
  if startswith (lit "http://") s then Some 7
  else if startswith (lit "https://") s then Some 8
  else if startswith (lit "ftp://") s then Some 6
  else if startswith (lit "www.") s then Some 4
  else None.

(** The pattern of [_format_links]: one of the schemes [https?://],
    [ftp://], [www\.], then one character of [[^\s/$.?#]], then any
    character but the newline (the dot), then characters that are not
    whitespace, as many as there are. *)
Definition url : pattern := λ _ s,
  match url_scheme s with
  | Some p =>
      match drop p s with
      | c1 :: c2 :: rest =>
          if url_first c1 && negb (bool_decide (c2 = LF))
          then Some (p + 2 + span_len (λ c, negb (isspace c)) rest)
          else None
      | _ => None
      end
  | None => None
  end.

End Re.
(** ** difflib.SequenceMatcher

  The matcher as both comparators create it:
  [SequenceMatcher(None, a, b, autojunk=False)].  With [isjunk=None] and
  [autojunk=False] the junk and popular sets stay empty, so the two
  junk-extension loops of [find_longest_match] never run and are left
  out. *)

Module Difflib.

Inductive tag := Equal | Insert | Delete | Replace.

#[global] Instance tag_eq_dec : EqDecision tag.
Proof. solve_decision. Defined.

(** [(tag, i1, i2, j1, j2)] *)
Definition opcode : Type := tag * nat * nat * nat * nat.

(** [Match(a, b, size)] *)
Definition block : Type := nat * nat * nat.

Section matcher.
Context `{Countable A}.
Implicit Types a b : list A.

(** [__chain_b]: for each element of [b], the indices where it occurs,
    appended in increasing order. *)
Fixpoint chain_b_from (i : nat) (b : list A) (b2j : gmap A (list nat))
  : gmap A (list nat) :=
  match b with
  | [] => b2j
  | elt :: b' =>
      chain_b_from (S i) b' (<[elt := default [] (b2j !! elt) ++ [i]]> b2j)
  end.

Definition chain_b (b : list A) : gmap A (list nat) := chain_b_from 0 b ∅.

(** [b2j.get(a[i], nothing)] *)
Definition b2j_get (b2j : gmap A (list nat)) (a : list A) (i : nat) : list nat :=
  match a !! i with
  | Some x => default [] (b2j !! x)
  | None => []
  end.

(** [j2len.get(j-1, 0)]: no key is negative, so [j = 0] reads the default. *)
Definition j2len_get_pred (j2len : gmap nat nat) (j : nat) : nat :=
  match j with
  | O => 0
  | S j' => default 0 (j2len !! j')
  end.

(** The inner loop of [find_longest_match] over the indices [js] of
    [a[i]] in [b]; the state is [newj2len] and the best match so far.
    [i-k+1] is computed as [i+1-k] so that it stays within the naturals
    ([k] never exceeds [i+1]). *)
Fixpoint flm_inner (blo bhi i : nat) (j2len : gmap nat nat) (js : list nat)
    (newj2len : gmap nat nat) (best : block) : gmap nat nat * block :=
  match js with
  | [] => (newj2len, best)
  | j :: js' =>
      if j <? blo then flm_inner blo bhi i j2len js' newj2len best
      else if bhi <=? j then (newj2len, best)
      else
        let k := j2len_get_pred j2len j + 1 in
        let newj2len := <[j := k]> newj2len in
        let '(_, _, bestsize) := best in
        let best := if bestsize <? k then (i + 1 - k, j + 1 - k, k) else best in
        flm_inner blo bhi i j2len js' newj2len best
  end.

(** The outer loop, over [i] in [range(alo, ahi)] given as a list. *)
Fixpoint flm_outer (b2j : gmap A (list nat)) a (blo bhi : nat) (rows : list nat)
    (j2len : gmap nat nat) (best : block) : block :=
  match rows with
  | [] => best
  | i :: rows' =>
      let '(newj2len, best) :=
        flm_inner blo bhi i j2len (b2j_get b2j a i) ∅ best in
      flm_outer b2j a blo bhi rows' newj2len best
  end.

(** First extension loop: grow the match to the left while the elements
    before it agree. *)
Fixpoint extend_left a b (alo blo besti bestj bestsize : nat) : block :=
  match besti, bestj with
  | S i', S j' =>
      if (alo <? besti) && (blo <? bestj) && bool_decide (a !! i' = b !! j')
      then extend_left a b alo blo i' j' (S bestsize)
      else (besti, bestj, bestsize)
  | _, _ => (besti, bestj, bestsize)
  end.

(** Second extension loop: grow the match to the right; [n] bounds the
    number of iterations by the room left below [ahi]. *)
Fixpoint extend_right a b (ahi bhi besti bestj : nat) (n bestsize : nat) : nat :=
  match n with
  | O => bestsize
  | S n' =>
      if (besti + bestsize <? ahi) && (bestj + bestsize <? bhi)
         && bool_decide (a !! (besti + bestsize) = b !! (bestj + bestsize))
      then extend_right a b ahi bhi besti bestj n' (S bestsize)
      else bestsize
  end.

Definition find_longest_match (b2j : gmap A (list nat)) a b
    (alo ahi blo bhi : nat) : block :=
  let '(besti, bestj, bestsize) :=
    flm_outer b2j a blo bhi (seq alo (ahi - alo)) ∅ (alo, blo, 0) in
  let '(besti, bestj, bestsize) := extend_left a b alo blo besti bestj bestsize in
  let bestsize :=
    extend_right a b ahi bhi besti bestj (ahi - (besti + bestsize)) bestsize in
  (besti, bestj, bestsize).

(** The work list of [get_matching_blocks].  [queue.pop()] takes the
    element appended last, so the head of the list is the end of the Python
    list.  Every iteration pops one range; [fuel] bounds the iterations. *)
Definition range4 : Type := nat * nat * nat * nat.

Fixpoint matching_loop (b2j : gmap A (list nat)) a b (fuel : nat)
    (queue : list range4) (matching_blocks : list block) : list block :=
  match fuel with
  | O => matching_blocks
  | S fuel' =>
      match queue with
      | [] => matching_blocks
      | (alo, ahi, blo, bhi) :: queue =>
          let '(i, j, k) := find_longest_match b2j a b alo ahi blo bhi in
          if k =? 0 then matching_loop b2j a b fuel' queue matching_blocks
          else
            let queue :=
              if (alo <? i) && (blo <? j) then (alo, i, blo, j) :: queue
              else queue in
            let queue :=
              if (i + k <? ahi) && (j + k <? bhi)
              then (i + k, ahi, j + k, bhi) :: queue
              else queue in
            matching_loop b2j a b fuel' queue (matching_blocks ++ [(i, j, k)])
      end
  end.

(** Tuple comparison, as [list.sort] uses it. *)
Definition block_leb (x y : block) : bool :=
  let '(i1, j1, k1) := x in
  let '(i2, j2, k2) := y in
  (i1 <? i2) || ((i1 =? i2) && ((j1 <? j2) || ((j1 =? j2) && (k1 <=? k2)))).

Definition block_le (x y : block) : Prop := block_leb x y = true.

#[global] Instance block_le_dec : RelDecision block_le.
Proof. intros x y. unfold block_le. apply _. Defined.

(** The loop that merges adjacent blocks; the state is the pending block
    [(i1, j1, k1)] and [non_adjacent]. *)
Fixpoint collapse (bs : list block) (i1 j1 k1 : nat) (non_adjacent : list block)
  : list block :=
  match bs with
  | [] => if k1 =? 0 then non_adjacent else non_adjacent ++ [(i1, j1, k1)]
  | (i2, j2, k2) :: bs' =>
      if (i1 + k1 =? i2) && (j1 + k1 =? j2)
      then collapse bs' i1 j1 (k1 + k2) non_adjacent
      else
        collapse bs' i2 j2 k2
          (if k1 =? 0 then non_adjacent else non_adjacent ++ [(i1, j1, k1)])
  end.

(** Enough iterations for any work list that starts at [(0, la, 0, lb)]. *)
Definition matching_fuel (la : nat) : nat := 2 * la + 1.

Definition get_matching_blocks a b : list block :=
  let la := length a in
  let lb := length b in
  let matching_blocks :=
    matching_loop (chain_b b) a b (matching_fuel la) [(0, la, 0, lb)] [] in
  let matching_blocks := merge_sort block_le matching_blocks in
  collapse matching_blocks 0 0 0 [] ++ [(la, lb, 0)].

(** The loop of [get_opcodes]; the state is [(i, j)] and [answer]. *)
Fixpoint opcodes_loop (bs : list block) (i j : nat) (answer : list opcode)
  : list opcode :=
  match bs with
  | [] => answer
  | (ai, bj, size) :: bs' =>
      let answer :=
        if (i <? ai) && (j <? bj) then answer ++ [(Replace, i, ai, j, bj)]
        else if i <? ai then answer ++ [(Delete, i, ai, j, bj)]
        else if j <? bj then answer ++ [(Insert, i, ai, j, bj)]
        else answer in
      let i := ai + size in
      let j := bj + size in
      let answer :=
        if size =? 0 then answer else answer ++ [(Equal, ai, i, bj, j)] in
      opcodes_loop bs' i j answer
  end.

Definition get_opcodes a b : list opcode :=
  opcodes_loop (get_matching_blocks a b) 0 0 [].

End matcher.
End Difflib.

(** ** Exceptions

    A call that may raise: [Raise e] carries [str(e)], the text of the
    exception; [Ret v] is a normal return. *)

Inductive exc (A : Type) :=
| Raise (e : str)
| Ret (v : A).
Arguments Raise {A} e.
Arguments Ret {A} v.

(** An exception whose class is looked at as well: [type(e).__name__] and
    [str(e)]. *)
Record exception := {
  exc_type : str;
  exc_str : str
}.

#[global] Instance exc_ret : MRet exc := λ A v, Ret v.

#[global] Instance exc_bind : MBind exc := λ A B f m,
  match m with
  | Raise e => Raise e
  | Ret v => f v
  end.

(** [if err:] for an optional error text: [None] and the empty string are
    both false. *)
Definition truthy_opt (e : option str) : bool :=
  match e with Some s => truthy s | None => false end.

(** ** comparator.py: class PDFComparator *)

Module Lexical.
Import Difflib Re.

(** The three options of the constructor. *)
Record options := {
  ignore_case : bool;
  ignore_punctuation : bool;
  de_hyphenate : bool
}.

Definition _apply_preprocessing_options (o : options) (text : str) : str :=
  let text := if ignore_case o then lower text else text in
  let text := if ignore_punctuation o then remove_punctuation text else text in
  strip (sub ws_run [SP] text).

(** The loop of [_preprocess_text] over the lines. *)
Fixpoint processed_lines (o : options) (lines : list str) : list str :=
  match lines with
  | [] => []
  | line :: lines' =>
      let processed_line := _apply_preprocessing_options o line in
      if truthy processed_line
      then processed_line :: processed_lines o lines'
      else processed_lines o lines'
  end.

Definition _preprocess_text (o : options) (raw_text : option str)
  : option (list str) :=
  match raw_text with
  | None => None
  | Some raw_text =>
      let processed_text :=
        if de_hyphenate o then sub hyphen_break [] raw_text else raw_text in
      Some (processed_lines o (splitlines processed_text))
  end.

(** [re.split(r'(\s+)', line)] without the empty strings. *)
Definition words_of (line : str) : list str :=
  filter (λ w, truthy w = true) (split_keep ws_run line).

(** What one opcode appends to [html_out] in [_generate_word_diff_html]. *)
Definition word_diff_step (words1 words2 : list str) (op : opcode) : list str :=
  let '(tag, i1, i2, j1, j2) := op in
  let seg1 := join0 (slice words1 i1 i2) in
  let seg2 := join0 (slice words2 j1 j2) in
  let escaped1 := html_escape seg1 in
  let escaped2 := html_escape seg2 in
  match tag with
  | Equal => [escaped2]
  | Delete => [lit "<span class='word-deleted'>" ++ escaped1 ++ lit "</span>"]
  | Insert => [lit "<span class='word-added'>" ++ escaped2 ++ lit "</span>"]
  | Replace =>
      (if truthy (strip escaped1)
       then [lit "<span class='word-deleted'>" ++ escaped1 ++ lit "</span>"]
       else [])
      ++ (if truthy (strip escaped2)
          then [lit "<span class='word-added'>" ++ escaped2 ++ lit "</span>"]
          else [])
  end.

Definition _generate_word_diff_html (line1 line2 : str) : str :=
  let words1 := words_of line1 in
  let words2 := words_of line2 in
  let html_out := flat_map (word_diff_step words1 words2) (get_opcodes words1 words2) in
  join0 (filter (λ w, truthy w = true) html_out).

(** The double quote, which the anchor of [_format_links] is written with. *)
Definition DQ : str := [chr 34].

(** What [_format_links] appends to [parts] for a stretch outside the
    matches and for a match. *)
Definition link_part (p : piece) : str :=
  match p with
  | Gap g => html_escape g
  | Hit url =>
      let href :=
        if startswith (lit "www.") url
           && negb (startswith (lit "http://") url || startswith (lit "https://") url
                    || startswith (lit "ftp://") url)
        then lit "http://" ++ url else url in
      let safe_href := html_escape href in
      let safe_url_display := html_escape url in
      lit "<a href=" ++ DQ ++ safe_href ++ DQ ++ lit " target=" ++ DQ ++ lit "_blank"
        ++ DQ ++ lit " title=" ++ DQ ++ lit "Open link: " ++ safe_href ++ DQ
        ++ lit ">" ++ safe_url_display ++ lit "</a>"
  end.

Definition _format_links (line : str) : str :=
  join0 (link_part <$> pieces url line).

Record summary := {
  lines_added : nat;
  lines_deleted : nat;
  lines_modified : nat
}.

(** The three lines that carry one whole line of text. *)
Definition equal_line (line : str) : str :=
  let escaped_line := html_escape line in
  let linked_line := _format_links escaped_line in
  lit "<span class='diff-line diff-equal'><span class='diff-marker'> </span>"
    ++ linked_line ++ lit "</span>".

Definition added_line (line : str) : str :=
  let escaped_line := html_escape line in
  let linked_line := _format_links escaped_line in
  lit "<span class='diff-line diff-added'><span class='diff-marker'>+</span>"
    ++ linked_line ++ lit "</span>".

Definition deleted_line (line : str) : str :=
  let escaped_line := html_escape line in
  let linked_line := _format_links escaped_line in
  lit "<span class='diff-line diff-deleted'><span class='diff-marker'>-</span>"
    ++ linked_line ++ lit "</span>".

Definition modified_line (line1 line2 : str) : str :=
  let word_diff_content := _generate_word_diff_html line1 line2 in
  lit "<span class='diff-line diff-modified'><span class='diff-marker'>*</span>"
    ++ word_diff_content ++ lit "</span>".

(** One round of the loop [for i in range(max_len)] of a replace opcode:
    what it appends to [html_out].  A line outside its span reads as the
    empty string. *)
Definition replace_round (text1_lines text2_lines : list str)
    (i1 j1 len1 len2 i : nat) : list str :=
  let line1 := if i <? len1 then default [] (text1_lines !! (i1 + i)) else [] in
  let line2 := if i <? len2 then default [] (text2_lines !! (j1 + i)) else [] in
  if truthy line1 && truthy line2 then [modified_line line1 line2]
  else if truthy line2 then [added_line line2]
  else if truthy line1 then [deleted_line line1]
  else [].

(** The state of the loop over the opcodes. *)
Record diff_state := {
  html_out : list str;
  count : summary
}.

(** One opcode of [_generate_diff_html_with_word_level]. *)
Definition diff_step (text1_lines text2_lines : list str) (st : diff_state)
    (op : opcode) : diff_state :=
  let '(opcode, i1, i2, j1, j2) := op in
  let c := count st in
  match opcode with
  | Equal =>
      {| html_out := html_out st ++ (equal_line <$> slice text1_lines i1 i2);
         count := c |}
  | Insert =>
      let lines := slice text2_lines j1 j2 in
      {| html_out := html_out st ++ (added_line <$> lines);
         count := {| lines_added := lines_added c + length lines;
                     lines_deleted := lines_deleted c;
                     lines_modified := lines_modified c |} |}
  | Delete =>
      let lines := slice text1_lines i1 i2 in
      {| html_out := html_out st ++ (deleted_line <$> lines);
         count := {| lines_added := lines_added c;
                     lines_deleted := lines_deleted c + length lines;
                     lines_modified := lines_modified c |} |}
  | Replace =>
      let len1 := i2 - i1 in
      let len2 := j2 - j1 in
      let max_len := max len1 len2 in
      {| html_out :=
           html_out st
           ++ flat_map (replace_round text1_lines text2_lines i1 j1 len1 len2)
                (seq 0 max_len);
         count := {| lines_added := lines_added c;
                     lines_deleted := lines_deleted c;
                     lines_modified := lines_modified c + max len1 len2 |} |}
  end.

Definition zero_summary : summary :=
  {| lines_added := 0; lines_deleted := 0; lines_modified := 0 |}.

(** Returns the joined markup and the summary it stores in [self.summary]. *)
Definition _generate_diff_html_with_word_level (text1_lines text2_lines : list str)
  : str * summary :=
  let st :=
    fold_left (diff_step text1_lines text2_lines)
      (get_opcodes text1_lines text2_lines)
      {| html_out := []; count := zero_summary |} in
  (join [LF] (html_out st), count st).

(** The fields of the comparator that [compare] writes. *)
Record state := {
  success : bool;
  error_message : option str;
  is_identical : bool;
  is_identical_raw : bool;
  text1_raw : option str;
  text2_raw : option str;
  text1_processed_lines : option (list str);
  text2_processed_lines : option (list str);
  diff_html : option str;
  summary_of : summary
}.

(** The fields as the first lines of [compare] reset them. *)
Definition reset : state :=
  {| success := false; error_message := None; is_identical := false;
     is_identical_raw := false; text1_raw := None; text2_raw := None;
     text1_processed_lines := None; text2_processed_lines := None;
     diff_html := None; summary_of := zero_summary |}.

Definition set_error (st : state) (msg : str) : state :=
  {| success := success st; error_message := Some msg;
     is_identical := is_identical st; is_identical_raw := is_identical_raw st;
     text1_raw := text1_raw st; text2_raw := text2_raw st;
     text1_processed_lines := text1_processed_lines st;
     text2_processed_lines := text2_processed_lines st;
     diff_html := diff_html st; summary_of := summary_of st |}.

Definition set_raw (st : state) (t1 t2 : option str) : state :=
  {| success := success st; error_message := error_message st;
     is_identical := is_identical st; is_identical_raw := is_identical_raw st;
     text1_raw := t1; text2_raw := t2;
     text1_processed_lines := text1_processed_lines st;
     text2_processed_lines := text2_processed_lines st;
     diff_html := diff_html st; summary_of := summary_of st |}.

Definition set_processed (st : state) (l1 l2 : option (list str)) : state :=
  {| success := success st; error_message := error_message st;
     is_identical := is_identical st; is_identical_raw := is_identical_raw st;
     text1_raw := text1_raw st; text2_raw := text2_raw st;
     text1_processed_lines := l1; text2_processed_lines := l2;
     diff_html := diff_html st; summary_of := summary_of st |}.

Definition set_identical (st : state) (raw : bool) : state :=
  {| success := true; error_message := error_message st;
     is_identical := true; is_identical_raw := raw;
     text1_raw := text1_raw st; text2_raw := text2_raw st;
     text1_processed_lines := text1_processed_lines st;
     text2_processed_lines := text2_processed_lines st;
     diff_html := diff_html st; summary_of := summary_of st |}.

Definition set_summary (st : state) (s : summary) : state :=
  {| success := success st; error_message := error_message st;
     is_identical := is_identical st; is_identical_raw := is_identical_raw st;
     text1_raw := text1_raw st; text2_raw := text2_raw st;
     text1_processed_lines := text1_processed_lines st;
     text2_processed_lines := text2_processed_lines st;
     diff_html := diff_html st; summary_of := s |}.

Definition set_diff (st : state) (html : str) : state :=
  {| success := true; error_message := error_message st;
     is_identical := is_identical st; is_identical_raw := is_identical_raw st;
     text1_raw := text1_raw st; text2_raw := text2_raw st;
     text1_processed_lines := text1_processed_lines st;
     text2_processed_lines := text2_processed_lines st;
     diff_html := Some html; summary_of := summary_of st |}.

(** The [except Exception as e] clause of [compare]. *)
Definition on_exception (st : state) (e : str) : bool * state :=
  let st := set_error st (lit "Unexpected error during basic comparison: " ++ e) in
  (true,
   {| success := false; error_message := error_message st;
      is_identical := is_identical st; is_identical_raw := is_identical_raw st;
      text1_raw := text1_raw st; text2_raw := text2_raw st;
      text1_processed_lines := text1_processed_lines st;
      text2_processed_lines := text2_processed_lines st;
      diff_html := diff_html st; summary_of := summary_of st |}).

Section compare.

Variable o : options.

(** The calls [compare] makes inside its [try] block, each of which may
    raise: the two extractions (which return a text and an error), the
    preprocessing of each text and the diff generation. *)
Variable extract1 extract2 : exc (option str * option str).
Variable preprocess : option str → exc (option (list str)).
Variable generate : list str → list str → exc (str * summary).

(** The part of the [try] block behind the second extraction. *)
Definition compare_texts (st : state) : bool * state :=
  match text1_raw st, text2_raw st with
  | Some t1, Some t2 =>
      let raw_check_possible :=
        negb (ignore_case o || ignore_punctuation o || de_hyphenate o) in
      if raw_check_possible && bool_decide (t1 = t2)
      then (true, set_identical st true)
      else
        match preprocess (text1_raw st) with
        | Raise e => on_exception st e
        | Ret l1 =>
            let st := set_processed st l1 None in
            match preprocess (text2_raw st) with
            | Raise e => on_exception st e
            | Ret l2 =>
                let st := set_processed st l1 l2 in
                match l1, l2 with
                | Some lines1, Some lines2 =>
                    if bool_decide (lines1 = lines2)
                    then
                      (true,
                       set_identical st (raw_check_possible && is_identical_raw st))
                    else
                      match generate lines1 lines2 with
                      | Raise e => on_exception st e
                      | Ret (html, s) => (true, set_diff (set_summary st s) html)
                      end
                | _, _ =>
                    (false,
                     set_error st
                       (default (lit "Text preprocessing failed.") (error_message st)))
                end
            end
        end
  | _, _ => (false, set_error st (lit "Text extraction failed unexpectedly."))
  end.

(** [compare]: the returned boolean and the fields it leaves behind. *)
Definition compare_with : bool * state :=
  let st := reset in
  match extract1 with
  | Raise e => on_exception st e
  | Ret (t1, err1) =>
      let st := set_raw st t1 None in
      if truthy_opt err1
      then (false, set_error st (lit "Error in Document 1: " ++ default [] err1))
      else
        match extract2 with
        | Raise e => on_exception st e
        | Ret (t2, err2) =>
            let st := set_raw st t1 t2 in
            if truthy_opt err2
            then (false, set_error st (lit "Error in Document 2: " ++ default [] err2))
            else compare_texts st
        end
  end.

End compare.

(** [compare] with the program's own preprocessing and diff generation,
    neither of which raises, on the two extraction results. *)
Definition compare (o : options) (x1 x2 : option str * option str) : bool * state :=
  compare_with o (Ret x1) (Ret x2)
    (λ t, Ret (_preprocess_text o t))
    (λ l1 l2, Ret (_generate_diff_html_with_word_level l1 l2)).

End Lexical.

(** ** llm_comparator.py: class GroqPDFComparator *)

Module Semantic.
Import Difflib Re.

(** *** The token chunker

    The tokenizer ([tiktoken]'s [cl100k_base]) is not part of the program:
    [encode] and [decode] stand for [tokenizer.encode] and
    [tokenizer.decode].  Token counts are Python integers. *)

(** [__init__]: [self.max_chunk_tokens = max(max_chunk_tokens, 500)] *)
Definition effective_max_chunk_tokens (max_chunk_tokens : Z) : Z :=
  Z.max max_chunk_tokens 500.

Section chunker.

Variable token : Type.
Variable encode : str → list token.
Variable decode : list token → str.

(** [self.max_chunk_tokens] *)
Variable max_chunk_tokens : Z.

(** [len(tokenizer.encode(s))] *)
Definition token_count (s : str) : Z := Z.of_nat (length (encode s)).

Definition separator : str := [LF; LF].

Definition separator_tokens : Z := token_count separator.

(** The four splitting strategies, tried in order until one gives more than
    one part. *)
Definition split_parts (text : str) : list str :=
  let parts := split blank_line (strip text) in
  if length parts <=? 1 then
    let parts := split after_sentence (strip text) in
    if length parts <=? 1 then
      let parts := split_char LF (strip text) in
      if length parts <=? 1 then split_ws (strip text) else parts
    else parts
  else parts.

(** [chunks.append(c)] when [c] is not empty. *)
Definition append_if (chunks : list str) (c : str) : list str :=
  if truthy c then chunks ++ [c] else chunks.

(** The loop over the words of a part that is over the budget; the state is
    [chunks], [sub_chunk] and [sub_chunk_tokens]. *)
Fixpoint pack_words (words : list str) (chunks : list str) (sub_chunk : str)
    (sub_chunk_tokens : Z) : list str * str :=
  match words with
  | [] => (chunks, sub_chunk)
  | word :: words' =>
      let word_prefix := if truthy sub_chunk then separator else [] in
      let word_token_estimate :=
        (token_count (word_prefix ++ word) - token_count word_prefix)%Z in
      if (sub_chunk_tokens + word_token_estimate <=? max_chunk_tokens)%Z
      then
        pack_words words' chunks
          (sub_chunk ++ (if truthy sub_chunk then [SP] else []) ++ word)
          (sub_chunk_tokens + word_token_estimate)%Z
      else
        let chunks := append_if chunks sub_chunk in
        let word_alone_tokens := token_count word in
        if (word_alone_tokens <=? max_chunk_tokens)%Z
        then pack_words words' chunks word word_alone_tokens
        else
          let encoded_word := encode word in
          let truncated_word :=
            decode (take (Z.to_nat max_chunk_tokens) encoded_word) in
          pack_words words' (chunks ++ [truncated_word]) [] 0%Z
  end.

(** [chunks.append(separator.join(current_chunk_parts))] when there are
    current parts. *)
Definition flush (chunks current_chunk_parts : list str) : list str :=
  if truthy current_chunk_parts
  then chunks ++ [join separator current_chunk_parts] else chunks.

(** The loop over the parts; the state is [chunks], [current_chunk_parts]
    and [current_token_count].  The result is [chunks] after the flush that
    follows the loop. *)
Fixpoint pack_parts (parts : list str) (chunks current_chunk_parts : list str)
    (current_token_count : Z) : list str :=
  match parts with
  | [] => flush chunks current_chunk_parts
  | part :: parts' =>
      let part := strip part in
      if negb (truthy part)
      then pack_parts parts' chunks current_chunk_parts current_token_count
      else
        let part_tokens := token_count part in
        if (max_chunk_tokens <? part_tokens)%Z
        then
          let chunks := flush chunks current_chunk_parts in
          let '(chunks, sub_chunk) := pack_words (split_ws part) chunks [] 0%Z in
          let chunks := append_if chunks sub_chunk in
          pack_parts parts' chunks []
            (if truthy current_chunk_parts then 0%Z else current_token_count)
        else
          let potential_tokens :=
            (current_token_count
             + (if truthy current_chunk_parts then separator_tokens else 0)
             + part_tokens)%Z in
          if (potential_tokens <=? max_chunk_tokens)%Z
          then pack_parts parts' chunks (current_chunk_parts ++ [part]) potential_tokens
          else pack_parts parts' (flush chunks current_chunk_parts) [part] part_tokens
  end.

Definition _chunk_text_by_tokens (text : str) : list str :=
  if negb (truthy text) then []
  else
    let chunks := pack_parts (split_parts text) [] [] 0%Z in
    filter (λ chunk, truthy (strip chunk) = true) chunks.

End chunker.

(** *** The chunker with a tokenizer that raises

    [tokenizer.encode] does not take every text: [tiktoken] raises on a text
    that holds the name of one of its special tokens.  Here [encode] is
    [tokenizer.encode] with that outcome, and the three functions are the
    chunker once more, with every call of [tokenizer.encode] in the order of
    the source; the first call that raises ends the run. *)

Section raising.

Variable token : Type.
Variable encode : str → exc (list token).
Variable decode : list token → str.
Variable max_chunk_tokens : Z.

(** [len(tokenizer.encode(s))] *)
Definition token_count_exc (s : str) : exc Z :=
  tokens ← encode s; Ret (Z.of_nat (length tokens)).

Fixpoint pack_words_exc (words : list str) (chunks : list str) (sub_chunk : str)
    (sub_chunk_tokens : Z) : exc (list str * str) :=
  match words with
  | [] => Ret (chunks, sub_chunk)
  | word :: words' =>
      let word_prefix := if truthy sub_chunk then separator else [] in
      with_prefix ← token_count_exc (word_prefix ++ word);
      prefix_alone ← token_count_exc word_prefix;
      let word_token_estimate := (with_prefix - prefix_alone)%Z in
      if (sub_chunk_tokens + word_token_estimate <=? max_chunk_tokens)%Z
      then
        pack_words_exc words' chunks
          (sub_chunk ++ (if truthy sub_chunk then [SP] else []) ++ word)
          (sub_chunk_tokens + word_token_estimate)%Z
      else
        let chunks := append_if chunks sub_chunk in
        word_alone_tokens ← token_count_exc word;
        if (word_alone_tokens <=? max_chunk_tokens)%Z
        then pack_words_exc words' chunks word word_alone_tokens
        else
          encoded_word ← encode word;
          let truncated_word :=
            decode (take (Z.to_nat max_chunk_tokens) encoded_word) in
          pack_words_exc words' (chunks ++ [truncated_word]) [] 0%Z
  end.

(** The loop over the parts; [separator_tokens] was counted in front of the
    loop. *)
Fixpoint pack_parts_exc (separator_tokens : Z) (parts : list str)
    (chunks current_chunk_parts : list str) (current_token_count : Z)
  : exc (list str) :=
  match parts with
  | [] => Ret (flush chunks current_chunk_parts)
  | part :: parts' =>
      let part := strip part in
      if negb (truthy part)
      then pack_parts_exc separator_tokens parts' chunks current_chunk_parts
             current_token_count
      else
        part_tokens ← token_count_exc part;
        if (max_chunk_tokens <? part_tokens)%Z
        then
          let chunks := flush chunks current_chunk_parts in
          packed ← pack_words_exc (split_ws part) chunks [] 0%Z;
          let chunks := append_if packed.1 packed.2 in
          pack_parts_exc separator_tokens parts' chunks []
            (if truthy current_chunk_parts then 0%Z else current_token_count)
        else
          let potential_tokens :=
            (current_token_count
             + (if truthy current_chunk_parts then separator_tokens else 0)
             + part_tokens)%Z in
          if (potential_tokens <=? max_chunk_tokens)%Z
          then pack_parts_exc separator_tokens parts' chunks
                 (current_chunk_parts ++ [part]) potential_tokens
          else pack_parts_exc separator_tokens parts'
                 (flush chunks current_chunk_parts) [part] part_tokens
  end.

Definition _chunk_text_by_tokens_exc (text : str) : exc (list str) :=
  if negb (truthy text) then Ret []
  else
    let parts := split_parts text in
    separator_tokens ← token_count_exc separator;
    chunks ← pack_parts_exc separator_tokens parts [] [] 0%Z;
    Ret (filter (λ chunk, truthy (strip chunk) = true) chunks).

End raising.

(** *** Change blocks *)

Inductive status := StEqual | StAdded | StDeleted | StModified.

#[global] Instance status_eq_dec : EqDecision status.
Proof. solve_decision. Defined.

(** A validated block: the keys [status], [text1] and [text2] of the dict. *)
Record change_block := {
  block_status : status;
  text1 : str;
  text2 : str
}.

#[global] Instance change_block_eq_dec : EqDecision change_block.
Proof. solve_decision. Defined.

(** *** The answer of the language model *)

Set Warnings "-register-all".

(** A decoded JSON value; an object is the list of its keys and values. *)
Inductive json :=
| JNull
| JBool (b : bool)
| JNum (n : Z)
| JStr (s : str)
| JArr (items : list json)
| JObj (fields : list (str * json)).

(** [d.get(key)] / [key in d] on a decoded object. *)
Fixpoint obj_get (fields : list (str * json)) (key : str) : option json :=
  match fields with
  | [] => None
  | (k, v) :: fields' => if bool_decide (k = key) then Some v else obj_get fields' key
  end.

(** What the call [self.groq_client.chat.completions.create(...)] and the
    reading of its first choice come to: one of the exceptions the [except]
    clauses of the method tell apart, or the text of the answer.  [APIError]
    stands for an error of the service that is neither of the two in front of
    it and carries a [status_code]; [APIErrorWithoutStatus] for an
    [APIError] whose object has no such attribute (the connection error and
    the timeout of the client), with the name of its class; [ValueError] for
    a [ValueError] raised by the call; [OtherException] for every other
    [Exception], among them the [IndexError] of an answer without a choice
    and the [TypeError] [json.loads] raises on a content that is no text. *)
Inductive api_result :=
| RateLimitError (e : str)
| BadRequestError (e : str)
| APIError (status_code message : str)
| APIErrorWithoutStatus (type_name message : str)
| ValueError (e : str)
| OtherException (type_name e : str)
| Content (raw_response_content : str).

(** [status not in valid_statuses] *)
Definition status_of (v : option json) : option status :=
  match v with
  | Some (JStr s) =>
      if bool_decide (s = lit "equal") then Some StEqual
      else if bool_decide (s = lit "added") then Some StAdded
      else if bool_decide (s = lit "deleted") then Some StDeleted
      else if bool_decide (s = lit "modified") then Some StModified
      else None
  | _ => None
  end.

(** [item.get(key)] must be [None] or a string; [item.get(key, "") or ""]
    is then the string, with [None] read as the empty string. *)
Definition text_of (v : option json) : option str :=
  match v with
  | None | Some JNull => Some []
  | Some (JStr s) => Some s
  | Some _ => None
  end.

Section oracle.

(** [json.loads]: the decoded value, or the text of the [JSONDecodeError]. *)
Variable json_loads : str → exc json.

(** [str(v)] for a decoded value and [str(i)] for an index, as the f-strings
    of the error messages print them. *)
Variable str_json : option json → str.
Variable str_nat : nat → str.

(** The checks on block [i]; [Raise] carries the text of the [ValueError]. *)
Definition validate_block (i : nat) (item : json) : exc change_block :=
  match item with
  | JObj fields =>
      let status := obj_get fields (lit "status") in
      let text1 := obj_get fields (lit "text1") in
      let text2 := obj_get fields (lit "text2") in
      match status_of status with
      | None =>
          Raise (lit "Block " ++ str_nat i ++ lit " has invalid status '"
                 ++ str_json status
                 ++ lit "'. Must be one of ['equal', 'added', 'deleted', 'modified'].")
      | Some st =>
          match text_of text1 with
          | None => Raise (lit "Block " ++ str_nat i ++ lit " 'text1' is not a string.")
          | Some t1 =>
              match text_of text2 with
              | None =>
                  Raise (lit "Block " ++ str_nat i ++ lit " 'text2' is not a string.")
              | Some t2 =>
                  let t2 := if bool_decide (st = StDeleted) then [] else t2 in
                  let t1 := if bool_decide (st = StAdded) then [] else t1 in
                  Ret {| block_status := st; text1 := t1; text2 := t2 |}
              end
          end
      end
  | _ => Raise (lit "Block " ++ str_nat i ++ lit " is not a JSON object.")
  end.

(** The loop over [enumerate(change_blocks)]. *)
Fixpoint validate_blocks (i : nat) (items : list json) : exc (list change_block) :=
  match items with
  | [] => Ret []
  | item :: items' =>
      match validate_block i item with
      | Raise e => Raise e
      | Ret b =>
          match validate_blocks (S i) items' with
          | Raise e => Raise e
          | Ret bs => Ret (b :: bs)
          end
      end
  end.

(** The body of the [try] of [_call_groq_change_blocks] behind the call:
    the validated blocks, or the text of the [ValueError]. *)
Definition parse_response (raw_response_content : str) : exc (list change_block) :=
  match json_loads raw_response_content with
  | Raise json_e => Raise (lit "LLM returned invalid JSON: " ++ json_e)
  | Ret result =>
      match result with
      | JObj fields =>
          match obj_get fields (lit "change_blocks") with
          | None =>
              Raise (lit "LLM response missing 'change_blocks' key in the root JSON object.")
          | Some (JArr change_blocks) => validate_blocks 0 change_blocks
          | Some _ => Raise (lit "'change_blocks' value is not a JSON array.")
          end
      | _ => Raise (lit "LLM response missing 'change_blocks' key in the root JSON object.")
      end
  end.

(** How [_call_groq_change_blocks] ends: it returns the validated blocks;
    or an [except] clause sets [error_message] and returns [None]; or the
    exception leaves the method. *)
Inductive call_end :=
| Blocks (validated_blocks : list change_block)
| Failed (msg : str)
| Escapes (e : exception).

(** [_call_groq_change_blocks] without its counter and logs.  The clause
    [except APIError as apie] reads [apie.status_code] while it builds the
    message: on an error without that attribute this raises an
    [AttributeError] inside the clause, which no clause of the method
    catches, and [error_message] is not set. *)
Definition call_result (r : api_result) : call_end :=
  match r with
  | RateLimitError rle =>
      Failed (lit "API Rate Limit Error: " ++ rle ++ lit ". Please wait and try again.")
  | BadRequestError bre =>
      Failed (lit "API Bad Request Error: " ++ bre
              ++ lit ". Check input size/content or model compatibility.")
  | APIError status_code message =>
      Failed (lit "Groq API Error (" ++ status_code ++ lit "): " ++ message)
  | APIErrorWithoutStatus type_name message =>
      Escapes {| exc_type := lit "AttributeError";
                 exc_str := lit "'" ++ type_name
                            ++ lit "' object has no attribute 'status_code'" |}
  | ValueError ve => Failed (lit "LLM Response Validation Error: " ++ ve)
  | OtherException type_name e =>
      Failed (lit "Unexpected Error during API Call: " ++ type_name ++ lit " - " ++ e)
  | Content raw =>
      match parse_response raw with
      | Raise ve => Failed (lit "LLM Response Validation Error: " ++ ve)
      | Ret blocks => Blocks blocks
      end
  end.

End oracle.

(** *** Rendering *)

(** [html.escape(s).replace('\n', '<br>\n')] *)
Definition escape_br (s : str) : str :=
  replace_char LF (lit "<br>" ++ [LF]) (html_escape s).

Definition BR : str := lit "<br>" ++ [LF].

(** [escaped.strip() and escaped != '<br>\n'] *)
Definition styled (escaped : str) : bool :=
  truthy (strip escaped) && negb (bool_decide (escaped = BR)).

(** What one opcode adds to [modified_content_html] in
    [_render_word_diff_html]. *)
Definition render_word_step (words1 words2 : list str) (op : opcode) : str :=
  let '(tag, i1, i2, j1, j2) := op in
  let text1_segment := join0 (slice words1 i1 i2) in
  let text2_segment := join0 (slice words2 j1 j2) in
  let escaped1 := escape_br text1_segment in
  let escaped2 := escape_br text2_segment in
  match tag with
  | Equal => lit "<span class='llm-word status-equal'>" ++ escaped2 ++ lit "</span>"
  | Delete =>
      if styled escaped1
      then lit "<span class='llm-word status-deleted'>" ++ escaped1 ++ lit "</span>"
      else escaped1
  | Insert =>
      if styled escaped2
      then lit "<span class='llm-word status-added'>" ++ escaped2 ++ lit "</span>"
      else escaped2
  | Replace =>
      if styled escaped2
      then lit "<span class='llm-word status-modified'>" ++ escaped2 ++ lit "</span>"
      else if negb (truthy (strip escaped1)) && truthy escaped2 then escaped2
      else if truthy (strip escaped1) && negb (truthy (strip escaped2))
      then lit "<span class='llm-word status-deleted'>" ++ escaped1 ++ lit "</span>"
      else if truthy escaped1 && truthy escaped2 then escaped2
      else []
  end.

Definition _render_word_diff_html (text1 text2 : str) : str :=
  let words1 := Lexical.words_of text1 in
  let words2 := Lexical.words_of text2 in
  concat (render_word_step words1 words2 <$> get_opcodes words1 words2).

(** [block_html] for one block. *)
Definition render_block (b : change_block) : str :=
  match block_status b with
  | StEqual =>
      if truthy (text2 b)
      then lit "<span class='llm-word status-equal'>" ++ escape_br (text2 b) ++ lit "</span>"
      else []
  | StDeleted =>
      if truthy (text1 b)
      then lit "<span class='llm-word status-deleted'>" ++ escape_br (text1 b) ++ lit "</span>"
      else []
  | StAdded =>
      if truthy (text2 b)
      then lit "<span class='llm-word status-added'>" ++ escape_br (text2 b) ++ lit "</span>"
      else []
  | StModified => _render_word_diff_html (text1 b) (text2 b)
  end.

Definition _render_change_blocks_html (change_blocks : list change_block) : str :=
  let html_output_parts :=
    filter (λ h, truthy h = true) (render_block <$> change_blocks) in
  lit "<div class='diff-llm-container-inner'>" ++ join0 html_output_parts
    ++ lit "</div>".

(** *** The summary *)

Record summary := {
  added_chars : nat;
  deleted_chars : nat;
  modified_blocks : nat;
  modified_chars : nat
}.

Definition _get_default_summary : summary :=
  {| added_chars := 0; deleted_chars := 0; modified_blocks := 0; modified_chars := 0 |}.

(** The loop over the opcodes of a modified block: [(mod_added_net,
    mod_deleted_net)]. *)
Definition net_step (words1 words2 : list str) (acc : nat * nat) (op : opcode)
  : nat * nat :=
  let '(tag, i1, i2, j1, j2) := op in
  let seg1 := join0 (slice words1 i1 i2) in
  let seg2 := join0 (slice words2 j1 j2) in
  let '(mod_added_net, mod_deleted_net) := acc in
  match tag with
  | Insert => (mod_added_net + length seg2, mod_deleted_net)
  | Delete => (mod_added_net, mod_deleted_net + length seg1)
  | Replace => (mod_added_net + length seg2, mod_deleted_net + length seg1)
  | Equal => acc
  end.

(** One block of the loop of [_calculate_summary]. *)
Definition summary_step (s : summary) (b : change_block) : summary :=
  match block_status b with
  | StAdded =>
      {| added_chars := added_chars s + length (text2 b);
         deleted_chars := deleted_chars s;
         modified_blocks := modified_blocks s;
         modified_chars := modified_chars s |}
  | StDeleted =>
      {| added_chars := added_chars s;
         deleted_chars := deleted_chars s + length (text1 b);
         modified_blocks := modified_blocks s;
         modified_chars := modified_chars s |}
  | StModified =>
      let words1 := Lexical.words_of (text1 b) in
      let words2 := Lexical.words_of (text2 b) in
      let '(mod_added_net, mod_deleted_net) :=
        fold_left (net_step words1 words2) (get_opcodes words1 words2) (0, 0) in
      {| added_chars := added_chars s + mod_added_net;
         deleted_chars := deleted_chars s + mod_deleted_net;
         modified_blocks := modified_blocks s + 1;
         modified_chars := modified_chars s + length (text2 b) |}
  | StEqual => s
  end.

Definition _calculate_summary (all_change_blocks : list change_block) : summary :=
  if negb (truthy all_change_blocks) then _get_default_summary
  else fold_left summary_step all_change_blocks _get_default_summary.

(** *** compare *)

(** The fields [compare] writes.  [calls] is no field of the class: it
    lists, in order, the chunk pairs that were handed to
    [_call_groq_change_blocks], each with the index of the pair. *)
Record state := {
  success : bool;
  error_message : option str;
  is_identical_raw : bool;
  text1_raw : option str;
  text2_raw : option str;
  all_change_blocks : list change_block;
  rendered_html : option str;
  summary_of : summary;
  api_call_counter : nat;
  calls : list (nat * str * str)
}.

Definition reset : state :=
  {| success := false; error_message := None; is_identical_raw := false;
     text1_raw := None; text2_raw := None; all_change_blocks := [];
     rendered_html := None; summary_of := _get_default_summary;
     api_call_counter := 0; calls := [] |}.

Definition set_error (st : state) (msg : str) : state :=
  {| success := success st; error_message := Some msg;
     is_identical_raw := is_identical_raw st;
     text1_raw := text1_raw st; text2_raw := text2_raw st;
     all_change_blocks := all_change_blocks st;
     rendered_html := rendered_html st; summary_of := summary_of st;
     api_call_counter := api_call_counter st; calls := calls st |}.

Definition set_success (st : state) (ok : bool) : state :=
  {| success := ok; error_message := error_message st;
     is_identical_raw := is_identical_raw st;
     text1_raw := text1_raw st; text2_raw := text2_raw st;
     all_change_blocks := all_change_blocks st;
     rendered_html := rendered_html st; summary_of := summary_of st;
     api_call_counter := api_call_counter st; calls := calls st |}.

Definition set_raw (st : state) (t1 t2 : option str) : state :=
  {| success := success st; error_message := error_message st;
     is_identical_raw := is_identical_raw st;
     text1_raw := t1; text2_raw := t2;
     all_change_blocks := all_change_blocks st;
     rendered_html := rendered_html st; summary_of := summary_of st;
     api_call_counter := api_call_counter st; calls := calls st |}.

Definition set_identical_raw (st : state) : state :=
  {| success := true; error_message := error_message st;
     is_identical_raw := true;
     text1_raw := text1_raw st; text2_raw := text2_raw st;
     all_change_blocks := all_change_blocks st;
     rendered_html := rendered_html st; summary_of := summary_of st;
     api_call_counter := api_call_counter st; calls := calls st |}.

(** [self.all_change_blocks.append(b)] / [.extend(bs)] *)
Definition extend_blocks (st : state) (bs : list change_block) : state :=
  {| success := success st; error_message := error_message st;
     is_identical_raw := is_identical_raw st;
     text1_raw := text1_raw st; text2_raw := text2_raw st;
     all_change_blocks := all_change_blocks st ++ bs;
     rendered_html := rendered_html st; summary_of := summary_of st;
     api_call_counter := api_call_counter st; calls := calls st |}.

(** [self.api_call_counter += 1], and the call noted in [calls]. *)
Definition count_call (st : state) (i : nat) (chunk1 chunk2 : str) : state :=
  {| success := success st; error_message := error_message st;
     is_identical_raw := is_identical_raw st;
     text1_raw := text1_raw st; text2_raw := text2_raw st;
     all_change_blocks := all_change_blocks st;
     rendered_html := rendered_html st; summary_of := summary_of st;
     api_call_counter := api_call_counter st + 1;
     calls := calls st ++ [(i, chunk1, chunk2)] |}.

(** [self.summary = ...], at the end of [_calculate_summary]. *)
Definition set_summary (st : state) (s : summary) : state :=
  {| success := success st; error_message := error_message st;
     is_identical_raw := is_identical_raw st;
     text1_raw := text1_raw st; text2_raw := text2_raw st;
     all_change_blocks := all_change_blocks st;
     rendered_html := rendered_html st; summary_of := s;
     api_call_counter := api_call_counter st; calls := calls st |}.

(** [self.rendered_html = ...] and [self.success = True]. *)
Definition finalize (st : state) (html : str) : state :=
  {| success := true; error_message := error_message st;
     is_identical_raw := is_identical_raw st;
     text1_raw := text1_raw st; text2_raw := text2_raw st;
     all_change_blocks := all_change_blocks st;
     rendered_html := Some html;
     summary_of := summary_of st;
     api_call_counter := api_call_counter st; calls := calls st |}.

(** The two calls of the last [try] of [compare].  Neither raises on
    blocks that were built by the loop or went through the validation, so
    each is a [Ret]; the [except] clause behind them stands in
    [compare_chunks] all the same. *)
Definition calculated (all_change_blocks : list change_block) : exc summary :=
  Ret (_calculate_summary all_change_blocks).

Definition rendered (all_change_blocks : list change_block) : exc str :=
  Ret (_render_change_blocks_html all_change_blocks).

(** The clause [except Exception as finalization_error]. *)
Definition on_finalization_error (st : state) (finalization_error : str)
  : bool * state :=
  let st := set_error st (lit "Error during result finalization: "
                          ++ finalization_error) in
  let st := set_success st false in
  (success st, st).

(** The clause [except Exception as main_error] of the outer [try]. *)
Definition on_main_error (st : state) (main_error : exception) : bool * state :=
  let st :=
    if negb (truthy_opt (error_message st))
    then set_error st (lit "Unexpected error during comparison: "
                       ++ exc_type main_error ++ lit " - " ++ exc_str main_error)
    else st in
  let st := set_success st false in
  (success st, st).

(** [chunks[i] if i < len(chunks) else ""] *)
Definition chunk_at (chunks : list str) (i : nat) : str :=
  if i <? length chunks then default [] (chunks !! i) else [].

Section compare.

Variable token : Type.
Variable encode : str → exc (list token).
Variable decode : list token → str.
Variable max_chunk_tokens : Z.
Variable json_loads : str → exc json.
Variable str_json : option json → str.
Variable str_nat : nat → str.

(** The language model behind the client: what call number [n] (counted
    from 1) comes to for the prompt made of the two chunks. *)
Variable api : nat → str → str → api_result.

(** [_call_groq_change_blocks]: the counter goes up, then the call is made.
    The method returns the blocks, or [None] with the message of the failure
    in [error_message] ([inr]), or an exception leaves it ([inl]). *)
Definition _call_groq_change_blocks (st : state) (i : nat) (original_chunk new_chunk : str)
  : state * (exception + option (list change_block)) :=
  let st := count_call st i original_chunk new_chunk in
  match call_result json_loads str_json str_nat
          (api (api_call_counter st) original_chunk new_chunk) with
  | Blocks validated_blocks => (st, inr (Some validated_blocks))
  | Failed msg => (set_error st msg, inr None)
  | Escapes e => (st, inl e)
  end.

(** What happens to one chunk pair: the loop goes on ([inr]) or is left
    ([inl]), either because [compare] returns [self.success] (no exception
    beside the fields) or because an exception is on its way to the outer
    [except] clause of [compare]. *)
Definition process_pair (chunks1 chunks2 : list str) (st : state) (i : nat)
  : state * option exception + state :=
  let chunk1 := chunk_at chunks1 i in
  let chunk2 := chunk_at chunks2 i in
  if negb (truthy (strip chunk1)) && negb (truthy (strip chunk2)) then inr st
  else if negb (truthy (strip chunk1)) && truthy (strip chunk2)
  then inr (extend_blocks st
              [{| block_status := StAdded; text1 := []; text2 := chunk2 |}])
  else if truthy (strip chunk1) && negb (truthy (strip chunk2))
  then inr (extend_blocks st
              [{| block_status := StDeleted; text1 := chunk1; text2 := [] |}])
  else if bool_decide (chunk1 = chunk2)
  then inr (extend_blocks st
              [{| block_status := StEqual; text1 := chunk1; text2 := chunk2 |}])
  else
    match _call_groq_change_blocks st i chunk1 chunk2 with
    | (st, inl main_error) => inl (st, Some main_error)
    | (st, inr None) => inl (set_success st false, None)
    | (st, inr (Some change_blocks_result)) =>
        inr (extend_blocks st change_blocks_result)
    end.

(** The loop [for i in range(num_chunks_to_process)]. *)
Fixpoint process_pairs (chunks1 chunks2 : list str) (st : state) (range : list nat)
  : state * option exception + state :=
  match range with
  | [] => inr st
  | i :: range' =>
      match process_pair chunks1 chunks2 st i with
      | inl out => inl out
      | inr st => process_pairs chunks1 chunks2 st range'
      end
  end.

(** [compare] from the chunks on, with the outer [except] clause for what
    is raised there: the returned boolean and the fields. *)
Definition compare_chunks (st : state) (chunks1 chunks2 : list str) : bool * state :=
  if negb (truthy chunks1) && negb (truthy chunks2)
  then (true, set_success st true)
  else
    let num_chunks_to_process := max (length chunks1) (length chunks2) in
    match process_pairs chunks1 chunks2 st (seq 0 num_chunks_to_process) with
    | inl (st, None) => (success st, st)
    | inl (st, Some main_error) => on_main_error st main_error
    | inr st =>
        match calculated (all_change_blocks st) with
        | Raise finalization_error => on_finalization_error st finalization_error
        | Ret s =>
            let st := set_summary st s in
            match rendered (all_change_blocks st) with
            | Raise finalization_error =>
                on_finalization_error st finalization_error
            | Ret html => (true, finalize st html)
            end
        end
    end.

(** [compare] on the two extraction results [(text, error)]. *)
Definition compare (x1 x2 : option str * option str) : bool * state :=
  let st := reset in
  let '(t1, err1) := x1 in
  let st := set_raw st t1 None in
  if truthy_opt err1
  then (false, set_error st (lit "Error in Document 1: " ++ default [] err1))
  else
    let '(t2, err2) := x2 in
    let st := set_raw st t1 t2 in
    if truthy_opt err2
    then (false, set_error st (lit "Error in Document 2: " ++ default [] err2))
    else
      match t1, t2 with
      | Some text1, Some text2 =>
          if bool_decide (text1 = text2) then (true, set_identical_raw st)
          else if negb (truthy (strip text1)) && negb (truthy (strip text2))
          then (true, set_success st true)
          else
            let chunking :=
              chunks1 ← _chunk_text_by_tokens_exc token encode decode
                          max_chunk_tokens text1;
              chunks2 ← _chunk_text_by_tokens_exc token encode decode
                          max_chunk_tokens text2;
              Ret (chunks1, chunks2) in
            match chunking with
            | Raise e => (false, set_error st (lit "Error during text chunking: " ++ e))
            | Ret (chunks1, chunks2) => compare_chunks st chunks1 chunks2
            end
      | _, _ =>
          (false, set_error st (lit "Text extraction failed unexpectedly after checks."))
      end.

End compare.

End Semantic.

(** ** utils.py: extract_text_from_file *)

Module Utils.
Import Re.

(** The content of an uploaded file; [bytes.decode('latin-1')] reads every
    byte as the character with its code. *)
Abbreviation bytes := (list ascii).

(** [uploaded_file.getvalue()]: the bytes, or the exception it raises, with
    the name of its type. *)
Inductive read_result :=
| ReadRaises (type_name e : str)
| ReadBytes (file_bytes : bytes).

(** An uploaded file: [name] is [getattr(uploaded_file, 'name', 'unknown')]. *)
Record uploaded := {
  name : str;
  getvalue : read_result
}.

(** [needle in hay] *)
Fixpoint str_in (needle hay : str) : bool :=
  startswith needle hay
  || match hay with
     | [] => false
     | _ :: hay' => str_in needle hay'
     end.

(** [s.replace('\r\n', '\n')] *)
Fixpoint replace_crlf (s : str) : str :=
  match s with
  | [] => []
  | c :: s' =>
      match s' with
      | d :: s'' =>
          if bool_decide (c = CR) && bool_decide (d = LF)
          then LF :: replace_crlf s''
          else c :: replace_crlf s'
      | [] => [c]
      end
  end.

(** [\n\s*\n+]: a newline, then the run of whitespace behind it up to its
    last newline; the newlines the last part of the pattern can take are
    all in that run. *)
Definition blank_lines : pattern := λ _ s,
  match s with
  | c :: s' =>
      if bool_decide (c = LF)
      then S <$> after_last_newline (take (span_len isspace s') s')
      else None
  | [] => None
  end.

(** The pattern of a run of spaces and a newline: the whole run of spaces,
    when a newline stands behind it. *)
Definition spaces_newline : pattern := λ _ s,
  let n := span_len (λ c, bool_decide (c = SP)) s in
  match n with
  | O => None
  | S _ =>
      match drop n s with
      | c :: _ => if bool_decide (c = LF) then Some (S n) else None
      | [] => None
      end
  end.

(** The line ends of a text file made newlines. *)
Definition unify_newlines (full_text : str) : str :=
  replace_char CR [LF] (replace_crlf full_text).

(** The text of the pages of a PDF: the pages that are not empty, joined
    by newlines, with runs of blank lines made one and the spaces in front
    of a newline taken away. *)
Definition pdf_full_text (page_texts : list str) : str :=
  let full_text := join [LF] (filter (λ t, truthy t = true) page_texts) in
  let full_text := sub blank_lines [LF; LF] full_text in
  sub spaces_newline [LF] full_text.

Section extraction.

(** [file_bytes.decode('utf-8')] and [file_bytes.decode('latin-1')]:
    [None] stands for a [UnicodeDecodeError]. *)
Variable decode_utf8 decode_latin1 : bytes → option str.

(** [fitz.open(stream=file_bytes, filetype="pdf")] and the text of every
    page; [Raise] carries [str(pdf_e)]. *)
Variable pdf_page_texts : bytes → exc (list str).

(** The last lines of the [try] block. *)
Definition finish (file_name : str) (full_text error_message : option str)
  : option str * option str :=
  match full_text with
  | Some full_text => (Some (strip full_text), None)
  | None =>
      let final_error :=
        if truthy_opt error_message then default [] error_message
        else lit "Could not extract text from '" ++ file_name ++ lit "'." in
      (None, Some final_error)
  end.

Definition unsupported (file_ext : str) : str :=
  lit "Unsupported file type: '" ++ file_ext ++ lit "'. Please upload PDF or TXT.".

Definition extract_text_from_file (uploaded_file : option uploaded)
  : option str * option str :=
  match uploaded_file with
  | None => (None, Some (lit "Internal error: No file object provided."))
  | Some f =>
      let file_name := name f in
      let file_ext :=
        if bool_decide ("."%char ∈ file_name)
        then List.last (split_char "." (lower file_name)) []
        else [] in
      match getvalue f with
      | ReadRaises type_name e =>
          (None,
           Some (lit "Error processing '" ++ file_name ++ lit "': " ++ type_name
                 ++ lit " - " ++ e))
      | ReadBytes file_bytes =>
          if bool_decide (file_ext = lit "txt") then
            match decode_utf8 file_bytes with
            | Some full_text => finish file_name (Some (unify_newlines full_text)) None
            | None =>
                match decode_latin1 file_bytes with
                | Some full_text =>
                    finish file_name (Some (unify_newlines full_text)) None
                | None =>
                    (None, Some (lit "Text encoding error (not UTF-8 or Latin-1)."))
                end
            end
          else if bool_decide (file_ext = lit "pdf") then
            match pdf_page_texts file_bytes with
            | Ret page_texts => finish file_name (Some (pdf_full_text page_texts)) None
            | Raise pdf_e =>
                if str_in (lit "cannot open broken document") pdf_e
                then finish file_name None (Some (lit "Corrupted or invalid PDF."))
                else if str_in (lit "password") (lower pdf_e)
                then finish file_name None
                       (Some (lit "Password-protected PDF (not supported)."))
                else if str_in (lit "No objects found") pdf_e
                        || str_in (lit "is empty") pdf_e
                then finish file_name (Some []) None
                else finish file_name None (Some (lit "PDF processing error: " ++ pdf_e))
            end
          else
            match pdf_page_texts file_bytes with
            | Ret page_texts =>
                let full_text := pdf_full_text page_texts in
                if negb (truthy (strip full_text))
                then finish file_name None (Some (unsupported file_ext))
                else finish file_name (Some full_text) None
            | Raise _ => finish file_name None (Some (unsupported file_ext))
            end
      end
  end.

End extraction.

End Utils.

(** ** Python strings: blank texts and stripping *)

Module PyFacts.

(** A text of whitespace only. *)
Definition blank (s : str) : bool := forallb isspace s.

Lemma blank_app s t : blank (s ++ t) = blank s && blank t.
Proof. apply forallb_app. Qed.

Lemma lstrip_blank s : blank s = true → lstrip s = [].
Proof.
  induction s as [|c s IH]; simpl; [done|].
  intros [Hc Hs]%andb_true_iff. rewrite Hc. auto.
Qed.

(** What [lstrip] leaves begins with a character that is no whitespace. *)
Lemma lstrip_head s c t : lstrip s = c :: t → isspace c = false.
Proof.
  induction s as [|d s IH]; simpl; [done|].
  destruct (isspace d) eqn:E; [done|]. by intros [= <- _].
Qed.

Lemma lstrip_not_blank s : blank s = false → lstrip s ≠ [].
Proof.
  induction s as [|c s IH]; simpl; [done|].
  destruct (isspace c); simpl; [done|]. by intros _.
Qed.

(** [lstrip] takes a blank text from the front. *)
Lemma lstrip_split s : ∃ ws, s = ws ++ lstrip s ∧ blank ws = true.
Proof.
  induction s as [|c s (ws & Hs & Hws)]; simpl; [by exists []|].
  destruct (isspace c) eqn:E.
  - exists (c :: ws). simpl. rewrite E, Hws. by rewrite <- Hs.
  - by exists [].
Qed.

Lemma blank_rev s : blank (rev s) = blank s.
Proof.
  induction s as [|c s IH]; [done|]. simpl.
  rewrite blank_app, IH. simpl. rewrite andb_true_r. apply andb_comm.
Qed.

(** [rstrip] takes a blank text from the back. *)
Lemma rstrip_split s : ∃ ws, s = rstrip s ++ ws ∧ blank ws = true.
Proof.
  unfold rstrip. destruct (lstrip_split (rev s)) as (ws & Hs & Hws).
  exists (rev ws). split; [|by rewrite blank_rev].
  rewrite <- rev_app_distr, <- Hs. by rewrite rev_involutive.
Qed.

(** [s.strip()] is empty exactly when [s] is blank. *)
Lemma strip_blank s : truthy (strip s) = negb (blank s).
Proof.
  unfold strip. destruct (blank s) eqn:Hb.
  - by rewrite (lstrip_blank s Hb).
  - destruct (lstrip s) as [|c t] eqn:Hl; [by apply lstrip_not_blank in Hl|].
    simpl. unfold rstrip.
    destruct (lstrip (rev (c :: t))) as [|d u] eqn:Hr; [|by destruct (rev (d :: u)) eqn:?;
      [apply (f_equal (@length _)) in Heql; rewrite length_rev in Heql|]].
    exfalso. apply lstrip_head in Hl.
    assert (blank (rev (c :: t)) = false) as Hnb.
    { rewrite blank_rev. simpl. by rewrite Hl. }
    by apply lstrip_not_blank in Hnb.
Qed.

Lemma strip_nil_blank s : strip s = [] ↔ blank s = true.
Proof.
  pose proof (strip_blank s) as H. destruct (strip s), (blank s); naive_solver.
Qed.

(** Escaping keeps a text blank or not blank. *)
Lemma blank_html_escape s : blank (html_escape s) = blank s.
Proof.
  induction s as [|c s IH]; [done|].
  change (html_escape (c :: s)) with (escape_char c ++ html_escape s).
  rewrite blank_app, IH. simpl. f_equal.
  unfold escape_char. repeat case_bool_decide; subst; try done.
  simpl. by rewrite andb_true_r.
Qed.

(** *** Character classes *)

(** A line boundary is whitespace, and it is not the space. *)
Lemma linebreak_isspace c : is_linebreak c = true → isspace c = true ∧ c ≠ SP.
Proof.
  destruct c as [[] [] [] [] [] [] [] []]; vm_compute;
    (discriminate || (intros _; split; [reflexivity|discriminate])).
Qed.

(** [str.lower] keeps whitespace, punctuation and the hyphen what they are,
    and a lowered character stays as it is. *)
Lemma lower_char_facts c :
  isspace (lower_char c) = isspace c ∧
  lower_char (lower_char c) = lower_char c ∧
  is_punctuation (lower_char c) = is_punctuation c ∧
  (lower_char c = "-"%char → c = "-"%char).
Proof.
  destruct c as [[] [] [] [] [] [] [] []]; vm_compute; split_and!;
    (reflexivity || discriminate || tauto).
Qed.

(** *** Stripping twice *)

(** Empty, or beginning with a character that is no whitespace. *)
Definition head_solid (s : str) : bool :=
  match s with c :: _ => negb (isspace c) | [] => true end.

Lemma lstrip_solid s : head_solid (lstrip s) = true.
Proof.
  destruct (lstrip s) as [|c t] eqn:E; [done|].
  simpl. by rewrite (lstrip_head _ _ _ E).
Qed.

Lemma lstrip_id s : head_solid s = true → lstrip s = s.
Proof. destruct s as [|c s]; simpl; [done|]. by destruct (isspace c). Qed.

Lemma rstrip_rstrip s : rstrip (rstrip s) = rstrip s.
Proof.
  unfold rstrip. rewrite rev_involutive. f_equal. apply lstrip_id, lstrip_solid.
Qed.

Lemma rstrip_solid s : head_solid s = true → head_solid (rstrip s) = true.
Proof.
  intros Hs. destruct (rstrip_split s) as (ws & Heq & _).
  destruct (rstrip s) as [|c t]; [done|]. rewrite Heq in Hs. by simpl in *.
Qed.

Lemma strip_strip s : strip (strip s) = strip s.
Proof.
  unfold strip. rewrite (lstrip_id (rstrip (lstrip s))).
  - apply rstrip_rstrip.
  - apply rstrip_solid, lstrip_solid.
Qed.

(** What [strip] leaves ends with a character that is no whitespace. *)
Lemma strip_last s c : last (strip s) = Some c → isspace c = false.
Proof.
  unfold strip, rstrip. intros Hl.
  destruct (lstrip (rev (lstrip s))) as [|d t] eqn:E; [done|].
  apply lstrip_head in E. simpl in Hl. rewrite last_snoc in Hl. by simplify_eq.
Qed.

(** [strip] takes blank texts from both ends. *)
Lemma strip_split s : ∃ ws1 ws2, s = ws1 ++ strip s ++ ws2 ∧ blank ws1 = true ∧ blank ws2 = true.
Proof.
  destruct (lstrip_split s) as (ws1 & H1 & Hb1).
  destruct (rstrip_split (lstrip s)) as (ws2 & H2 & Hb2).
  exists ws1, ws2. split; [|done]. unfold strip. by rewrite <- H2.
Qed.

Lemma Forall_strip (Q : ascii → Prop) s : Forall Q s → Forall Q (strip s).
Proof.
  destruct (strip_split s) as (ws1 & ws2 & Heq & _). rewrite Heq at 1.
  rewrite !Forall_app. tauto.
Qed.

(** *** Runs of whitespace made one space *)

(** Every run of whitespace replaced by one space; [in_ws] tells that the
    character before was whitespace. *)
Fixpoint squash (in_ws : bool) (s : str) : str :=
  match s with
  | [] => []
  | c :: s' =>
      if isspace c then (if in_ws then squash true s' else SP :: squash true s')
      else c :: squash false s'
  end.

(** All whitespace is single spaces. *)
Fixpoint squeezed (s : str) : bool :=
  match s with
  | [] => true
  | c :: s' =>
      (if isspace c then bool_decide (c = SP) && head_solid s' else true)
      && squeezed s'
  end.

Lemma squash_true_drop s : squash true s = squash false (drop (span_len isspace s) s).
Proof.
  induction s as [|c s IH]; [done|]. simpl.
  destruct (isspace c) eqn:E; simpl; [done|]. by rewrite E.
Qed.

Lemma squash_true_solid s : head_solid (squash true s) = true.
Proof.
  induction s as [|c s IH]; [done|]. simpl.
  destruct (isspace c) eqn:E; [done|]. simpl. by rewrite E.
Qed.

Lemma squash_squeezed b s : squeezed (squash b s) = true.
Proof.
  revert b. induction s as [|c s IH]; intros b; [done|]. simpl.
  destruct (isspace c) eqn:E.
  - destruct b; [done|]. simpl. by rewrite squash_true_solid, IH.
  - simpl. by rewrite E, IH.
Qed.

Lemma squash_id s : squeezed s = true → squash false s = s.
Proof.
  induction s as [|c s IH]; [done|]. simpl.
  intros [Hc Hs]%andb_true_iff. specialize (IH Hs).
  destruct (isspace c) eqn:E; [|by rewrite IH].
  apply andb_true_iff in Hc as [->%bool_decide_eq_true Hh]. f_equal.
  destruct s as [|d s]; [done|]. simpl in Hh, IH |- *.
  apply negb_true_iff in Hh. by rewrite Hh in IH |- *.
Qed.

Lemma squeezed_app_r s t : squeezed (s ++ t) = true → squeezed t = true.
Proof.
  induction s as [|c s IH]; [done|]. simpl. by intros [_ ?]%andb_true_iff; auto.
Qed.

Lemma squeezed_app_l s t : squeezed (s ++ t) = true → squeezed s = true.
Proof.
  induction s as [|c s IH]; [done|]. simpl.
  intros [Hc Hs]%andb_true_iff. rewrite (IH Hs), andb_true_r.
  destruct (isspace c); [|done].
  apply andb_true_iff in Hc as [-> Hh]. by destruct s.
Qed.

Lemma strip_squeezed s : squeezed s = true → squeezed (strip s) = true.
Proof.
  destruct (strip_split s) as (ws1 & ws2 & Heq & _). rewrite Heq at 1.
  by intros ?%squeezed_app_r%squeezed_app_l.
Qed.

(** The whitespace of a squeezed text is spaces. *)
Lemma squeezed_spaces s : squeezed s = true → Forall (λ c, isspace c = true → c = SP) s.
Proof.
  induction s as [|c s IH]; [done|]. simpl.
  intros [Hc Hs]%andb_true_iff. constructor; [|auto].
  intros E. rewrite E in Hc. by apply andb_true_iff in Hc as [?%bool_decide_eq_true _].
Qed.

(** [squash] brings in nothing but the space. *)
Lemma Forall_squash (Q : ascii → Prop) b s : Q SP → Forall Q s → Forall Q (squash b s).
Proof.
  intros Hsp Hs. revert b. induction Hs as [|c s Hc _ IH]; intros b; [done|].
  simpl. destruct (isspace c); [destruct b|]; auto.
Qed.

(** [squash] leaves the characters that are no whitespace as they are. *)
Lemma squash_solid_chars b s :
  filter (λ c, isspace c = false) (squash b s) = filter (λ c, isspace c = false) s.
Proof.
  revert b. induction s as [|c s IH]; intros b; [done|]. simpl.
  destruct (isspace c) eqn:E.
  - rewrite (filter_cons_False _ c) by (by rewrite E).
    destruct b; [done|]. by rewrite filter_cons_False.
  - rewrite !filter_cons_True by done. by rewrite IH.
Qed.

End PyFacts.
(** * Properties of the embedding *)

(** ** difflib: the opcodes partition both sequences *)

Module DifflibFacts.
Import Difflib.

Section facts.
Context `{Countable A}.
Implicit Types a b : list A.

(** [a[i:i+k]] and [b[j:j+k]] exist and agree element by element. *)
Definition is_match a b (i j k : nat) : Prop :=
  ∀ t, t < k → ∃ x, a !! (i + t) = Some x ∧ b !! (j + t) = Some x.

(** What a row of [j2len] records while [find_longest_match] is about to
    read [a[i]]: matches that end right before [a[i]] and at [b[j]]. *)
Definition row_ok a b (alo blo bhi i : nat) (m : gmap nat nat) : Prop :=
  ∀ j k, m !! j = Some k →
    1 ≤ k ∧ alo + k ≤ i ∧ blo + k ≤ j + 1 ∧ j < bhi ∧
    is_match a b (i - k) (j + 1 - k) k.

Definition best_ok a b (alo ahi blo bhi : nat) (m : block) : Prop :=
  let '(i, j, k) := m in
  alo ≤ i ∧ i + k ≤ ahi ∧ blo ≤ j ∧ j + k ≤ bhi ∧ is_match a b i j k.

Definition b2j_sound (b2j : gmap A (list nat)) b : Prop :=
  ∀ x js j, b2j !! x = Some js → j ∈ js → b !! j = Some x.

Lemma chain_b_from_sound (pre b : list A) (m : gmap A (list nat)) :
  b2j_sound m (pre ++ b) →
  b2j_sound (chain_b_from (length pre) b m) (pre ++ b).
Proof.
  revert pre m. induction b as [|e b IH]; intros pre m Hm; simpl; [done|].
  replace (pre ++ e :: b) with ((pre ++ [e]) ++ b) in * by (by rewrite <- app_assoc).
  replace (S (length pre)) with (length (pre ++ [e]))
    by (rewrite length_app; simpl; lia).
  apply IH. intros x js j Hl Hj.
  destruct (decide (e = x)) as [->|Hne].
  - rewrite lookup_insert_eq in Hl. injection Hl as <-.
    apply elem_of_app in Hj as [Hj|Hj].
    + destruct (m !! x) as [js0|] eqn:E; simpl in Hj.
      * by eapply Hm.
      * by apply elem_of_nil in Hj.
    + apply list_elem_of_singleton in Hj as ->.
      rewrite <- app_assoc. simpl. by apply list_lookup_middle.
  - rewrite lookup_insert_ne in Hl by done. by eapply Hm.
Qed.

Lemma chain_b_sound b : b2j_sound (chain_b b) b.
Proof.
  apply (chain_b_from_sound [] b ∅). intros x js j Hl. by rewrite lookup_empty in Hl.
Qed.

Lemma b2j_get_sound b2j a b i j :
  b2j_sound b2j b → j ∈ b2j_get b2j a i →
  ∃ x, a !! i = Some x ∧ b !! j = Some x.
Proof.
  intros Hs. unfold b2j_get. destruct (a !! i) as [x|]; [|by intros ?%elem_of_nil].
  destruct (b2j !! x) as [js|] eqn:E; simpl; [|by intros ?%elem_of_nil].
  intros Hj. exists x. split; [done|]. by eapply Hs.
Qed.

Local Ltac by_lookup :=
  repeat match goal with
  | |- _ ∧ _ => split
  | H : ?l !! ?j = Some ?x |- ?l !! ?i = Some ?x =>
      replace i with j by lia; exact H
  end.

Lemma is_match_snoc a b i j k x :
  is_match a b i j k → a !! (i + k) = Some x → b !! (j + k) = Some x →
  is_match a b i j (S k).
Proof.
  intros Hm Ha Hb t Ht. destruct (decide (t = k)) as [->|]; [by exists x|].
  apply Hm. lia.
Qed.

Lemma is_match_cons a b i j k x :
  is_match a b (S i) (S j) k → a !! i = Some x → b !! j = Some x →
  is_match a b i j (S k).
Proof.
  intros Hm Ha Hb [|t] Ht.
  - exists x. by rewrite !Nat.add_0_r.
  - destruct (Hm t) as (y & ? & ?); [lia|]. exists y.
    by rewrite <- !Nat.add_succ_comm.
Qed.

Lemma flm_inner_ok a b alo ahi blo bhi i j2len js newj2len best :
  alo ≤ i → i < ahi →
  (∀ j, j ∈ js → ∃ x, a !! i = Some x ∧ b !! j = Some x) →
  row_ok a b alo blo bhi i j2len →
  row_ok a b alo blo bhi (S i) newj2len →
  best_ok a b alo ahi blo bhi best →
  row_ok a b alo blo bhi (S i) (flm_inner blo bhi i j2len js newj2len best).1 ∧
  best_ok a b alo ahi blo bhi (flm_inner blo bhi i j2len js newj2len best).2.
Proof.
  intros Hlo Hhi. revert newj2len best.
  induction js as [|j js IH]; intros newj2len best Hjs Hrow Hnew Hbest; simpl; [done|].
  assert (Hjs' : ∀ j, j ∈ js → ∃ x, a !! i = Some x ∧ b !! j = Some x).
  { intros j' Hj'. apply Hjs. by apply list_elem_of_further. }
  destruct (Nat.ltb_spec j blo) as [Hjlo|Hjlo]; [by apply IH|].
  destruct (Nat.leb_spec bhi j) as [Hjhi|Hjhi]; [done|].
  destruct (Hjs j) as (x & Hax & Hbx); [apply list_elem_of_here|].
  set (k := j2len_get_pred j2len j + 1).
  assert (Hk : 1 ≤ k ∧ alo + k ≤ S i ∧ blo + k ≤ j + 1 ∧
               is_match a b (S i - k) (j + 1 - k) k).
  { subst k. destruct j as [|j']; unfold j2len_get_pred.
    - repeat split; [lia..|]. intros t Ht. exists x. by_lookup.
    - destruct (j2len !! j') as [k0|] eqn:E; simpl default.
      + destruct (Hrow j' k0 E) as (? & ? & ? & ? & Hm).
        repeat split; [lia..|].
        replace (S i - (k0 + 1)) with (i - k0) by lia.
        replace (S j' + 1 - (k0 + 1)) with (j' + 1 - k0) by lia.
        replace (k0 + 1) with (S k0) by lia.
        apply (is_match_snoc _ _ _ _ _ x); [done| |]; by_lookup.
      + repeat split; [lia..|]. intros t Ht. exists x. by_lookup. }
  destruct Hk as (Hk1 & Hk2 & Hk3 & Hkm).
  destruct best as [[bi bj] bk]. apply IH; [done|done| |].
  - intros j0 k0. rewrite lookup_insert_Some.
    intros [[<- <-]|[_ Hl]]; [|by apply Hnew]. by repeat split; try lia.
  - destruct (Nat.ltb_spec bk k); [|done].
    replace (i + 1 - k) with (S i - k) by lia.
    red. by repeat split; try lia.
Qed.

Lemma flm_outer_ok b2j a b alo ahi blo bhi n i j2len best :
  b2j_sound b2j b → alo ≤ i → i + n ≤ ahi →
  row_ok a b alo blo bhi i j2len →
  best_ok a b alo ahi blo bhi best →
  best_ok a b alo ahi blo bhi (flm_outer b2j a blo bhi (seq i n) j2len best).
Proof.
  intros Hs. revert i j2len best.
  induction n as [|n IH]; intros i j2len best Hlo Hhi Hrow Hbest; simpl; [done|].
  pose proof (flm_inner_ok a b alo ahi blo bhi i j2len (b2j_get b2j a i) ∅ best)
    as Hin.
  destruct (flm_inner blo bhi i j2len (b2j_get b2j a i) ∅ best) as [new best'].
  destruct Hin as [Hnew Hbest']; [lia|lia| |done| |done|].
  - intros j Hj. by eapply b2j_get_sound.
  - intros j k Hl. by rewrite lookup_empty in Hl.
  - apply IH; [lia|lia|done|done].
Qed.

Lemma extend_left_ok a b alo ahi blo bhi besti bestj bestsize :
  ahi ≤ length a →
  best_ok a b alo ahi blo bhi (besti, bestj, bestsize) →
  best_ok a b alo ahi blo bhi (extend_left a b alo blo besti bestj bestsize).
Proof.
  intros Ha. revert bestj bestsize.
  induction besti as [|i' IH]; intros bestj bestsize Hb; simpl; [done|].
  destruct bestj as [|j']; [done|].
  destruct (Nat.ltb_spec alo (S i')); simpl; [|done].
  destruct (Nat.ltb_spec blo (S j')); simpl; [|done].
  case_bool_decide as Heq; [|done].
  destruct Hb as (? & ? & ? & ? & Hm). apply IH.
  destruct (lookup_lt_is_Some_2 a i') as [x Hx]; [lia|].
  repeat split; [lia..|]. apply (is_match_cons _ _ _ _ _ x); [done|done|]. by rewrite <- Heq.
Qed.

Lemma extend_right_ok a b alo ahi blo bhi besti bestj n bestsize :
  ahi ≤ length a →
  best_ok a b alo ahi blo bhi (besti, bestj, bestsize) →
  best_ok a b alo ahi blo bhi
    (besti, bestj, extend_right a b ahi bhi besti bestj n bestsize).
Proof.
  intros Ha. revert bestsize.
  induction n as [|n IH]; intros bestsize Hb; simpl; [done|].
  destruct (Nat.ltb_spec (besti + bestsize) ahi); simpl; [|done].
  destruct (Nat.ltb_spec (bestj + bestsize) bhi); simpl; [|done].
  case_bool_decide as Heq; [|done].
  destruct Hb as (? & ? & ? & ? & Hm). apply IH.
  destruct (lookup_lt_is_Some_2 a (besti + bestsize)) as [x Hx]; [lia|].
  repeat split; [lia..|]. apply (is_match_snoc _ _ _ _ _ x); [done|done|]. by rewrite <- Heq.
Qed.

(** [find_longest_match] returns a block of the range it was given, and the
    block is a match. *)
Lemma find_longest_match_ok a b alo ahi blo bhi :
  alo ≤ ahi → ahi ≤ length a → blo ≤ bhi →
  best_ok a b alo ahi blo bhi (find_longest_match (chain_b b) a b alo ahi blo bhi).
Proof.
  intros Hlo Ha Hb. unfold find_longest_match.
  pose proof (flm_outer_ok (chain_b b) a b alo ahi blo bhi (ahi - alo) alo ∅
                (alo, blo, 0) (chain_b_sound b)) as H1.
  destruct (flm_outer _ a blo bhi _ ∅ _) as [[i j] k].
  assert (best_ok a b alo ahi blo bhi (i, j, k)) as H2.
  { apply H1; [lia|lia| |].
    - intros j0 k0 Hl. by rewrite lookup_empty in Hl.
    - repeat split; [lia..|]. intros t Ht. lia. }
  pose proof (extend_left_ok a b alo ahi blo bhi i j k Ha H2) as H3.
  destruct (extend_left a b alo blo i j k) as [[i' j'] k'].
  by apply extend_right_ok.
Qed.

(** *** The work list of [get_matching_blocks] *)

Definition rect_of (m : block) : range4 :=
  let '(i, j, k) := m in (i, i + k, j, j + k).

(** [r1] lies before [r2] in both sequences. *)
Definition before (r1 r2 : range4) : Prop :=
  let '(_, ahi1, _, bhi1) := r1 in
  let '(alo2, _, blo2, _) := r2 in
  ahi1 ≤ alo2 ∧ bhi1 ≤ blo2.

Definition apart (r1 r2 : range4) : Prop := before r1 r2 ∨ before r2 r1.

Definition inside (r R : range4) : Prop :=
  let '(alo, ahi, blo, bhi) := r in
  let '(Alo, Ahi, Blo, Bhi) := R in
  Alo ≤ alo ∧ ahi ≤ Ahi ∧ Blo ≤ blo ∧ bhi ≤ Bhi.

Definition range_ok a b (r : range4) : Prop :=
  let '(alo, ahi, blo, bhi) := r in
  alo ≤ ahi ∧ ahi ≤ length a ∧ blo ≤ bhi ∧ bhi ≤ length b.

Definition block_ok a b (m : block) : Prop :=
  let '(i, j, k) := m in
  0 < k ∧ i + k ≤ length a ∧ j + k ≤ length b ∧ is_match a b i j k.

#[local] Instance apart_sym : Symmetric apart.
Proof. intros x y [?|?]; [by right|by left]. Qed.

Lemma inside_apart X R Y : inside X R → apart R Y → apart X Y.
Proof.
  destruct X as [[[??]?]?], R as [[[??]?]?], Y as [[[??]?]?].
  unfold inside, apart, before. lia.
Qed.

Lemma FOP_perm {B} (R : relation B) `{!Symmetric R} (l l' : list B) :
  l ≡ₚ l' → ForallOrdPairs R l → ForallOrdPairs R l'.
Proof.
  induction 1 as [|x l l' Hp IH|x y l|l l' l'' _ IH1 _ IH2]; intros Hl.
  - done.
  - inversion Hl; subst. constructor; [by rewrite <- Hp|by apply IH].
  - inversion Hl as [|? ? Hy Hl']; subst. inversion Hl' as [|? ? Hx Hl'']; subst.
    inversion Hy; subst. constructor; [constructor; [done|done]|by constructor].
  - by apply IH2, IH1.
Qed.

Lemma FOP_app_r {B} (R : relation B) (l1 l2 : list B) :
  ForallOrdPairs R (l1 ++ l2) → ForallOrdPairs R l2.
Proof. induction l1; simpl; [done|]. inversion 1; subst. auto. Qed.

Definition loop_inv a b (queue : list range4) (blocks : list block) : Prop :=
  Forall (range_ok a b) queue ∧ Forall (block_ok a b) blocks ∧
  ForallOrdPairs apart (queue ++ (rect_of <$> blocks)).

Lemma matching_loop_inv a b fuel queue blocks :
  loop_inv a b queue blocks →
  loop_inv a b [] (matching_loop (chain_b b) a b fuel queue blocks).
Proof.
  revert queue blocks. induction fuel as [|fuel IH]; intros queue blocks Hinv; simpl.
  { destruct Hinv as (_ & ? & ?%FOP_app_r). by split_and!. }
  destruct queue as [|[[[alo ahi] blo] bhi] queue].
  { done. }
  destruct Hinv as (Hq & Hb & Hfop).
  apply Forall_cons in Hq as [(? & ? & ? & ?) Hq].
  pose proof (find_longest_match_ok a b alo ahi blo bhi) as Hflm.
  destruct (find_longest_match (chain_b b) a b alo ahi blo bhi) as [[i j] k].
  destruct Hflm as (? & ? & ? & ? & Hm); [done..|].
  simpl in Hfop. inversion Hfop as [|? ? HR Hrest]; subst.
  destruct (Nat.eqb_spec k 0) as [->|Hk]; [by apply IH|].
  apply IH. split_and!.
  - repeat case_match; repeat (apply Forall_cons; split); try done;
      repeat match goal with H : _ && _ = true |- _ =>
        apply andb_true_iff in H as [?%Nat.ltb_lt ?%Nat.ltb_lt] end;
      red; lia.
  - apply Forall_app. split; [done|]. apply Forall_singleton. red. split_and!; [lia..|done].
  - set (rest := queue ++ (rect_of <$> blocks)) in *.
    set (R := (alo, ahi, blo, bhi)) in *.
    assert (HinM : inside (rect_of (i, j, k)) R) by (simpl; lia).
    assert (Hin1 : inside (alo, i, blo, j) R) by (simpl; lia).
    assert (Hin2 : inside (i + k, ahi, j + k, bhi) R) by (simpl; lia).
    assert (Hall : ForallOrdPairs apart
      ((i + k, ahi, j + k, bhi) :: (alo, i, blo, j) :: rect_of (i, j, k) :: rest)).
    { constructor; [|constructor; [|constructor; [|done]]].
      - repeat (apply Forall_cons; split).
        + right. simpl. lia.
        + right. simpl. lia.
        + eapply Forall_impl; [exact HR|]. intros Y. by apply inside_apart.
      - apply Forall_cons; split.
        + left. simpl. lia.
        + eapply Forall_impl; [exact HR|]. intros Y. by apply inside_apart.
      - eapply Forall_impl; [exact HR|]. intros Y. by apply inside_apart. }
    assert (Hm0 : ∀ pre : list range4,
      pre ++ rect_of (i, j, k) :: rest
      ≡ₚ (pre ++ queue) ++ (rect_of <$> blocks ++ [(i, j, k)])).
    { intros pre. symmetry. rewrite fmap_app, <- !app_assoc. apply Permutation_app_head.
      subst rest. simpl. rewrite (Permutation_cons_append (queue ++ _)).
      by rewrite <- app_assoc. }
    inversion Hall as [|? ? HF2 Hall1]; subst.
    inversion Hall1 as [|? ? HF1 Hall2]; subst.
    apply Forall_cons in HF2 as [_ HF2].
    destruct ((alo <? i) && (blo <? j)), ((i + k <? ahi) && (j + k <? bhi)).
    + by apply (FOP_perm apart _ _ (Hm0 [_; _])).
    + by apply (FOP_perm apart _ _ (Hm0 [_])).
    + apply (FOP_perm apart _ _ (Hm0 [_])). by constructor.
    + by apply (FOP_perm apart _ _ (Hm0 [])).
Qed.

(** The iteration bound of [matching_loop] is never reached: every
    iteration pops a range and pushes strictly less than it popped. *)
Definition range_weight (r : range4) : nat :=
  let '(alo, ahi, _, _) := r in 2 * (ahi - alo) + 1.

Definition queue_weight (q : list range4) : nat := sum_list (range_weight <$> q).

Lemma matching_loop_fuel a b fuel fuel' queue blocks :
  Forall (range_ok a b) queue →
  queue_weight queue ≤ fuel → queue_weight queue ≤ fuel' →
  matching_loop (chain_b b) a b fuel queue blocks
  = matching_loop (chain_b b) a b fuel' queue blocks.
Proof.
  revert fuel' queue blocks.
  induction fuel as [|fuel IH]; intros fuel' queue blocks Hq Hf Hf'.
  { destruct queue as [|[[[??]?]?] ?]; [by destruct fuel'|].
    unfold queue_weight in Hf. simpl in Hf. lia. }
  destruct queue as [|[[[alo ahi] blo] bhi] queue]; [by destruct fuel'|].
  destruct fuel' as [|fuel']; [unfold queue_weight in Hf'; simpl in Hf'; lia|].
  simpl. apply Forall_cons in Hq as [(? & ? & ? & ?) Hq].
  pose proof (find_longest_match_ok a b alo ahi blo bhi) as Hflm.
  destruct (find_longest_match (chain_b b) a b alo ahi blo bhi) as [[i j] k].
  destruct Hflm as (? & ? & ? & ? & Hm); [done..|].
  unfold queue_weight in *. rewrite fmap_cons in Hf, Hf'. simpl in Hf, Hf'.
  destruct (Nat.eqb_spec k 0) as [->|Hk]; [apply IH; [done|lia|lia]|].
  destruct (Nat.ltb_spec alo i), (Nat.ltb_spec blo j),
    (Nat.ltb_spec (i + k) ahi), (Nat.ltb_spec (j + k) bhi); simpl;
    (apply IH; [repeat (apply Forall_cons; split); try done; red; lia
               |rewrite ?fmap_cons; simpl; lia..]).
Qed.

Lemma matching_fuel_enough a b n :
  matching_fuel (length a) ≤ n →
  matching_loop (chain_b b) a b n [(0, length a, 0, length b)] []
  = matching_loop (chain_b b) a b (matching_fuel (length a))
      [(0, length a, 0, length b)] [].
Proof.
  intros Hn. apply matching_loop_fuel.
  - apply Forall_singleton. red. lia.
  - unfold queue_weight, matching_fuel in *. simpl. lia.
  - unfold queue_weight, matching_fuel in *. simpl. lia.
Qed.

(** *** Sorting and merging the blocks *)

#[local] Instance block_le_trans : Transitive block_le.
Proof.
  intros [[??]?] [[??]?] [[??]?]. unfold block_le, block_leb.
  rewrite !orb_true_iff, !andb_true_iff, !orb_true_iff, !andb_true_iff,
    !Nat.ltb_lt, !Nat.eqb_eq, !Nat.leb_le. lia.
Qed.

#[local] Instance block_le_total : Total block_le.
Proof.
  intros [[??]?] [[??]?]. unfold block_le, block_leb.
  rewrite !orb_true_iff, !andb_true_iff, !orb_true_iff, !andb_true_iff,
    !Nat.ltb_lt, !Nat.eqb_eq, !Nat.leb_le. lia.
Qed.

(** A list of matches that advance through both sequences, starting at or
    after [(i, j)]. *)
Inductive chain a b : nat → nat → list block → Prop :=
| chain_nil i j : chain a b i j []
| chain_cons i j ai bj k bs :
    i ≤ ai → j ≤ bj → block_ok a b (ai, bj, k) →
    chain a b (ai + k) (bj + k) bs →
    chain a b i j ((ai, bj, k) :: bs).

Lemma sorted_chain a b i j (l : list block) :
  StronglySorted block_le l →
  ForallOrdPairs apart (rect_of <$> l) →
  Forall (block_ok a b) l →
  Forall (λ m, i ≤ m.1.1 ∧ j ≤ m.1.2) l →
  chain a b i j l.
Proof.
  revert i j. induction l as [|[[ai bj] k] l IH]; intros i j Hs Hf Hok Hge.
  { constructor. }
  apply StronglySorted_inv in Hs as [Hs Hle].
  rewrite fmap_cons in Hf. inversion Hf as [|? ? Hap Hf']; subst.
  apply Forall_cons in Hok as [Hk Hok]. apply Forall_cons in Hge as [[??] _].
  cbn [fst snd] in *. constructor; [done|done|done|].
  apply IH; [done|done|done|].
  rewrite Forall_fmap in Hap.
  rewrite Forall_forall in Hle, Hap, Hok |- *.
  intros [[yi yj] yk] Hy.
  specialize (Hle _ Hy). specialize (Hap _ Hy). specialize (Hok _ Hy).
  destruct Hk as (? & _), Hok as (? & _).
  unfold block_le, block_leb in Hle.
  rewrite !orb_true_iff, !andb_true_iff, !orb_true_iff, !andb_true_iff,
    !Nat.ltb_lt, !Nat.eqb_eq, !Nat.leb_le in Hle.
  unfold apart, before, compose, rect_of in Hap. cbn [fst snd] in *. lia.
Qed.

Lemma collapse_acc bs i1 j1 k1 acc :
  collapse bs i1 j1 k1 acc = acc ++ collapse bs i1 j1 k1 [].
Proof.
  revert i1 j1 k1 acc. induction bs as [|[[i2 j2] k2] bs IH]; intros i1 j1 k1 acc; simpl.
  - destruct (k1 =? 0); [by rewrite app_nil_r|done].
  - destruct ((i1 + k1 =? i2) && (j1 + k1 =? j2)); [by apply IH|].
    rewrite IH. rewrite (IH _ _ _ (if k1 =? 0 then [] else _)).
    destruct (k1 =? 0); [done|by rewrite app_assoc].
Qed.

Lemma is_match_app a b i j k1 k2 :
  is_match a b i j k1 → is_match a b (i + k1) (j + k1) k2 →
  is_match a b i j (k1 + k2).
Proof.
  intros H1 H2 t Ht. destruct (decide (t < k1)); [by apply H1|].
  destruct (H2 (t - k1)) as (x & ? & ?); [lia|]. exists x. by_lookup.
Qed.

Lemma collapse_chain a b i0 j0 i1 j1 k1 bs :
  i0 ≤ i1 → j0 ≤ j1 → i1 + k1 ≤ length a → j1 + k1 ≤ length b →
  is_match a b i1 j1 k1 →
  chain a b (i1 + k1) (j1 + k1) bs →
  chain a b i0 j0 (collapse bs i1 j1 k1 []).
Proof.
  revert i0 j0 i1 j1 k1.
  induction bs as [|[[i2 j2] k2] bs IH]; intros i0 j0 i1 j1 k1 ? ? ? ? Hm Hc; simpl.
  - destruct (Nat.eqb_spec k1 0); [constructor|].
    constructor; [done|done| |constructor]. red. split_and!; [lia|done..].
  - inversion Hc as [|? ? ? ? ? ? ? ? Hok Hc']; subst.
    pose proof Hok as (? & ? & ? & Hm2).
    destruct (Nat.eqb_spec (i1 + k1) i2) as [<-|]; simpl.
    + destruct (Nat.eqb_spec (j1 + k1) j2) as [<-|]; simpl.
      * apply IH; [lia..| |].
        -- by apply is_match_app.
        -- by rewrite !Nat.add_assoc.
      * rewrite collapse_acc. destruct (Nat.eqb_spec k1 0); simpl.
        -- apply IH; [lia..|done|done].
        -- constructor; [done|done| |]. { red. split_and!; [lia|done..]. }
           apply IH; [lia..|done|done].
    + rewrite collapse_acc. destruct (Nat.eqb_spec k1 0); simpl.
      * apply IH; [lia..|done|done].
      * constructor; [done|done| |]. { red. split_and!; [lia|done..]. }
        apply IH; [lia..|done|done].
Qed.

(** The blocks of [get_matching_blocks], without the closing sentinel. *)
Lemma get_matching_blocks_chain a b :
  ∃ bs, get_matching_blocks a b = bs ++ [(length a, length b, 0)] ∧
        chain a b 0 0 bs.
Proof.
  unfold get_matching_blocks. eexists. split; [done|].
  set (found := matching_loop _ a b _ _ _).
  assert (Hinv : loop_inv a b [] found).
  { apply matching_loop_inv. split_and!.
    - apply Forall_singleton. red. lia.
    - constructor.
    - simpl. constructor; constructor. }
  destruct Hinv as (_ & Hok & Hfop). simpl in Hfop.
  pose proof (merge_sort_Permutation block_le found) as Hperm.
  apply collapse_chain; [lia..| |].
  - intros t Ht. lia.
  - apply sorted_chain.
    + apply StronglySorted_merge_sort; apply _.
    + apply (FOP_perm apart (rect_of <$> found)); [by rewrite Hperm|done].
    + by rewrite Hperm.
    + apply Forall_forall. intros ? _. lia.
Qed.

(** *** The opcodes *)

(** What an opcode says about its two spans. *)
Definition tag_ok a b (t : tag) (i1 i2 j1 j2 : nat) : Prop :=
  match t with
  | Equal => i1 < i2 ∧ j1 < j2 ∧ slice a i1 i2 = slice b j1 j2
  | Insert => i1 = i2 ∧ j1 < j2
  | Delete => i1 < i2 ∧ j1 = j2
  | Replace => i1 < i2 ∧ j1 < j2
  end.

(** The opcodes from [(i, j)] on cover the rest of both sequences, in order
    and without gaps. *)
Inductive opcodes_wf a b : nat → nat → list opcode → Prop :=
| wf_nil : opcodes_wf a b (length a) (length b) []
| wf_cons t i1 i2 j1 j2 ops :
    i1 ≤ i2 → i2 ≤ length a → j1 ≤ j2 → j2 ≤ length b →
    tag_ok a b t i1 i2 j1 j2 →
    opcodes_wf a b i2 j2 ops →
    opcodes_wf a b i1 j1 ((t, i1, i2, j1, j2) :: ops).

Lemma opcodes_loop_acc bs i j acc :
  opcodes_loop bs i j acc = acc ++ opcodes_loop bs i j [].
Proof.
  revert i j acc. induction bs as [|[[ai bj] size] bs IH]; intros i j acc; simpl.
  { by rewrite app_nil_r. }
  rewrite IH. symmetry. rewrite IH. symmetry.
  destruct ((i <? ai) && (j <? bj)), (i <? ai), (j <? bj), (size =? 0);
    simpl; by rewrite <- ?app_assoc, ?app_nil_r.
Qed.

Lemma is_match_slice a b i j k :
  is_match a b i j k → slice a i (i + k) = slice b j (j + k).
Proof.
  intros Hm. unfold slice. replace (i + k - i) with k by lia.
  replace (j + k - j) with k by lia.
  apply list_eq. intros t. rewrite !lookup_take, !lookup_drop.
  case_decide; [|done]. destruct (Hm t) as (x & -> & ->); done.
Qed.

Lemma opcodes_loop_wf a b i j bs :
  i ≤ length a → j ≤ length b → chain a b i j bs →
  opcodes_wf a b i j (opcodes_loop (bs ++ [(length a, length b, 0)]) i j []).
Proof.
  intros Hi Hj Hc. induction Hc as [i j|i j ai bj k bs ? ? Hok Hc IH]; simpl.
  - destruct (Nat.ltb_spec i (length a)), (Nat.ltb_spec j (length b)); simpl.
    + constructor; [lia..|simpl; lia|]. constructor.
    + constructor; [lia..|simpl; lia|]. replace j with (length b) by lia. constructor.
    + constructor; [lia..|simpl; lia|]. replace i with (length a) by lia. constructor.
    + replace i with (length a) by lia. replace j with (length b) by lia. constructor.
  - destruct Hok as (? & ? & ? & Hm).
    rewrite opcodes_loop_acc.
    assert (opcodes_wf a b ai bj
      ((Equal, ai, ai + k, bj, bj + k)
         :: opcodes_loop (bs ++ [(length a, length b, 0)]) (ai + k) (bj + k) [])).
    { constructor; [lia..| |apply IH; lia].
      simpl. split_and!; [lia..|]. by apply is_match_slice. }
    destruct (Nat.eqb_spec k 0); [lia|].
    destruct (Nat.ltb_spec i ai), (Nat.ltb_spec j bj); simpl.
    + constructor; [lia..|simpl; lia|done].
    + constructor; [lia..|simpl; lia|]. by replace j with bj by lia.
    + constructor; [lia..|simpl; lia|]. by replace i with ai by lia.
    + replace i with ai by lia. by replace j with bj by lia.
Qed.

(** The partition property of [get_opcodes]. *)
Lemma get_opcodes_wf a b : opcodes_wf a b 0 0 (get_opcodes a b).
Proof.
  unfold get_opcodes. destruct (get_matching_blocks_chain a b) as (bs & -> & Hc).
  apply opcodes_loop_wf; [lia..|done].
Qed.

End facts.
End DifflibFacts.

(** ** The scanner behind the regular expressions *)

Module ReFacts.
Import Re.

(** The scan never needs more fuel than the text has characters. *)
Lemma pieces_from_fuel (m : pattern) fuel1 fuel2 prev s gap :
  length s ≤ fuel1 → length s ≤ fuel2 →
  pieces_from m fuel1 prev s gap = pieces_from m fuel2 prev s gap.
Proof.
  revert fuel2 prev s gap.
  induction fuel1 as [|fuel1 IH]; intros fuel2 prev s gap H1 H2.
  - destruct s; [|simpl in H1; lia]. by destruct fuel2.
  - destruct fuel2 as [|fuel2]; [destruct s; [done|simpl in H2; lia]|].
    destruct s as [|c s]; [done|]. simpl in H1, H2. simpl.
    destruct (m prev (c :: s)) as [[|n]|].
    + apply IH; lia.
    + do 2 f_equal. apply IH; rewrite length_drop; lia.
    + apply IH; lia.
Qed.

(** A pattern that does not look at the character before the match. *)
Definition blind (m : pattern) : Prop := ∀ p p' s, m p s = m p' s.

Lemma pieces_from_blind m fuel p p' s gap :
  blind m → pieces_from m fuel p s gap = pieces_from m fuel p' s gap.
Proof.
  intros Hb. destruct fuel as [|fuel]; [done|]. destruct s as [|c s]; [done|].
  simpl. by rewrite (Hb p p').
Qed.

(** The stretch [gap] put in front of the first gap of a list of pieces. *)
Definition prepend (gap : str) (ps : list piece) : list piece :=
  match ps with
  | Gap g :: rest => Gap (gap ++ g) :: rest
  | _ => ps
  end.

Lemma prepend_prepend g1 g2 ps : prepend g1 (prepend g2 ps) = prepend (g1 ++ g2) ps.
Proof. destruct ps as [|[g|h] rest]; simpl; by rewrite ?app_assoc. Qed.

Lemma pieces_from_gap m fuel prev s gap :
  pieces_from m fuel prev s gap = prepend gap (pieces_from m fuel prev s []).
Proof.
  revert prev s gap. induction fuel as [|fuel IH]; intros prev s gap.
  - simpl. by rewrite app_nil_r.
  - destruct s as [|c s]; simpl; [by rewrite app_nil_r|].
    destruct (m prev (c :: s)) as [[|n]|]; simpl.
    + by rewrite IH, (IH _ _ [c]), prepend_prepend.
    + by rewrite app_nil_r.
    + by rewrite IH, (IH _ _ [c]), prepend_prepend.
Qed.

(** The pieces are one gap, or begin with a gap and a match. *)
Lemma pieces_from_shape m fuel prev s gap :
  (∃ g, pieces_from m fuel prev s gap = [Gap g])
  ∨ (∃ g h rest, pieces_from m fuel prev s gap = Gap g :: Hit h :: rest).
Proof.
  revert prev s gap. induction fuel as [|fuel IH]; intros prev s gap.
  - left. by eexists.
  - destruct s as [|c s]; simpl; [left; by eexists|].
    destruct (m prev (c :: s)) as [[|n]|]; [apply IH| |apply IH].
    right. by do 3 eexists.
Qed.

(** The pieces of a text, put together again, are the text. *)
Lemma pieces_from_text m fuel prev s gap :
  length s ≤ fuel →
  concat (piece_text <$> pieces_from m fuel prev s gap) = gap ++ s.
Proof.
  revert prev s gap. induction fuel as [|fuel IH]; intros prev s gap Hf.
  - destruct s; [|simpl in Hf; lia]. simpl. by rewrite !app_nil_r.
  - destruct s as [|c s]; simpl; [by rewrite !app_nil_r|]. simpl in Hf.
    destruct (m prev (c :: s)) as [[|n]|]; simpl.
    + rewrite IH by lia. by rewrite <- app_assoc.
    + rewrite IH by (rewrite length_drop; lia). simpl.
      f_equal. f_equal. by rewrite take_drop.
    + rewrite IH by lia. by rewrite <- app_assoc.
Qed.

Lemma pieces_text m s : concat (piece_text <$> pieces m s) = s.
Proof. unfold pieces. by rewrite pieces_from_text. Qed.

(** How the scan of a whole text goes on after its first position. *)
Lemma pieces_nil m : pieces m [] = [Gap []].
Proof. done. Qed.

Lemma pieces_skip m c s :
  blind m → (m None (c :: s) = None ∨ m None (c :: s) = Some 0) →
  pieces m (c :: s) = prepend [c] (pieces m s).
Proof.
  intros Hb Hm. unfold pieces. simpl.
  destruct Hm as [-> | ->]; by rewrite pieces_from_gap, (pieces_from_blind m _ _ None).
Qed.

Lemma pieces_hit m c s n :
  blind m → m None (c :: s) = Some (S n) →
  pieces m (c :: s)
  = Gap [] :: Hit (take (S n) (c :: s)) :: pieces m (drop (S n) (c :: s)).
Proof.
  intros Hb Hm. unfold pieces. cbn [length pieces_from]. rewrite Hm.
  do 2 f_equal. rewrite (pieces_from_blind m _ _ None) by done.
  apply pieces_from_fuel; [|done]. rewrite length_drop. simpl. lia.
Qed.

(** A text in which the pattern matches nowhere is one gap. *)
Lemma pieces_no_hit m s :
  Forall (λ p, match p with Gap _ => True | Hit _ => False end) (pieces m s) →
  pieces m s = [Gap s].
Proof.
  intros Hall. pose proof (pieces_text m s) as Ht.
  destruct (pieces_from_shape m (length s) None s []) as [[g Hg]|(g & h & rest & Hg)];
    fold (pieces m s) in Hg; rewrite Hg in *.
  - simpl in Ht. rewrite app_nil_r in Ht. by subst.
  - apply Forall_cons in Hall as [_ Hall]. by apply Forall_cons in Hall as [[] _].
Qed.

(** *** [re.sub] along the text *)

Lemma pieces_starts_with_gap m s : ∃ g rest, pieces m s = Gap g :: rest.
Proof.
  unfold pieces.
  destruct (pieces_from_shape m (length s) None s []) as [[g ->]|(g & h & rest & ->)];
    by do 2 eexists.
Qed.

Lemma sub_nil m repl : sub m repl [] = [].
Proof. done. Qed.

(** Where the pattern does not match, one character is kept. *)
Lemma sub_skip m repl c s :
  blind m → m None (c :: s) = None → sub m repl (c :: s) = c :: sub m repl s.
Proof.
  intros Hb Hm. unfold sub. rewrite pieces_skip by auto.
  by destruct (pieces_starts_with_gap m s) as (g & rest & ->).
Qed.

(** Where it matches, the match is replaced. *)
Lemma sub_hit m repl c s n :
  blind m → m None (c :: s) = Some (S n) →
  sub m repl (c :: s) = repl ++ sub m repl (drop (S n) (c :: s)).
Proof. intros Hb Hm. unfold sub. by rewrite (pieces_hit m c s n Hb Hm). Qed.

(** With the empty replacement, no character comes in. *)
Lemma Forall_sub_nil (Q : ascii → Prop) m s : Forall Q s → Forall Q (sub m [] s).
Proof.
  intros Hs. rewrite <- (pieces_text m s) in Hs. unfold sub.
  induction (pieces m s) as [|[g|h] ps IH]; simpl in *; [done|..].
  - apply Forall_app in Hs as [? ?]. apply Forall_app; auto.
  - apply Forall_app in Hs as [? ?]. auto.
Qed.

End ReFacts.

(** ** The lexical comparator *)

Module LexicalFacts.
Import Difflib DifflibFacts Re Lexical.

(** *** The summary *)

Definition total (s : summary) : nat :=
  lines_added s + lines_deleted s + lines_modified s.

(** What one opcode adds to the three counters together. *)
Definition weight (a b : list str) (op : opcode) : nat :=
  let '(t, i1, i2, j1, j2) := op in
  match t with
  | Equal => 0
  | Insert => length (slice b j1 j2)
  | Delete => length (slice a i1 i2)
  | Replace => max (i2 - i1) (j2 - j1)
  end.

Lemma diff_step_total a b st op :
  total (count (diff_step a b st op)) = total (count st) + weight a b op.
Proof.
  destruct op as [[[[t i1] i2] j1] j2]. destruct t; unfold total; simpl; lia.
Qed.

Lemma fold_diff_step_total a b ops st :
  total (count (fold_left (diff_step a b) ops st))
  = total (count st) + sum_list (weight a b <$> ops).
Proof.
  revert st. induction ops as [|op ops IH]; intros st; [simpl; lia|].
  cbn [fold_left]. rewrite IH, diff_step_total, fmap_cons. simpl. lia.
Qed.

Lemma slice_length {A} (l : list A) i j :
  i ≤ j → j ≤ length l → length (slice l i j) = j - i.
Proof. intros ? ?. unfold slice. rewrite length_take, length_drop. lia. Qed.

(** An opcode that is not an equal one counts at least one line. *)
Lemma weight_positive a b t i1 i2 j1 j2 :
  i1 ≤ i2 → i2 ≤ length a → j1 ≤ j2 → j2 ≤ length b →
  tag_ok a b t i1 i2 j1 j2 → t ≠ Equal → 0 < weight a b (t, i1, i2, j1, j2).
Proof.
  intros ? ? ? ? Hok Ht. destruct t; simpl in *; [done|..].
  - rewrite slice_length by lia. lia.
  - rewrite slice_length by lia. lia.
  - lia.
Qed.

Lemma slice_drop {A} (l : list A) i j :
  i ≤ j → drop i l = slice l i j ++ drop j l.
Proof.
  intros Hij. unfold slice.
  replace (drop j l) with (drop (j - i) (drop i l)).
  - by rewrite take_drop.
  - rewrite drop_drop. f_equal. lia.
Qed.

(** Opcodes that weigh nothing are equal opcodes, so the two sequences agree
    from the point they start at. *)
Lemma weightless_same (a b : list str) i j ops :
  opcodes_wf a b i j ops → sum_list (weight a b <$> ops) = 0 →
  drop i a = drop j b.
Proof.
  induction 1 as [|t i1 i2 j1 j2 ops ? ? ? ? Hok Hwf IH]; intros Hsum.
  - by rewrite !drop_ge.
  - rewrite fmap_cons in Hsum.
    pose proof (weight_positive a b t i1 i2 j1 j2) as Hpos.
    remember (weight a b (t, i1, i2, j1, j2)) as w eqn:Hw. simpl in Hsum.
    destruct (decide (t = Equal)) as [->|Hne].
    + destruct Hok as (_ & _ & Hs).
      rewrite (slice_drop a i1 i2), (slice_drop b j1 j2) by lia.
      rewrite Hs, IH; [done|]. lia.
    + assert (0 < w) by (by apply Hpos). lia.
Qed.

(** Two different line sequences always count something. *)
Lemma generate_counts (a b : list str) :
  a ≠ b → 0 < total (_generate_diff_html_with_word_level a b).2.
Proof.
  intros Hne. unfold _generate_diff_html_with_word_level. cbn [snd].
  rewrite fold_diff_step_total.
  destruct (decide (sum_list (weight a b <$> get_opcodes a b) = 0)) as [Hz|Hz].
  - exfalso. apply Hne.
    by apply (weightless_same a b 0 0 (get_opcodes a b) (get_opcodes_wf a b)).
  - unfold total at 1. simpl. lia.
Qed.

(** (C4) The three counters of the summary add up to zero exactly when the
    two normalized line sequences are equal: for every pair of extracted
    texts and every choice of options, [compare] leaves a summary whose
    counters sum to zero if and only if preprocessing gives the same lines
    for both texts.  Equal sequences take an identical-files path, which
    leaves the summary at zero; different sequences reach the diff, where at
    least one opcode is an insert, a delete or a replace and counts at least
    one line. *)
Theorem summary_zero_iff_same_lines (o : options) (t1 t2 : str) :
  let lines1 := processed_lines o
    (splitlines (if de_hyphenate o then sub hyphen_break [] t1 else t1)) in
  let lines2 := processed_lines o
    (splitlines (if de_hyphenate o then sub hyphen_break [] t2 else t2)) in
  let result := compare o (Some t1, None) (Some t2, None) in
  (total (summary_of result.2) = 0 ↔ lines1 = lines2) ∧
  (lines1 = lines2 → is_identical result.2 = true ∧ summary_of result.2 = zero_summary) ∧
  (lines1 ≠ lines2 →
     summary_of result.2 = (_generate_diff_html_with_word_level lines1 lines2).2 ∧
     0 < total (summary_of result.2)).
Proof.
  intros lines1 lines2 result.
  assert (Hcases :
    (lines1 = lines2 ∧ is_identical result.2 = true ∧ summary_of result.2 = zero_summary)
    ∨ (lines1 ≠ lines2 ∧
       summary_of result.2 = (_generate_diff_html_with_word_level lines1 lines2).2)).
  { subst result. unfold compare, compare_with. simpl. unfold compare_texts. simpl.
    destruct (negb (ignore_case o || ignore_punctuation o || de_hyphenate o)
              && bool_decide (t1 = t2)) eqn:Hraw.
    - left. apply andb_true_iff in Hraw as [_ Heq]. apply bool_decide_eq_true in Heq.
      subst lines1 lines2. by rewrite Heq.
    - fold lines1 lines2. destruct (decide (lines1 = lines2)) as [Heq|Heq].
      + rewrite bool_decide_eq_true_2 by done. by left.
      + rewrite bool_decide_eq_false_2 by done. right. split; [done|].
        by destruct (_generate_diff_html_with_word_level lines1 lines2). }
  destruct Hcases as [(He & Hid & Hz)|(Hne & Hs)].
  - split_and!; [|done|done]. rewrite Hz. by split.
  - assert (0 < total (summary_of result.2)).
    { rewrite Hs. by apply generate_counts. }
    split_and!; [|done|done]. split; [lia|done].
Qed.

(** *** Replace opcodes *)

(** The line of a sequence at position [i] of a span that starts at [lo]
    and has [len] lines, if the span has such a position. *)
Definition span_line (lines : list str) (lo len i : nat) : option str :=
  if i <? len then lines !! (lo + i) else None.

(** What the specification asks for one paired index of a replace opcode:
    both sides present, only the B side, or only the A side. *)
Definition paired_render (a b : list str) (i1 j1 len1 len2 i : nat) : list str :=
  match span_line a i1 len1 i, span_line b j1 len2 i with
  | Some line1, Some line2 => [modified_line line1 line2]
  | None, Some line2 => [added_line line2]
  | Some line1, None => [deleted_line line1]
  | None, None => []
  end.

Lemma replace_round_paired a b i1 i2 j1 j2 i :
  Forall (λ l, l ≠ []) a → Forall (λ l, l ≠ []) b →
  i2 ≤ length a → j2 ≤ length b →
  replace_round a b i1 j1 (i2 - i1) (j2 - j1) i
  = paired_render a b i1 j1 (i2 - i1) (j2 - j1) i.
Proof.
  intros Ha Hb ? ?. unfold replace_round, paired_render, span_line.
  rewrite Forall_lookup in Ha, Hb.
  destruct (Nat.ltb_spec i (i2 - i1)) as [H1|H1],
           (Nat.ltb_spec i (j2 - j1)) as [H2|H2].
  - destruct (lookup_lt_is_Some_2 a (i1 + i)) as [l1 E1]; [lia|].
    destruct (lookup_lt_is_Some_2 b (j1 + i)) as [l2 E2]; [lia|].
    rewrite E1, E2. simpl. specialize (Ha _ _ E1). specialize (Hb _ _ E2).
    by destruct l1, l2.
  - destruct (lookup_lt_is_Some_2 a (i1 + i)) as [l1 E1]; [lia|].
    rewrite E1. simpl. specialize (Ha _ _ E1). by destruct l1.
  - destruct (lookup_lt_is_Some_2 b (j1 + i)) as [l2 E2]; [lia|].
    rewrite E2. simpl. specialize (Hb _ _ E2). by destruct l2.
  - done.
Qed.

Lemma paired_render_one a b i1 i2 j1 j2 i :
  i2 ≤ length a → j2 ≤ length b → i < max (i2 - i1) (j2 - j1) →
  length (paired_render a b i1 j1 (i2 - i1) (j2 - j1) i) = 1.
Proof.
  intros ? ? Hi. unfold paired_render, span_line.
  destruct (Nat.ltb_spec i (i2 - i1)) as [H1|H1],
           (Nat.ltb_spec i (j2 - j1)) as [H2|H2]; [| | |lia].
  - destruct (lookup_lt_is_Some_2 a (i1 + i)) as [l1 ->]; [lia|].
    by destruct (lookup_lt_is_Some_2 b (j1 + i)) as [l2 ->]; [lia|].
  - by destruct (lookup_lt_is_Some_2 a (i1 + i)) as [l1 ->]; [lia|].
  - by destruct (lookup_lt_is_Some_2 b (j1 + i)) as [l2 ->]; [lia|].
Qed.

(** Preprocessing never yields an empty line. *)
Lemma processed_lines_nonempty o lines : Forall (λ l, l ≠ []) (processed_lines o lines).
Proof.
  induction lines as [|line lines IH]; simpl; [constructor|].
  destruct (_apply_preprocessing_options o line) eqn:E; simpl; [done|].
  by constructor.
Qed.

(** (C5) A replace opcode over the spans [i1, i2) and [j1, j2) of two
    sequences of non-empty lines (as preprocessing yields them) adds the
    larger of the two span lengths to [lines_modified], leaves the other
    two counters alone, and renders exactly that many lines, one per paired
    index: a word-level diff of the pair under the modified marker where both
    sides have a line, the B line as added where only the B side has one,
    the A line as deleted where only the A side has one. *)
Theorem replace_opcode_pairs_lines (a b : list str) (st : diff_state)
    (i1 i2 j1 j2 : nat) :
  Forall (λ l, l ≠ []) a → Forall (λ l, l ≠ []) b →
  i1 ≤ i2 → i2 ≤ length a → j1 ≤ j2 → j2 ≤ length b →
  let len1 := i2 - i1 in
  let len2 := j2 - j1 in
  let st' := diff_step a b st (Replace, i1, i2, j1, j2) in
  lines_modified (count st') = lines_modified (count st) + max len1 len2 ∧
  lines_added (count st') = lines_added (count st) ∧
  lines_deleted (count st') = lines_deleted (count st) ∧
  html_out st' =
    html_out st ++ flat_map (paired_render a b i1 j1 len1 len2) (seq 0 (max len1 len2)) ∧
  length (html_out st') = length (html_out st) + max len1 len2 ∧
  (∀ i line1 line2, a !! (i1 + i) = Some line1 → b !! (j1 + i) = Some line2 →
     i < len1 → i < len2 →
     paired_render a b i1 j1 len1 len2 i =
       [lit "<span class='diff-line diff-modified'><span class='diff-marker'>*</span>"
          ++ _generate_word_diff_html line1 line2 ++ lit "</span>"]) ∧
  (∀ i line2, b !! (j1 + i) = Some line2 → len1 ≤ i → i < len2 →
     paired_render a b i1 j1 len1 len2 i = [added_line line2]) ∧
  (∀ i line1, a !! (i1 + i) = Some line1 → i < len1 → len2 ≤ i →
     paired_render a b i1 j1 len1 len2 i = [deleted_line line1]).
Proof.
  intros Ha Hb ? ? ? ? len1 len2 st'.
  assert (Hout : html_out st' =
    html_out st ++ flat_map (paired_render a b i1 j1 len1 len2) (seq 0 (max len1 len2))).
  { subst st'. simpl. f_equal. apply flat_map_ext. intros i.
    by apply replace_round_paired. }
  split_and!; [done|done|done|done| | | |].
  - rewrite Hout, length_app. f_equal.
    assert (Hlen : ∀ n k, k + n ≤ max len1 len2 →
      length (flat_map (paired_render a b i1 j1 len1 len2) (seq k n)) = n).
    { induction n as [|n IH]; intros k Hk; simpl; [done|].
      rewrite length_app, IH by lia. subst len1 len2.
      rewrite paired_render_one by lia. done. }
    by apply Hlen.
  - intros i line1 line2 E1 E2 Hi1 Hi2. unfold paired_render, span_line.
    destruct (Nat.ltb_spec i len1); [|lia]. destruct (Nat.ltb_spec i len2); [|lia].
    by rewrite E1, E2.
  - intros i line2 E2 Hi1 Hi2. unfold paired_render, span_line.
    destruct (Nat.ltb_spec i len1); [lia|]. destruct (Nat.ltb_spec i len2); [|lia].
    by rewrite E2.
  - intros i line1 E1 Hi1 Hi2. unfold paired_render, span_line.
    destruct (Nat.ltb_spec i len1); [|lia]. destruct (Nat.ltb_spec i len2); [lia|].
    by rewrite E1.
Qed.

(** *** The value [compare] returns *)

Section returned.

Variable o : options.
Variable extract1 extract2 : exc (option str * option str).
Variable preprocess : option str → exc (option (list str)).
Variable generate : list str → list str → exc (str * summary).

Local Abbreviation compare_with := (compare_with o extract1 extract2 preprocess generate).

(** The message the [except] clause leaves. *)
Definition unexpected (e : str) : str :=
  lit "Unexpected error during basic comparison: " ++ e.

(** (C10) The boolean [compare] returns does not tell whether it
    succeeded.  Whatever the extractor hands back as text: an extraction
    that reports an error returns False with the error behind the name of
    the document, for the first document and, when the first has none, for
    the second; two extractions without an error of which one has no text
    return False; and a preprocessing that yields no lines returns False.
    But an exception is caught wherever it is raised inside the [try]
    block, in an extraction, in the preprocessing of either text or in the
    diff generation: [success] is False, [error_message] holds the message
    of the [except] clause, and the method still returns True. *)
Theorem compare_returns_true_on_exception (e : str) :
  (∀ x1, extract1 = Ret x1 → truthy_opt x1.2 = true →
     ∃ st, compare_with = (false, st) ∧ success st = false ∧
           text1_raw st = x1.1 ∧
           error_message st = Some (lit "Error in Document 1: " ++ default [] x1.2)) ∧
  (∀ x1 x2, extract1 = Ret x1 → extract2 = Ret x2 →
     truthy_opt x1.2 = false → truthy_opt x2.2 = true →
     ∃ st, compare_with = (false, st) ∧ success st = false ∧
           text1_raw st = x1.1 ∧ text2_raw st = x2.1 ∧
           error_message st = Some (lit "Error in Document 2: " ++ default [] x2.2)) ∧
  (∀ x1 x2, extract1 = Ret x1 → extract2 = Ret x2 →
     truthy_opt x1.2 = false → truthy_opt x2.2 = false →
     x1.1 = None ∨ x2.1 = None →
     ∃ st, compare_with = (false, st) ∧ success st = false ∧
           error_message st = Some (lit "Text extraction failed unexpectedly.")) ∧
  (∀ x1 x2 t1 t2, extract1 = Ret x1 → extract2 = Ret x2 →
     truthy_opt x1.2 = false → truthy_opt x2.2 = false →
     x1.1 = Some t1 → x2.1 = Some t2 →
     negb (ignore_case o || ignore_punctuation o || de_hyphenate o)
       && bool_decide (t1 = t2) = false →
     (∀ l1 l2, preprocess (Some t1) = Ret l1 → preprocess (Some t2) = Ret l2 →
        l1 = None ∨ l2 = None →
        ∃ st, compare_with = (false, st) ∧ success st = false ∧
              error_message st = Some (lit "Text preprocessing failed.")) ∧
     (preprocess (Some t1) = Raise e →
        ∃ st, compare_with = (true, st) ∧ success st = false ∧
              error_message st = Some (unexpected e)) ∧
     (∀ l1, preprocess (Some t1) = Ret l1 → preprocess (Some t2) = Raise e →
        ∃ st, compare_with = (true, st) ∧ success st = false ∧
              error_message st = Some (unexpected e)) ∧
     (∀ lines1 lines2,
        preprocess (Some t1) = Ret (Some lines1) →
        preprocess (Some t2) = Ret (Some lines2) →
        lines1 ≠ lines2 → generate lines1 lines2 = Raise e →
        ∃ st, compare_with = (true, st) ∧ success st = false ∧
              error_message st = Some (unexpected e))) ∧
  (extract1 = Raise e →
     ∃ st, compare_with = (true, st) ∧ success st = false ∧
           error_message st = Some (unexpected e)) ∧
  (∀ x1, extract1 = Ret x1 → truthy_opt x1.2 = false → extract2 = Raise e →
     ∃ st, compare_with = (true, st) ∧ success st = false ∧
           error_message st = Some (unexpected e)).
Proof.
  split_and!.
  - intros [t1 err1] -> He. unfold compare_with, Lexical.compare_with.
    simpl in He. rewrite He. eauto.
  - intros [t1 err1] [t2 err2] -> -> He1 He2. unfold compare_with, Lexical.compare_with.
    simpl in He1, He2. rewrite He1, He2. eexists. by split_and!.
  - intros [t1 err1] [t2 err2] -> -> He1 He2 Hnone.
    unfold compare_with, Lexical.compare_with. simpl in He1, He2, Hnone.
    rewrite He1, He2. unfold compare_texts. cbn [text1_raw text2_raw set_raw].
    destruct Hnone as [-> | ->]; [eauto|]. destruct t1; eauto.
  - intros [? err1] [? err2] t1 t2 -> -> He1 He2 Ht1 Ht2 Hraw.
    simpl in He1, He2, Ht1, Ht2. subst.
    unfold compare_with, Lexical.compare_with.
    rewrite He1, He2. unfold compare_texts. cbn [text1_raw text2_raw set_raw].
    rewrite Hraw. split_and!.
    + intros l1 l2 E1 E2 Hnone. rewrite E1.
      cbn [text1_raw text2_raw set_processed set_raw]. rewrite E2.
      destruct Hnone as [-> | ->]; [eauto|]. destruct l1; simpl; eauto.
    + intros ->. simpl. eauto.
    + intros l1 E1 E2. rewrite E1. cbn [text1_raw text2_raw set_processed set_raw].
      rewrite E2. simpl. eauto.
    + intros lines1 lines2 E1 E2 Hne Hg. rewrite E1.
      cbn [text1_raw text2_raw set_processed set_raw]. rewrite E2.
      rewrite bool_decide_eq_false_2 by done. rewrite Hg. simpl. eauto.
  - intros He. unfold compare_with, Lexical.compare_with. rewrite He. simpl. eauto.
  - intros [t1 err1] -> He1 He2. unfold compare_with, Lexical.compare_with.
    simpl in He1. rewrite He1, He2. simpl. eauto.
Qed.

End returned.

(** A run of [replace_opcode_pairs_lines]: two lines against one. *)
Lemma replace_opcode_pairs_lines_witness :
  let a := [lit "one"; lit "two"] in
  let b := [lit "uno"] in
  let st' := diff_step a b {| html_out := []; count := zero_summary |}
               (Replace, 0, 2, 0, 1) in
  lines_modified (count st') = 2 ∧ lines_added (count st') = 0 ∧
  lines_deleted (count st') = 0 ∧
  html_out st' = [modified_line (lit "one") (lit "uno"); deleted_line (lit "two")].
Proof.
  intros a b st'.
  destruct (replace_opcode_pairs_lines a b {| html_out := []; count := zero_summary |}
              0 2 0 1) as (H1 & H2 & H3 & H4 & _).
  - by repeat constructor.
  - by repeat constructor.
  - repeat constructor.
  - repeat constructor.
  - repeat constructor.
  - repeat constructor.
  - split_and!; [exact H1|exact H2|exact H3|exact H4].
Defined.

(** Two runs of [compare_returns_true_on_exception].  In the first the
    extractor was handed no file for the first document and reports that:
    [compare] returns False.  In the second both texts are there, the
    preprocessing of the first raises, and [compare] returns True. *)
Lemma compare_returns_true_on_exception_witness :
  let o := {| ignore_case := true; ignore_punctuation := false;
              de_hyphenate := false |} in
  let missing := Utils.extract_text_from_file (λ b, Some b) (λ b, Some b)
                   (λ _, Ret []) None in
  (∃ st,
     compare_with o (Ret missing) (Ret (Some (lit "b"), None))
       (λ t, Ret (_preprocess_text o t))
       (λ l1 l2, Ret (_generate_diff_html_with_word_level l1 l2)) = (false, st) ∧
     success st = false ∧ text1_raw st = None ∧
     error_message st
     = Some (lit "Error in Document 1: Internal error: No file object provided.")) ∧
  (∃ st,
     compare_with o (Ret (Some (lit "a"), None)) (Ret (Some (lit "b"), None))
       (λ _, Raise (lit "boom")) (λ _ _, Raise []) = (true, st) ∧
     success st = false ∧ error_message st = Some (unexpected (lit "boom"))).
Proof.
  intros o missing. split.
  - destruct (compare_returns_true_on_exception o (Ret missing)
                (Ret (Some (lit "b"), None)) (λ t, Ret (_preprocess_text o t))
                (λ l1 l2, Ret (_generate_diff_html_with_word_level l1 l2)) [])
      as (H & _).
    exact (H missing eq_refl eq_refl).
  - destruct (compare_returns_true_on_exception o
                (Ret (Some (lit "a"), None)) (Ret (Some (lit "b"), None))
                (λ _, Raise (lit "boom")) (λ _ _, Raise []) (lit "boom"))
      as (_ & _ & _ & H & _).
    destruct (H (Some (lit "a"), None) (Some (lit "b"), None) (lit "a") (lit "b")
                eq_refl eq_refl eq_refl eq_refl eq_refl eq_refl eq_refl)
      as (_ & H2 & _).
    exact (H2 eq_refl).
Defined.

End LexicalFacts.

(** ** Escaping and links in the lexical rendering *)

Module RenderFacts.
Import Difflib DifflibFacts Re ReFacts Lexical.

(** *** [html.escape] *)



(** How often the character [c] occurs in [s]. *)
Definition occ (c : ascii) (s : str) : nat := length (filter (λ d, d = c) s).

Lemma occ_app c s t : occ c (s ++ t) = occ c s + occ c t.
Proof. unfold occ. by rewrite filter_app, length_app. Qed.


Lemma occ_concat c (l : list str) : occ c (concat l) = sum_list (occ c <$> l).
Proof. induction l as [|x l IH]; [done|]. simpl. by rewrite occ_app, IH. Qed.




(** *** The pattern of the links *)










(** *** [_format_links] along the text *)



Lemma format_links_nil : _format_links [] = [].
Proof. done. Qed.




(** *** What survives the second escape *)













(** A line without links comes out escaped twice, as a whole. *)
Lemma format_links_no_hit s :
  Forall (λ p, match p with Gap _ => True | Hit _ => False end) (pieces url s) →
  _format_links s = html_escape s.
Proof.
  intros Hno. unfold _format_links. rewrite (pieces_no_hit _ _ Hno). simpl.
  by rewrite app_nil_r.
Qed.

(** *** The lines of the diff *)











(** *** Tags and links *)











End RenderFacts.

(** ** Normalization *)

Module NormalizeFacts.
Import Re ReFacts PyFacts Lexical.

(** The lines of a text after normalization. *)
Definition normalize (o : options) (t : str) : list str :=
  default [] (_preprocess_text o (Some t)).

Lemma ws_run_blind : blind ws_run.
Proof. done. Qed.

Lemma hyphen_break_blind : blind hyphen_break.
Proof. done. Qed.

(** [re.sub(r'\s+', ' ', s)] makes every run of whitespace one space. *)
Lemma sub_ws_run s : sub ws_run [SP] s = squash false s.
Proof.
  assert (∀ n s, length s ≤ n → sub ws_run [SP] s = squash false s) as Hn;
    [|by apply (Hn (length s))].
  clear s. induction n as [|n IH]; intros s Hs.
  { by destruct s; [|simpl in Hs; lia]. }
  destruct s as [|c s]; [done|]. simpl in Hs.
  destruct (isspace c) eqn:E.
  - rewrite (sub_hit _ _ _ _ (span_len isspace s)); [|done|].
    + simpl. rewrite E. f_equal. rewrite squash_true_drop.
      apply IH. rewrite length_drop. lia.
    + unfold ws_run. simpl. by rewrite E.
  - rewrite sub_skip; [|done|].
    + simpl. rewrite E. f_equal. apply IH. lia.
    + unfold ws_run. simpl. by rewrite E.
Qed.

(** *** One line *)

(** A line as [_apply_preprocessing_options] leaves it: whitespace is single
    spaces, none at either end, and the options are in force. *)
Definition normal (o : options) (x : str) : Prop :=
  squeezed x = true ∧ strip x = x ∧
  (ignore_case o = true → lower x = x) ∧
  (ignore_punctuation o = true → remove_punctuation x = x).

Lemma lower_squash b s : lower (squash b s) = squash b (lower s).
Proof.
  revert b. induction s as [|c s IH]; intros b; [done|]. simpl.
  destruct (lower_char_facts c) as (-> & _).
  destruct (isspace c); [destruct b|]; simpl; by rewrite IH.
Qed.

Lemma lower_lstrip s : lower (lstrip s) = lstrip (lower s).
Proof.
  induction s as [|c s IH]; [done|]. simpl.
  destruct (lower_char_facts c) as (-> & _). by destruct (isspace c).
Qed.

Lemma lower_strip s : lower (strip s) = strip (lower s).
Proof.
  unfold strip, rstrip, lower. rewrite map_rev. fold (lower (lstrip (rev (lstrip s)))).
  rewrite lower_lstrip. unfold lower. rewrite map_rev.
  fold (lower (lstrip s)). by rewrite lower_lstrip.
Qed.

Lemma lower_lower s : lower (lower s) = lower s.
Proof.
  unfold lower. rewrite map_map. apply map_ext. intros c.
  by destruct (lower_char_facts c) as (_ & -> & _).
Qed.

Lemma lower_remove_punctuation s :
  lower (remove_punctuation s) = remove_punctuation (lower s).
Proof.
  unfold lower, remove_punctuation. induction s as [|c s IH]; [done|]. simpl.
  destruct (lower_char_facts c) as (_ & _ & Hp & _).
  destruct (is_punctuation c) eqn:E.
  - rewrite !filter_cons_False by (by rewrite ?Hp, ?E). done.
  - rewrite !filter_cons_True by (by rewrite ?Hp, ?E). simpl. by rewrite IH.
Qed.

Lemma remove_punctuation_id s :
  Forall (λ c, is_punctuation c = false) s → remove_punctuation s = s.
Proof.
  unfold remove_punctuation. induction 1 as [|c s Hc _ IH]; [done|].
  by rewrite filter_cons_True, IH.
Qed.

Lemma remove_punctuation_clean s :
  Forall (λ c, is_punctuation c = false) (remove_punctuation s).
Proof. unfold remove_punctuation. apply Forall_forall. by intros c [? _]%list_elem_of_filter. Qed.

(** [_apply_preprocessing_options] leaves a normal line. *)
Lemma apply_options_normal o text : normal o (_apply_preprocessing_options o text).
Proof.
  unfold _apply_preprocessing_options, normal. cbv zeta. rewrite sub_ws_run.
  split_and!.
  - apply strip_squeezed, squash_squeezed.
  - apply strip_strip.
  - intros Hc. rewrite Hc, lower_strip, lower_squash. do 2 f_equal.
    destruct (ignore_punctuation o).
    + by rewrite lower_remove_punctuation, lower_lower.
    + apply lower_lower.
  - intros Hp. rewrite Hp. apply remove_punctuation_id, Forall_strip, Forall_squash;
      [done|apply remove_punctuation_clean].
Qed.

(** On a normal line it changes nothing. *)
Lemma apply_options_id o x : normal o x → _apply_preprocessing_options o x = x.
Proof.
  intros (Hs & Ht & Hc & Hp). unfold _apply_preprocessing_options. cbv zeta.
  assert ((if ignore_case o then lower x else x) = x) as ->.
  { destruct (ignore_case o); auto. }
  assert ((if ignore_punctuation o then remove_punctuation x else x) = x) as ->.
  { destruct (ignore_punctuation o); auto. }
  by rewrite sub_ws_run, squash_id.
Qed.

(** *** The lines *)

Lemma processed_lines_normal o lines :
  Forall (λ x, normal o x ∧ x ≠ []) (processed_lines o lines).
Proof.
  induction lines as [|line lines IH]; simpl; [done|].
  destruct (_apply_preprocessing_options o line) as [|c x] eqn:E; simpl; [done|].
  constructor; [|done]. split; [|done]. rewrite <- E. apply apply_options_normal.
Qed.

Lemma processed_lines_id o lines :
  Forall (λ x, normal o x ∧ x ≠ []) lines → processed_lines o lines = lines.
Proof.
  induction 1 as [|x lines [Hn Hx] _ IH]; [done|]. simpl.
  rewrite apply_options_id by done. destruct x; [done|]. simpl. by rewrite IH.
Qed.

(** A normal line has no line boundary in it. *)
Lemma normal_no_linebreak o x : normal o x → Forall (λ c, is_linebreak c = false) x.
Proof.
  intros (Hs%squeezed_spaces & _). eapply Forall_impl; [exact Hs|].
  intros c Hc. destruct (is_linebreak c) eqn:E; [|done].
  apply linebreak_isspace in E as [Hw Hsp]. by apply Hc in Hw.
Qed.

Lemma splitlines_from_plain line rest cur :
  Forall (λ c, is_linebreak c = false) line →
  splitlines_from false (line ++ rest) cur = splitlines_from false rest (cur ++ line).
Proof.
  intros Hl. revert cur. induction Hl as [|c line Hc _ IH]; intros cur.
  - by rewrite app_nil_r.
  - simpl. rewrite Hc, IH. by rewrite <- app_assoc.
Qed.

Lemma splitlines_from_lf rest cur :
  splitlines_from false (LF :: rest) cur = cur :: splitlines_from false rest [].
Proof. done. Qed.

(** Lines without a boundary in them, joined by newlines and split again,
    are the same lines. *)
Lemma splitlines_join (lines : list str) :
  Forall (λ x, Forall (λ c, is_linebreak c = false) x ∧ x ≠ []) lines →
  splitlines (join [LF] lines) = lines.
Proof.
  unfold splitlines. induction 1 as [|x lines [Hx Hne] Hl IH]; [done|].
  destruct lines as [|y lines].
  - simpl. rewrite <- (app_nil_r x) at 1. rewrite splitlines_from_plain by done.
    simpl. by destruct x.
  - change (join [LF] (x :: y :: lines)) with (x ++ [LF] ++ join [LF] (y :: lines)).
    rewrite splitlines_from_plain by done.
    change ([LF] ++ join [LF] (y :: lines)) with (LF :: join [LF] (y :: lines)).
    by rewrite splitlines_from_lf, IH.
Qed.

(** *** Joining hyphenated words *)

(** No hyphen of the text is followed by whitespace with a newline in it. *)
Definition unbroken (s : str) : Prop := ∀ i, hyphen_break None (drop i s) = None.

Lemma hyphen_break_other c s : c ≠ "-"%char → hyphen_break None (c :: s) = None.
Proof. intros Hc. unfold hyphen_break. by rewrite bool_decide_eq_false_2. Qed.

Lemma hyphen_break_cases c s :
  hyphen_break None (c :: s) = None
  ∨ hyphen_break None (c :: s) = Some (S (span_len isspace s)).
Proof. unfold hyphen_break. destruct (_ && _); auto. Qed.

Lemma hyphen_break_none c s :
  hyphen_break None (c :: s) = None
  ↔ bool_decide (c = "-"%char)
    && bool_decide (LF ∈ take (span_len isspace s) s) = false.
Proof. unfold hyphen_break. by destruct (_ && _). Qed.

(** Where nothing is to be joined, the text stays as it is. *)
Lemma sub_unbroken s : unbroken s → sub hyphen_break [] s = s.
Proof.
  induction s as [|c s IH]; intros Hu; [done|].
  rewrite sub_skip; [|done|apply (Hu 0)].
  f_equal. apply IH. intros i. apply (Hu (S i)).
Qed.

Lemma span_len_solid s : head_solid s = true → span_len isspace s = 0.
Proof. destruct s as [|c s]; [done|]. simpl. by intros ->%negb_true_iff. Qed.

Lemma drop_span_solid s : head_solid (drop (span_len isspace s) s) = true.
Proof.
  induction s as [|c s IH]; [done|]. simpl.
  destruct (isspace c) eqn:E; [done|]. simpl. by rewrite E.
Qed.

(** What stands behind a joined break begins with no whitespace. *)
Lemma sub_hyphen_solid s :
  head_solid s = true → head_solid (sub hyphen_break [] s) = true.
Proof.
  assert (∀ n s, length s ≤ n → head_solid s = true →
            head_solid (sub hyphen_break [] s) = true) as Hn;
    [|by apply (Hn (length s))].
  clear s. induction n as [|n IH]; intros s Hs Hh.
  { by destruct s; [|simpl in Hs; lia]. }
  destruct s as [|c s]; [done|]. simpl in Hs.
  destruct (hyphen_break_cases c s) as [Hm|Hm].
  - by rewrite sub_skip.
  - rewrite (sub_hit _ _ _ _ _ hyphen_break_blind Hm). simpl.
    apply IH; [rewrite length_drop; lia|apply drop_span_solid].
Qed.

Lemma sub_hyphen_space c s :
  isspace c = true → sub hyphen_break [] (c :: s) = c :: sub hyphen_break [] s.
Proof.
  intros Hc. apply sub_skip; [done|]. apply hyphen_break_other. by intros ->.
Qed.

(** Joining leaves the whitespace a text begins with as it is. *)
Lemma sub_hyphen_run s :
  take (span_len isspace (sub hyphen_break [] s)) (sub hyphen_break [] s)
  = take (span_len isspace s) s.
Proof.
  induction s as [|c s IH]; [done|].
  destruct (isspace c) eqn:E.
  - rewrite sub_hyphen_space by done. simpl. rewrite E. simpl. by rewrite IH.
  - rewrite (span_len_solid (sub _ _ _)) by (apply sub_hyphen_solid; simpl; by rewrite E).
    simpl. by rewrite E.
Qed.

(** After the joining nothing is left to be joined. *)
Lemma sub_hyphen_unbroken s : unbroken (sub hyphen_break [] s).
Proof.
  assert (∀ n s, length s ≤ n → unbroken (sub hyphen_break [] s)) as Hn;
    [|by apply (Hn (length s))].
  clear s. induction n as [|n IH]; intros s Hs.
  { destruct s; [|simpl in Hs; lia]. intros i. by rewrite sub_nil, drop_nil. }
  destruct s as [|c s]; [intros i; by rewrite sub_nil, drop_nil|]. simpl in Hs.
  destruct (hyphen_break_cases c s) as [Hm|Hm].
  - rewrite sub_skip by done. intros [|i]; [|apply IH; lia].
    simpl. apply hyphen_break_none in Hm. apply hyphen_break_none.
    by rewrite sub_hyphen_run.
  - rewrite (sub_hit _ _ _ _ _ hyphen_break_blind Hm). simpl.
    apply IH. rewrite length_drop. lia.
Qed.

(** *** The last character of a normal line *)

Lemma last_filter_split (P : ascii → bool) z c :
  last (filter (λ d, P d = true) z) = Some c →
  ∃ y ws, z = y ++ c :: ws ∧ forallb (λ d, negb (P d)) ws = true.
Proof.
  induction z as [|d z IH] using rev_ind; [done|].
  rewrite filter_app. destruct (P d) eqn:E.
  - rewrite (filter_cons_True _ d) by done. rewrite filter_nil, last_snoc.
    intros [= ->]. by exists z, [].
  - rewrite (filter_cons_False _ d) by (by rewrite E). rewrite filter_nil, app_nil_r.
    intros (y & ws & -> & Hws)%IH. exists y, (ws ++ [d]).
    rewrite <- app_assoc. split; [done|].
    rewrite forallb_app, Hws. simpl. by rewrite E.
Qed.

Lemma filter_blank ws :
  blank ws = true → filter (λ d, negb (isspace d) = true) ws = [].
Proof.
  induction ws as [|d ws IH]; [done|]. simpl.
  intros [Hd Hws]%andb_true_iff. rewrite filter_cons_False by (by rewrite Hd). auto.
Qed.

(** The last character of a stripped text is the last character of the text
    that is no whitespace. *)
Lemma strip_last_solid q c :
  last (strip q) = Some c → last (filter (λ d, negb (isspace d) = true) q) = Some c.
Proof.
  intros Hl. pose proof (strip_last _ _ Hl) as Hc.
  destruct (strip_split q) as (ws1 & ws2 & Heq & Hb1 & Hb2).
  remember (strip q) as x eqn:Hx. clear Hx. subst q.
  rewrite !filter_app, (filter_blank ws1), (filter_blank ws2), app_nil_r by done.
  simpl. destruct x as [|e x _] using rev_ind; [done|].
  rewrite last_snoc in Hl. simplify_eq.
  rewrite filter_app, (filter_cons_True _ c) by (by rewrite Hc).
  by rewrite filter_nil, last_snoc.
Qed.

Lemma squash_solid_filter b s :
  filter (λ d, negb (isspace d) = true) (squash b s)
  = filter (λ d, negb (isspace d) = true) s.
Proof.
  revert b. induction s as [|c s IH]; intros b; [done|]. simpl.
  destruct (isspace c) eqn:E.
  - rewrite (filter_cons_False _ c) by (by rewrite E).
    destruct b; [done|]. by rewrite filter_cons_False.
  - rewrite !filter_cons_True by (by rewrite E). by rewrite IH.
Qed.

Lemma blank_lower s : blank (lower s) = blank s.
Proof.
  induction s as [|c s IH]; [done|]. simpl.
  destruct (lower_char_facts c) as (-> & _). by rewrite <- IH.
Qed.

(** With the punctuation kept, a normalized line that ends with a hyphen
    comes from a line whose last character but for whitespace is a
    hyphen. *)
Lemma apply_options_last o x :
  ignore_punctuation o = false →
  last (_apply_preprocessing_options o x) = Some "-"%char →
  ∃ y ws, x = y ++ "-"%char :: ws ∧ blank ws = true.
Proof.
  intros Hp. unfold _apply_preprocessing_options. cbv zeta. rewrite Hp, sub_ws_run.
  intros Hl%strip_last_solid. rewrite squash_solid_filter in Hl.
  apply (last_filter_split (λ d, negb (isspace d))) in Hl as (y & ws & Heq & Hws).
  assert (blank ws = true) as Hb.
  { clear -Hws. induction ws as [|d ws IH]; [done|]. simpl in *.
    rewrite negb_involutive in Hws. apply andb_true_iff in Hws as [-> ?]. auto. }
  destruct (ignore_case o); [|by exists y, ws].
  unfold lower in Heq. apply map_eq_app in Heq as (y' & r & -> & Hy & Hr).
  apply map_eq_cons in Hr as (c & ws' & -> & Hc & Hws').
  destruct (lower_char_facts c) as (_ & _ & _ & Hh). apply Hh in Hc as ->.
  exists y', ws'. split; [done|]. rewrite <- (blank_lower ws'). unfold lower. by rewrite Hws'.
Qed.

(** *** The lines of a text without broken words *)

(** No line but the last ends with a hyphen. *)
Fixpoint hyphen_safe (lines : list str) : Prop :=
  match lines with
  | [] => True
  | x :: lines' =>
      (lines' ≠ [] → last x ≠ Some "-"%char) ∧ hyphen_safe lines'
  end.

Lemma hyphen_safe_cons x lines :
  last x ≠ Some "-"%char → hyphen_safe lines → hyphen_safe (x :: lines).
Proof. by split. Qed.

Lemma span_len_blank ws s :
  blank ws = true → length ws + span_len isspace s = span_len isspace (ws ++ s).
Proof.
  induction ws as [|d ws IH]; [done|]. simpl.
  intros [Hd Hws]%andb_true_iff. rewrite Hd. by rewrite <- IH.
Qed.

(** A hyphen, whitespace and a newline make a break. *)
Lemma hyphen_break_found y ws rest :
  blank ws = true → ¬ unbroken (y ++ "-"%char :: ws ++ LF :: rest).
Proof.
  intros Hb Hu. specialize (Hu (length y)).
  rewrite drop_app_length in Hu. apply hyphen_break_none in Hu.
  rewrite bool_decide_eq_true_2 in Hu by done. simpl in Hu.
  apply bool_decide_eq_false in Hu. apply Hu.
  rewrite <- span_len_blank by done. simpl.
  apply list_elem_of_lookup. exists (length ws).
  rewrite lookup_take_lt by lia. by rewrite list_lookup_middle.
Qed.

(** In a text without a break and with no line boundary but the newline,
    no line that is followed by another ends with a hyphen. *)
Lemma lines_hyphen_safe o u cur :
  ignore_punctuation o = false →
  Forall (λ c, is_linebreak c = true → c = LF) u →
  unbroken (cur ++ u) →
  hyphen_safe (processed_lines o (splitlines_from false u cur)).
Proof.
  intros Hp Hu. revert cur. induction Hu as [|c u Hc _ IH]; intros cur Hn.
  - simpl. destruct (truthy cur); simpl; [|done].
    destruct (truthy (_apply_preprocessing_options o cur)); by simpl.
  - simpl. destruct (is_linebreak c) eqn:E.
    + rewrite (Hc eq_refl) in *. rewrite bool_decide_eq_false_2 by done.
      assert (hyphen_safe (processed_lines o (splitlines_from false u []))) as Hrest.
      { apply IH. intros i. specialize (Hn (length cur + S i)).
        by rewrite drop_app_add in Hn. }
      simpl. destruct (truthy (_apply_preprocessing_options o cur)); [|done].
      apply hyphen_safe_cons; [|done]. intros Hl.
      apply apply_options_last in Hl as (y & ws & -> & Hb); [|done].
      rewrite <- app_assoc in Hn. by apply hyphen_break_found in Hn.
    + apply IH. by rewrite <- app_assoc.
Qed.

(** A normal line that does not end with a hyphen, or that ends the text,
    brings no break. *)
Lemma unbroken_line o x rest :
  normal o x → (rest = [] ∨ (∃ rest', rest = LF :: rest') ∧ last x ≠ Some "-"%char) →
  unbroken rest → unbroken (x ++ rest).
Proof.
  intros (Hsq & Hst & _) Hrest Hu i.
  destruct (decide (length x ≤ i)) as [Hi|Hi].
  { rewrite drop_app_ge by done. apply Hu. }
  rewrite drop_app_le by lia.
  destruct (drop i x) as [|d tail] eqn:Hd.
  { apply (f_equal length) in Hd. rewrite length_drop in Hd. simpl in Hd. lia. }
  destruct (decide (d = "-"%char)) as [->|Hne]; [|by apply hyphen_break_other].
  apply hyphen_break_none. rewrite bool_decide_eq_true_2 by done. simpl.
  apply bool_decide_eq_false.
  assert (x = take i x ++ "-"%char :: tail) as Hx by (by rewrite <- Hd, take_drop).
  destruct tail as [|e tail].
  - destruct Hrest as [->|[_ Hlast]]; [simpl; apply not_elem_of_nil|].
    exfalso. apply Hlast. rewrite Hx. by rewrite last_snoc.
  - simpl. destruct (isspace e) eqn:E; [|apply not_elem_of_nil].
    assert (squeezed ("-"%char :: e :: tail) = true) as Hs.
    { rewrite Hx in Hsq. by apply squeezed_app_r in Hsq. }
    simpl in Hs. rewrite E in Hs.
    apply andb_true_iff in Hs as [[->%bool_decide_eq_true Hh]%andb_true_iff _].
    destruct tail as [|f tail].
    + exfalso. assert (last (strip x) = Some SP) as Hl.
      { rewrite Hst, Hx. by rewrite (last_app_cons _ [_]). }
      by apply strip_last in Hl.
    + simpl in Hh |- *. apply negb_true_iff in Hh. rewrite Hh. simpl.
      rewrite elem_of_cons, elem_of_nil. by intros [?|[]].
Qed.

Lemma unbroken_nil : unbroken [].
Proof. intros i. by rewrite drop_nil. Qed.

(** Normal lines of which no inner one ends with a hyphen, joined by
    newlines, hold no break. *)
Lemma join_unbroken o lines :
  Forall (λ x, normal o x ∧ x ≠ []) lines → hyphen_safe lines →
  unbroken (join [LF] lines).
Proof.
  induction 1 as [|x lines [Hn _] _ IH]; intros Hs; [apply unbroken_nil|].
  destruct Hs as [Hx Hs]. specialize (IH Hs).
  destruct lines as [|y lines].
  - simpl. rewrite <- (app_nil_r x).
    apply (unbroken_line o); [done|by left|apply unbroken_nil].
  - change (join [LF] (x :: y :: lines)) with (x ++ LF :: join [LF] (y :: lines)).
    apply (unbroken_line o); [done| |].
    + right. split; [by eexists|by apply Hx].
    + intros [|i]; [by apply hyphen_break_other|apply IH].
Qed.

(** Lines without a hyphen hold no break. *)
Lemma no_hyphen_unbroken s : Forall (λ c, c ≠ "-"%char) s → unbroken s.
Proof.
  intros Hs i. apply (Forall_drop _ i) in Hs.
  destruct (drop i s) as [|c t]; [done|].
  apply hyphen_break_other. by apply Forall_cons in Hs as [? _].
Qed.

Lemma Forall_join (Q : ascii → Prop) sep (lines : list str) :
  Forall Q sep → Forall (Forall Q) lines → Forall Q (join sep lines).
Proof.
  intros Hsep. induction 1 as [|x lines Hx Hl IH]; [done|].
  destruct lines as [|y lines]; [done|].
  change (join sep (x :: y :: lines)) with (x ++ sep ++ join sep (y :: lines)).
  rewrite !Forall_app. auto.
Qed.

(** Normal, non-empty lines whose joined text holds no break are a fixed
    point of the normalization. *)
Lemma normalize_join o lines :
  Forall (λ x, normal o x ∧ x ≠ []) lines →
  (de_hyphenate o = true → unbroken (join [LF] lines)) →
  normalize o (join [LF] lines) = lines.
Proof.
  intros Hl Hu. unfold normalize, _preprocess_text. simpl.
  assert ((if de_hyphenate o then sub hyphen_break [] (join [LF] lines)
           else join [LF] lines) = join [LF] lines) as ->.
  { destruct (de_hyphenate o); [|done]. by apply sub_unbroken, Hu. }
  rewrite splitlines_join.
  - by apply processed_lines_id.
  - eapply Forall_impl; [exact Hl|]. intros x [Hn Hx]. split; [|done].
    by eapply normal_no_linebreak.
Qed.

Lemma normalize_unbroken o t :
  de_hyphenate o = false ∨ ignore_punctuation o = true
  ∨ Forall (λ c, is_linebreak c = true → c = LF) t →
  de_hyphenate o = true → unbroken (join [LF] (normalize o t)).
Proof.
  intros Hcases Hd.
  destruct (ignore_punctuation o) eqn:Hp.
  - apply no_hyphen_unbroken, Forall_join; [by repeat constructor|].
    eapply Forall_impl; [apply processed_lines_normal|].
    intros x [(_ & _ & _ & Hx) _]. rewrite <- (Hx Hp).
    eapply Forall_impl; [apply remove_punctuation_clean|]. by intros c Hc ->.
  - destruct Hcases as [?|[?|Ht]]; [congruence..|].
    apply (join_unbroken o); [apply processed_lines_normal|].
    unfold normalize, _preprocess_text. simpl. rewrite Hd.
    apply lines_hyphen_safe; [done|by apply Forall_sub_nil|].
    apply sub_hyphen_unbroken.
Qed.

(** (C7) Normalization is not idempotent.  With de-hyphenation on and the
    punctuation kept, take a hyphen in front of a line boundary that is no
    newline: a carriage return, a form feed, a vertical tab, one of the
    three separators or the next-line character.  [splitlines] ends the line
    there, but the pattern of the de-hyphenation asks for a newline and
    leaves the hyphen alone: the first pass gives the two lines [a-] and
    [b].  Joined by a newline they hold the hyphen in front of a newline,
    and the second pass joins them to the one line [ab]. *)
Theorem normalization_not_idempotent (o : options) (c : ascii) :
  de_hyphenate o = true → ignore_punctuation o = false →
  is_linebreak c = true → c ≠ LF →
  let lines := [lit "a-"; lit "b"] in
  _preprocess_text o (Some (lit "a-" ++ [c] ++ lit "b")) = Some lines ∧
  _preprocess_text o (Some (join [LF] lines)) = Some [lit "ab"] ∧
  _preprocess_text o (Some (join [LF] lines)) ≠ Some lines.
Proof.
  intros Hd Hp Hl Hne lines. destruct o as [ic ip dh]. simpl in Hd, Hp. subst dh ip.
  assert (_preprocess_text {| ignore_case := ic; ignore_punctuation := false;
                              de_hyphenate := true |} (Some (join [LF] lines))
          = Some [lit "ab"]) as Hsecond by (by destruct ic).
  split_and!; [|done|by rewrite Hsecond].
  destruct c as [[] [] [] [] [] [] [] []];
    first [ by vm_compute in Hl | by destruct Hne | by destruct ic ].
Qed.

(** A run of [normalization_not_idempotent]: a form feed behind the
    hyphen. *)
Lemma normalization_not_idempotent_witness :
  let o := {| ignore_case := false; ignore_punctuation := false;
              de_hyphenate := true |} in
  _preprocess_text o (Some (lit "a-" ++ [chr 12] ++ lit "b"))
  = Some [lit "a-"; lit "b"] ∧
  _preprocess_text o (Some (join [LF] [lit "a-"; lit "b"])) = Some [lit "ab"].
Proof.
  intros o.
  destruct (normalization_not_idempotent o (chr 12)) as (H1 & H2 & _);
    [reflexivity|reflexivity|reflexivity|discriminate|].
  split; [exact H1|exact H2].
Defined.

(** Normalization is idempotent when de-hyphenation is off, or when
    punctuation is ignored, or when the raw text has no line boundary other
    than the newline: the lines of a first normalization, joined by
    newlines and normalized again with the same options, are the same
    lines. *)
Theorem normalization_idempotent (o : options) (t : str) (lines : list str) :
  de_hyphenate o = false ∨ ignore_punctuation o = true
  ∨ Forall (λ c, is_linebreak c = true → c = LF) t →
  _preprocess_text o (Some t) = Some lines →
  _preprocess_text o (Some (join [LF] lines)) = Some lines.
Proof.
  intros Hcases Hl.
  assert (lines = normalize o t) as -> by (unfold normalize; by rewrite Hl).
  pose proof (normalize_join o (normalize o t) (processed_lines_normal o _)
                (normalize_unbroken o t Hcases)) as Hn.
  unfold normalize at 1 in Hn. 
  by destruct (_preprocess_text o (Some (join [LF] (normalize o t)))) eqn:E;
    simpl in Hn; [rewrite Hn|].
Qed.

(** A run of [normalization_idempotent]: a word broken at a newline, with
    de-hyphenation on and the punctuation kept. *)
Lemma normalization_idempotent_witness :
  _preprocess_text
    {| ignore_case := true; ignore_punctuation := false; de_hyphenate := true |}
    (Some (join [LF] [lit "hyphen a"; lit "b-c"]))
  = Some [lit "hyphen a"; lit "b-c"].
Proof.
  apply (normalization_idempotent _ (lit "Hy-" ++ [LF] ++ lit " phen   A" ++ [LF] ++ lit "b-c")).
  - right. right. repeat (constructor; [by vm_compute|]). constructor.
  - reflexivity.
Defined.

End NormalizeFacts.

(** ** The semantic reconciler *)

Module SemanticFacts.
Import Difflib Re Semantic.

Section reconciler.

Variable token : Type.
Variable encode : str → exc (list token).
Variable decode : list token → str.
Variable max_chunk_tokens : Z.
Variable json_loads : str → exc json.
Variable str_json : option json → str.
Variable str_nat : nat → str.
Variable api : nat → str → str → api_result.

Local Abbreviation process_pair := (process_pair json_loads str_json str_nat api).
Local Abbreviation process_pairs := (process_pairs json_loads str_json str_nat api).
Local Abbreviation compare_chunks := (compare_chunks json_loads str_json str_nat api).
Local Abbreviation chunker :=
  (_chunk_text_by_tokens_exc token encode decode max_chunk_tokens).
Local Abbreviation compare :=
  (compare token encode decode max_chunk_tokens json_loads str_json str_nat api).

Lemma truthy_nil {A} (l : list A) : truthy l = false ↔ l = [].
Proof. by destruct l. Qed.



(** A pair is settled without the language model when one side is blank or
    both sides are the same text. *)
Definition local_pair (chunk1 chunk2 : str) : Prop :=
  strip chunk1 = [] ∨ strip chunk2 = [] ∨ chunk1 = chunk2.

#[local] Instance local_pair_dec c1 c2 : Decision (local_pair c1 c2).
Proof. unfold local_pair. apply _. Defined.

(** The step for a pair that needs the model: the call is counted and
    noted, then its end decides. *)
Lemma process_pair_oracle chunks1 chunks2 st i :
  ¬ local_pair (chunk_at chunks1 i) (chunk_at chunks2 i) →
  process_pair chunks1 chunks2 st i =
    let chunk1 := chunk_at chunks1 i in
    let chunk2 := chunk_at chunks2 i in
    let st' := count_call st i chunk1 chunk2 in
    match call_result json_loads str_json str_nat
            (api (api_call_counter st + 1) chunk1 chunk2) with
    | Blocks blocks => inr (extend_blocks st' blocks)
    | Failed msg => inl (set_success (set_error st' msg) false, None)
    | Escapes e => inl (st', Some e)
    end.
Proof.
  intros Hn. unfold local_pair in Hn. unfold process_pair, Semantic.process_pair.
  cbv zeta.
  destruct (strip (chunk_at chunks1 i)) eqn:E1; [tauto|].
  destruct (strip (chunk_at chunks2 i)) eqn:E2; [tauto|].
  simpl. rewrite bool_decide_eq_false_2 by tauto.
  unfold _call_groq_change_blocks. simpl.
  by destruct (call_result _ _ _ _).
Qed.

(** The four local cases of the loop body. *)
Lemma process_pair_blank chunks1 chunks2 st i :
  strip (chunk_at chunks1 i) = [] → strip (chunk_at chunks2 i) = [] →
  process_pair chunks1 chunks2 st i = inr st.
Proof.
  intros H1 H2. unfold process_pair, Semantic.process_pair. cbv zeta.
  by rewrite H1, H2.
Qed.

Lemma process_pair_added chunks1 chunks2 st i :
  strip (chunk_at chunks1 i) = [] → strip (chunk_at chunks2 i) ≠ [] →
  process_pair chunks1 chunks2 st i =
    inr (extend_blocks st
           [{| block_status := StAdded; text1 := []; text2 := chunk_at chunks2 i |}]).
Proof.
  intros H1 H2. unfold process_pair, Semantic.process_pair. cbv zeta.
  rewrite H1. by destruct (strip (chunk_at chunks2 i)).
Qed.

Lemma process_pair_deleted chunks1 chunks2 st i :
  strip (chunk_at chunks1 i) ≠ [] → strip (chunk_at chunks2 i) = [] →
  process_pair chunks1 chunks2 st i =
    inr (extend_blocks st
           [{| block_status := StDeleted; text1 := chunk_at chunks1 i; text2 := [] |}]).
Proof.
  intros H1 H2. unfold process_pair, Semantic.process_pair. cbv zeta.
  rewrite H2. by destruct (strip (chunk_at chunks1 i)).
Qed.

Lemma process_pair_equal chunks1 chunks2 st i :
  strip (chunk_at chunks1 i) ≠ [] → strip (chunk_at chunks2 i) ≠ [] →
  chunk_at chunks1 i = chunk_at chunks2 i →
  process_pair chunks1 chunks2 st i =
    inr (extend_blocks st
           [{| block_status := StEqual; text1 := chunk_at chunks1 i;
               text2 := chunk_at chunks2 i |}]).
Proof.
  intros H1 H2 He. unfold process_pair, Semantic.process_pair. cbv zeta.
  destruct (strip (chunk_at chunks1 i)); [done|].
  destruct (strip (chunk_at chunks2 i)); [done|].
  simpl. by rewrite bool_decide_eq_true_2.
Qed.

(** A local case appends at most one block and makes no call. *)
Lemma process_pair_local chunks1 chunks2 st i :
  local_pair (chunk_at chunks1 i) (chunk_at chunks2 i) →
  ∃ bs, process_pair chunks1 chunks2 st i = inr (extend_blocks st bs).
Proof.
  intros Hl.
  destruct (decide (strip (chunk_at chunks1 i) = [])) as [E1|E1],
           (decide (strip (chunk_at chunks2 i) = [])) as [E2|E2].
  - exists []. rewrite process_pair_blank by done. f_equal.
    destruct st. unfold extend_blocks. simpl. by rewrite app_nil_r.
  - eexists. by rewrite process_pair_added.
  - eexists. by rewrite process_pair_deleted.
  - destruct Hl as [?|[?|He]]; [done|done|]. eexists. by rewrite process_pair_equal.
Qed.


(** *** What the loop leaves untouched *)

(** The fields with which a step ends, whether the loop goes on or not. *)
Definition fields_of (r : state * option exception + state) : state :=
  match r with
  | inl (s, _) => s
  | inr s => s
  end.

Lemma process_pair_keeps chunks1 chunks2 st i :
  let st' := fields_of (process_pair chunks1 chunks2 st i) in
  rendered_html st' = rendered_html st ∧ summary_of st' = summary_of st ∧
  api_call_counter st ≤ api_call_counter st' ∧
  (∀ c, c ∈ calls st' → c ∈ calls st ∨ c.1.1 = i).
Proof.
  destruct (decide (local_pair (chunk_at chunks1 i) (chunk_at chunks2 i))) as [Hl|Hl].
  - destruct (process_pair_local chunks1 chunks2 st i Hl) as [bs ->]. simpl.
    split_and!; [done|done|lia|auto].
  - rewrite process_pair_oracle by done. cbv zeta.
    destruct (call_result _ _ _ _); simpl.
    all: split_and!; [done|done|lia|].
    all: intros c [?|Hc%list_elem_of_singleton]%elem_of_app; [auto|subst c; auto].
Qed.

Lemma process_pairs_keeps chunks1 chunks2 range st :
  let st' := fields_of (process_pairs chunks1 chunks2 st range) in
  rendered_html st' = rendered_html st ∧ summary_of st' = summary_of st ∧
  api_call_counter st ≤ api_call_counter st' ∧
  (∀ c, c ∈ calls st' → c ∈ calls st ∨ c.1.1 ∈ range).
Proof.
  revert st. induction range as [|i range IH]; intros st; simpl.
  { split_and!; auto. }
  pose proof (process_pair_keeps chunks1 chunks2 st i) as Hp. cbv zeta in Hp.
  destruct (Semantic.process_pair _ _ _ _ _ _ st i) as [[s e]|s]; simpl in *.
  - destruct Hp as (? & ? & ? & Hc). split_and!; [done..|].
    intros c Hin. destruct (Hc c Hin) as [?|Hci]; [by left|right; rewrite Hci; apply list_elem_of_here].
  - destruct Hp as (Hr & Hs & ? & Hc).
    destruct (IH s) as (Hr' & Hs' & ? & Hc').
    rewrite Hr', Hs'. split_and!; [done|done|lia|].
    intros c Hin. destruct (Hc' c Hin) as [Hin'|?]; [|right; by apply list_elem_of_further].
    destruct (Hc c Hin') as [?|Hci]; [by left|right; rewrite Hci; apply list_elem_of_here].
Qed.

Lemma process_pairs_app chunks1 chunks2 st pre post :
  process_pairs chunks1 chunks2 st (pre ++ post) =
    match process_pairs chunks1 chunks2 st pre with
    | inl out => inl out
    | inr s => process_pairs chunks1 chunks2 s post
    end.
Proof.
  revert st. induction pre as [|i pre IH]; intros st; simpl; [done|].
  by destruct (Semantic.process_pair _ _ _ _ _ _ st i).
Qed.

(** *** What holds along the loop *)

(** While the loop runs nothing has failed. *)
Definition running (st : state) : Prop :=
  success st = false ∧ error_message st = None.

(** How the loop is left before its end: with a message and [compare]
    about to return, or with an exception and no message yet. *)
Definition left_loop (left : state * option exception) : Prop :=
  success left.1 = false ∧
  match left.2 with
  | None => ∃ msg, error_message left.1 = Some msg ∧ msg ≠ []
  | Some _ => error_message left.1 = None
  end.

(** Every message of a failed call begins with a fixed text. *)
Lemma call_result_failed r msg :
  call_result json_loads str_json str_nat r = Failed msg → msg ≠ [].
Proof.
  destruct r; simpl; try (by intros [= <-]); try done.
  destruct (parse_response _ _ _ _); [by intros [= <-]|done].
Qed.

(** A call returns blocks only when the service answered and the answer
    went through the validation: every exception fails it. *)
Lemma call_result_blocks r blocks :
  call_result json_loads str_json str_nat r = Blocks blocks ↔
  ∃ raw, r = Content raw ∧ parse_response json_loads str_json str_nat raw = Ret blocks.
Proof.
  split.
  - destruct r as [| | | | | |raw]; try done. simpl.
    destruct (parse_response _ _ _ raw) eqn:E; [done|]. intros [= <-]. by exists raw.
  - intros (raw & -> & E). simpl. by rewrite E.
Qed.

Lemma process_pair_running chunks1 chunks2 st i :
  running st →
  match process_pair chunks1 chunks2 st i with
  | inr st' => running st'
  | inl out => left_loop out
  end.
Proof.
  intros (Hs & He).
  destruct (decide (local_pair (chunk_at chunks1 i) (chunk_at chunks2 i))) as [Hl|Hl].
  - by destruct (process_pair_local chunks1 chunks2 st i Hl) as [bs ->].
  - rewrite process_pair_oracle by done. cbv zeta.
    destruct (call_result _ _ _ _) as [bs|msg|e] eqn:Hc; unfold running, left_loop; simpl.
    + done.
    + split; [done|]. exists msg. split; [done|]. by eapply call_result_failed.
    + done.
Qed.

Lemma process_pairs_running chunks1 chunks2 range st :
  running st →
  match process_pairs chunks1 chunks2 st range with
  | inr st' => running st'
  | inl out => left_loop out
  end.
Proof.
  revert st. induction range as [|i range IH]; intros st Hst; [done|]. simpl.
  pose proof (process_pair_running chunks1 chunks2 st i Hst) as Hp.
  destruct (Semantic.process_pair _ _ _ _ _ _ st i) as [out|st']; [done|by apply IH].
Qed.

(** A blank text has no chunks, if the chunker returns at all. *)
Lemma chunk_blank text chunks :
  strip text = [] → chunker text = Ret chunks → chunks = [].
Proof.
  intros Hb. unfold _chunk_text_by_tokens_exc, split_parts. rewrite Hb.
  destruct (truthy text); [|by intros [= <-]]. simpl.
  destruct (token_count_exc _ _ _); simpl; [done|]. by intros [= <-].
Qed.

(** The message the outer [except] clause leaves for an exception. *)
Definition main_error_message (e : exception) : str :=
  lit "Unexpected error during comparison: " ++ exc_type e ++ lit " - " ++ exc_str e.

(** (C2) When the call for chunk pair [i] fails, in whichever way, the
    reconciliation stops there.  Both texts were chunked; the pairs before
    [i] have gone through and left the fields [st], with the blocks found
    so far; pair [i] needs the model; and the call, which is call number
    [api_call_counter st + 1], does not come back with blocks: an [except]
    clause of [_call_groq_change_blocks] has set a message, or the clause
    for [APIError] has itself raised and the outer [except] clause of
    [compare] sets one.  Every exception of the call is such a failure:
    blocks come back only from an answer that went through the validation.
    Then [compare] returns False with [success = False] and a message that
    is not empty; nothing is rendered and the summary stays the default one,
    so the blocks of the pairs before [i], which stay in
    [all_change_blocks], are not reported as a result; and the failed call
    is the last call made: no call is issued for a pair behind [i]. *)
Theorem oracle_failure_aborts (text1 text2 : str) (chunks1 chunks2 : list str)
    (i : nat) (st : state) :
  let chunk1 := chunk_at chunks1 i in
  let chunk2 := chunk_at chunks2 i in
  let answer := call_result json_loads str_json str_nat
                  (api (api_call_counter st + 1) chunk1 chunk2) in
  text1 ≠ text2 →
  chunker text1 = Ret chunks1 → chunker text2 = Ret chunks2 →
  i < max (length chunks1) (length chunks2) →
  process_pairs chunks1 chunks2 (set_raw reset (Some text1) (Some text2)) (seq 0 i)
    = inr st →
  ¬ local_pair chunk1 chunk2 →
  (∀ blocks, answer ≠ Blocks blocks) →
  (∀ r blocks, call_result json_loads str_json str_nat r = Blocks blocks →
     ∃ raw, r = Content raw) ∧
  ∃ fin msg,
    compare (Some text1, None) (Some text2, None) = (false, fin) ∧
    success fin = false ∧ error_message fin = Some msg ∧ msg ≠ [] ∧
    match answer with
    | Failed m => msg = m
    | Escapes e => msg = main_error_message e
    | Blocks _ => False
    end ∧
    rendered_html fin = None ∧ summary_of fin = _get_default_summary ∧
    all_change_blocks fin = all_change_blocks st ∧
    api_call_counter fin = api_call_counter st + 1 ∧
    calls fin = calls st ++ [(i, chunk1, chunk2)] ∧
    (∀ c, c ∈ calls fin → c.1.1 ≤ i).
Proof.
  intros chunk1 chunk2 answer Hne Hc1 Hc2 Hi Hpre Hn Hfail.
  split.
  { intros r blocks (raw & -> & _)%call_result_blocks. by exists raw. }
  set (st0 := set_raw reset (Some text1) (Some text2)) in *.
  pose proof (process_pairs_keeps chunks1 chunks2 (seq 0 i) st0) as Hk.
  pose proof (process_pairs_running chunks1 chunks2 (seq 0 i) st0 (conj eq_refl eq_refl))
    as Hrun.
  rewrite Hpre in Hk, Hrun. destruct Hk as (Hr & Hs & _ & Hc). simpl in Hr, Hs, Hc.
  destruct Hrun as [Hsucc Herr].
  set (st' := count_call st i chunk1 chunk2).
  assert (Hloop : process_pairs chunks1 chunks2 st0
                    (seq 0 (max (length chunks1) (length chunks2)))
                  = match answer with
                    | Blocks blocks => inr st
                    | Failed m => inl (set_success (set_error st' m) false, None)
                    | Escapes e => inl (st', Some e)
                    end).
  { replace (max (length chunks1) (length chunks2))
      with (i + S (max (length chunks1) (length chunks2) - S i)) by lia.
    rewrite seq_app, process_pairs_app, Hpre. simpl.
    rewrite process_pair_oracle by done. cbv zeta. fold chunk1 chunk2 answer st'.
    destruct answer as [blocks|m|e] eqn:Ha; [by destruct (Hfail blocks)|done|done]. }
  assert (Hcmp : compare (Some text1, None) (Some text2, None)
                 = compare_chunks st0 chunks1 chunks2).
  { unfold compare, Semantic.compare. simpl.
    rewrite bool_decide_eq_false_2 by done.
    destruct (negb (truthy (strip text1)) && negb (truthy (strip text2))) eqn:Hblank.
    { exfalso. apply Hn. left. apply andb_true_iff in Hblank as [Hb _].
      apply negb_true_iff, truthy_nil in Hb.
      subst chunk1. by rewrite (chunk_blank text1 chunks1 Hb Hc1). }
    by rewrite Hc1, Hc2. }
  assert (Hcalls : ∀ c, c ∈ calls st ++ [(i, chunk1, chunk2)] → c.1.1 ≤ i).
  { intros c [Hin|Hc'%list_elem_of_singleton]%elem_of_app; [|subst c; simpl; lia].
    destruct (Hc c Hin) as [Hin0|Hin1]; [by apply elem_of_nil in Hin0|].
    apply elem_of_seq in Hin1. lia. }
  rewrite Hcmp. unfold compare_chunks, Semantic.compare_chunks.
  destruct (negb (truthy chunks1) && negb (truthy chunks2)) eqn:Hnone.
  { exfalso. apply andb_true_iff in Hnone as [H1 H2].
    apply negb_true_iff, truthy_nil in H1. apply negb_true_iff, truthy_nil in H2.
    rewrite H1, H2 in Hi. simpl in Hi. lia. }
  rewrite Hloop.
  destruct answer as [blocks|m|e] eqn:Ha; [by destruct (Hfail blocks)| |].
  - exists (set_success (set_error st' m) false), m. simpl.
    split_and!; try done. by eapply call_result_failed.
  - unfold on_main_error. change (error_message st') with (error_message st).
    rewrite Herr. simpl. eexists _, _. split; [reflexivity|]. simpl.
    split_and!; try done.
Qed.

End reconciler.

(** *** A run of three chunk pairs *)

(** Two texts of three parts of 300 characters.  With one token for each
    character and a budget of 500, every part is a chunk of its own.  The
    first parts are the same, the others differ. *)
Definition sample_part (c : ascii) : str := replicate 300 c.

Definition sample_text (c2 c3 : ascii) : str :=
  sample_part "p" ++ [LF; LF] ++ sample_part c2 ++ [LF; LF] ++ sample_part c3.

(** The first call of the run loses its connection. *)
Definition sample_api (n : nat) (original_chunk new_chunk : str) : api_result :=
  APIErrorWithoutStatus (lit "APIConnectionError") (lit "Connection error.").

(** A run of [oracle_failure_aborts]: the first pair is settled as equal
    without a call, the call for the second pair fails, and the third pair,
    which would need a call as well, is never looked at. *)
Lemma oracle_failure_aborts_witness :
  ∃ fin,
    Semantic.compare ascii (λ s, Ret s) id 500 (λ _, Raise []) (λ _, []) (λ _, [])
      sample_api
      (Some (sample_text "q" "r"), None) (Some (sample_text "x" "y"), None)
      = (false, fin) ∧
    success fin = false ∧
    error_message fin =
      Some (lit "Unexpected error during comparison: AttributeError - 'APIConnectionError' object has no attribute 'status_code'") ∧
    rendered_html fin = None ∧ summary_of fin = _get_default_summary ∧
    all_change_blocks fin =
      [{| block_status := StEqual; text1 := sample_part "p"; text2 := sample_part "p" |}] ∧
    api_call_counter fin = 1 ∧
    calls fin = [(1, sample_part "q", sample_part "x")].
Proof.
  destruct (oracle_failure_aborts ascii (λ s, Ret s) id 500 (λ _, Raise [])
              (λ _, []) (λ _, []) sample_api
              (sample_text "q" "r") (sample_text "x" "y")
              [sample_part "p"; sample_part "q"; sample_part "r"]
              [sample_part "p"; sample_part "x"; sample_part "y"] 1
              (extend_blocks
                 (set_raw reset (Some (sample_text "q" "r")) (Some (sample_text "x" "y")))
                 [{| block_status := StEqual; text1 := sample_part "p";
                     text2 := sample_part "p" |}]))
    as (_ & fin & msg & Hc & Hs & He & _ & Hm & Hr & Hsum & Hb & Hn & Hcalls & _).
  - intros H. by vm_compute in H.
  - by vm_compute.
  - by vm_compute.
  - vm_compute. lia.
  - by vm_compute.
  - intros [H|[H|H]]; by vm_compute in H.
  - intros blocks H. by vm_compute in H.
  - exists fin. simpl in Hm. subst msg.
    split_and!; [exact Hc|exact Hs|exact He|exact Hr|exact Hsum|exact Hb|exact Hn|exact Hcalls].
Defined.

End SemanticFacts.

(** ** The two word-level renderers *)

Module WordDiffFacts.
Import Difflib Re PyFacts.

Lemma replace_char_none old new s : old ∉ s → replace_char old new s = s.
Proof.
  induction s as [|c s IH]; [done|]. intros Hn.
  apply not_elem_of_cons in Hn as [Hc Hs].
  change (replace_char old new (c :: s))
    with ((if bool_decide (c = old) then new else [c]) ++ replace_char old new s).
  rewrite bool_decide_eq_false_2 by done. by rewrite IH.
Qed.

(** Escaping brings no newline into a text. *)
Lemma html_escape_no_lf s : LF ∉ s → LF ∉ html_escape s.
Proof.
  induction s as [|c s IH]; [done|]. intros Hn.
  apply not_elem_of_cons in Hn as [Hc Hs].
  change (html_escape (c :: s)) with (escape_char c ++ html_escape s).
  rewrite elem_of_app. intros [He|He]; [|by apply IH].
  unfold escape_char in He. repeat case_bool_decide; subst;
    cbn [lit list_ascii_of_string] in He;
    rewrite ?elem_of_cons, elem_of_nil in He; intuition (congruence || discriminate).
Qed.

(** A text without a newline is escaped and nothing else. *)
Lemma escape_br_plain s : LF ∉ s → Semantic.escape_br s = html_escape s.
Proof. intros Hn. by apply replace_char_none, html_escape_no_lf. Qed.

(** Such a text is styled exactly when it is not blank. *)
Lemma styled_plain s :
  LF ∉ s → Semantic.styled (Semantic.escape_br s) = negb (blank s).
Proof.
  intros Hn. rewrite escape_br_plain by done. unfold Semantic.styled.
  rewrite strip_blank, blank_html_escape.
  rewrite bool_decide_eq_false_2; [by rewrite andb_true_r|].
  intros He. apply (html_escape_no_lf s Hn). rewrite He.
  unfold Semantic.BR. rewrite elem_of_app. right. apply list_elem_of_here.
Qed.













(** *** The bodies of the opcodes of a run *)




Lemma join0_truthy (l : list str) :
  join0 (filter (λ w, truthy w = true) l) = join0 l.
Proof.
  unfold join0. induction l as [|w l IH]; [done|].
  destruct w as [|c w].
  - by rewrite filter_cons_False.
  - rewrite filter_cons_True by done. simpl. by rewrite IH.
Qed.





End WordDiffFacts.

(** ** Escaping comes first, in every rendering *)

Module EscapeFacts.
Import Difflib DifflibFacts Re ReFacts PyFacts Lexical RenderFacts WordDiffFacts.


Section tagged.

Variable tags : list str.









End tagged.


(** *** The markup the lexical comparator writes *)




















(** *** The markup the semantic comparator writes *)












End EscapeFacts.

(** ** The token chunker *)

Module ChunkFacts.
Import Difflib Re PyFacts Semantic.

(** The floor of the budget. *)
Lemma effective_max_floor m :
  (500 ≤ effective_max_chunk_tokens m)%Z ∧
  (m ≤ effective_max_chunk_tokens m)%Z ∧
  ((m ≤ 500)%Z → effective_max_chunk_tokens m = 500%Z) ∧
  ((500 ≤ m)%Z → effective_max_chunk_tokens m = m).
Proof. unfold effective_max_chunk_tokens. lia. Qed.

Lemma join_replicate (sep w : str) n :
  join sep (replicate (S n) w) = w ++ concat (replicate n (sep ++ w)).
Proof.
  induction n as [|n IH]; [by rewrite app_nil_r|].
  change (replicate (S (S n)) w) with (w :: replicate (S n) w).
  cbn [join]. change (replicate (S n) w) with (w :: replicate n w) at 1.
  cbv beta iota. rewrite IH. simpl. by rewrite <- !app_assoc.
Qed.

Section packing.

Variable token : Type.
Variable encode : str → list token.
Variable decode : list token → str.
Variable max_chunk_tokens : Z.

Local Abbreviation token_count := (token_count token encode).
Local Abbreviation pack_words := (pack_words token encode decode max_chunk_tokens).
Local Abbreviation pack_parts := (pack_parts token encode decode max_chunk_tokens).

(** Words whose estimate is one token each are all put into the running
    chunk as long as the sum of the estimates stays within the budget. *)
Lemma pack_words_fits (w : str) n chunks sub_chunk k :
  (token_count (separator ++ w) - token_count separator = 1)%Z →
  truthy sub_chunk = true → (k + Z.of_nat n ≤ max_chunk_tokens)%Z →
  pack_words (replicate n w) chunks sub_chunk k
  = (chunks, sub_chunk ++ concat (replicate n ([SP] ++ w))).
Proof.
  intros Hest. revert sub_chunk k.
  induction n as [|n IH]; intros sub_chunk k Hsub Hk; [by rewrite app_nil_r|].
  change (replicate (S n) w) with (w :: replicate n w). cbn [Semantic.pack_words].
  rewrite Hsub, Hest.
  destruct (Z.leb_spec (k + 1) max_chunk_tokens) as [_|?]; [|lia].
  rewrite IH; [|by destruct sub_chunk|lia].
  simpl. by rewrite <- !app_assoc.
Qed.

Lemma pack_words_first (w : str) n chunks :
  encode [] = [] → token_count w = 1%Z →
  (token_count (separator ++ w) - token_count separator = 1)%Z →
  truthy w = true → (Z.of_nat (S n) ≤ max_chunk_tokens)%Z →
  pack_words (replicate (S n) w) chunks [] 0
  = (chunks, join [SP] (replicate (S n) w)).
Proof.
  intros Hnil Hw Hest Ht Hn.
  change (replicate (S n) w) with (w :: replicate n w) at 1.
  assert (token_count [] = 0%Z) as H0 by (unfold Semantic.token_count; by rewrite Hnil).
  cbn [Semantic.pack_words truthy app]. rewrite Hw, H0.
  change (0 + (1 - 0))%Z with 1%Z.
  destruct (Z.leb_spec 1 max_chunk_tokens) as [_|?]; [|lia].
  rewrite pack_words_fits by (done || lia). by rewrite join_replicate.
Qed.

(** A text of two parts, the second of which is over the budget although
    the estimates of its words add up to no more than the budget: the second
    part comes back as one chunk. *)
Lemma chunk_two_parts (text a w : str) n :
  let long := join [SP] (replicate (S n) w) in
  truthy text = true → split_parts text = [a; long] →
  strip a = a → truthy a = true → strip long = long →
  split_ws long = replicate (S n) w → truthy w = true →
  encode [] = [] → (token_count a ≤ max_chunk_tokens)%Z →
  (max_chunk_tokens < token_count long)%Z →
  token_count w = 1%Z →
  (token_count (separator ++ w) - token_count separator = 1)%Z →
  (Z.of_nat (S n) ≤ max_chunk_tokens)%Z →
  _chunk_text_by_tokens token encode decode max_chunk_tokens text = [a; long].
Proof.
  intros long Htext Hsplit Ha Hta Hlong Hwords Htw Hnil Hca Hcl Hw Hest Hn.
  assert (truthy long = true) as Htl.
  { subst long. rewrite join_replicate. by destruct w. }
  unfold _chunk_text_by_tokens. rewrite Htext, Hsplit. cbn [negb].
  cbn [Semantic.pack_parts]. rewrite Ha, Hta. cbn [negb truthy].
  destruct (Z.ltb_spec max_chunk_tokens (token_count a)) as [?|_]; [lia|].
  rewrite Z.add_0_r, Z.add_0_l.
  destruct (Z.leb_spec (token_count a) max_chunk_tokens) as [_|?]; [|lia].
  rewrite Hlong, Htl. cbn [negb app].
  destruct (Z.ltb_spec max_chunk_tokens (token_count long)) as [_|?]; [|lia].
  rewrite Hwords, pack_words_first by done.
  unfold flush, append_if. fold long. rewrite Htl. cbn [truthy join app].
  rewrite !filter_cons_True, filter_nil; [done| |].
  - by rewrite Hlong.
  - by rewrite Ha.
Qed.

End packing.

(** (C1) The floor of 500 tokens holds, the bound on the chunks does not.
    Take the text made of the part [A.], an empty line, and 300 times the
    word [1] with single spaces between, and a requested budget of at most
    500.  For every tokenizer that encodes the empty text as no token, the
    word [1] as one token, the separator followed by [1] as one token more
    than the separator, the first part as at most 500 tokens and the
    second part as 599 tokens (a token for each word and for each space),
    the chunker works with the budget 500 and returns the second part as
    one chunk of 599 tokens, though none of its words is over the budget:
    the words are counted as they would be behind the separator of two
    newlines, but they are joined by spaces, and the count is never taken
    of the joined text. *)
Theorem chunk_over_budget (token : Type) (encode : str → list token)
    (decode : list token → str) (m : Z) :
  let budget := effective_max_chunk_tokens m in
  let long := join [SP] (replicate 300 (lit "1")) in
  let text := lit "A." ++ [LF; LF] ++ long in
  (m ≤ 500)%Z → encode [] = [] →
  (token_count token encode (lit "A.") ≤ 500)%Z →
  token_count token encode (lit "1") = 1%Z →
  (token_count token encode (separator ++ lit "1")
   - token_count token encode separator = 1)%Z →
  token_count token encode long = 599%Z →
  budget = 500%Z ∧
  _chunk_text_by_tokens token encode decode budget text = [lit "A."; long] ∧
  (budget < token_count token encode long)%Z ∧
  Forall (λ word, (token_count token encode word ≤ budget)%Z) (split_ws long).
Proof.
  intros budget long text Hm Hnil Ha Hw Hest Hlong.
  assert (budget = 500%Z) as Hb by (subst budget; by apply effective_max_floor).
  split_and!; [done| |lia|].
  - rewrite Hb.
    apply (chunk_two_parts token encode decode 500 text (lit "A.") (lit "1") 299).
    all: try done.
    all: try (fold long; lia).
    all: by vm_compute.
  - replace (split_ws long) with (replicate 300 (lit "1")) by (by vm_compute).
    apply Forall_replicate. lia.
Qed.

(** A run of [chunk_over_budget]: a tokenizer that cuts a text into its
    words and its runs of whitespace. *)
Lemma chunk_over_budget_witness :
  let long := join [SP] (replicate 300 (lit "1")) in
  _chunk_text_by_tokens str Lexical.words_of join0 (effective_max_chunk_tokens 10)
    (lit "A." ++ [LF; LF] ++ long) = [lit "A."; long] ∧
  (effective_max_chunk_tokens 10 < token_count str Lexical.words_of long)%Z.
Proof.
  intros long.
  destruct (chunk_over_budget str Lexical.words_of join0 10) as (_ & Hc & Hl & _);
    [done|reflexivity|done|reflexivity|reflexivity|by vm_compute|].
  split; [exact Hc|exact Hl].
Defined.

End ChunkFacts.

(** ** More on the semantic comparison *)

Module SemanticMore.
Import Difflib Re PyFacts Semantic SemanticFacts.

Section outcome.

Variable token : Type.
Variable encode : str → exc (list token).
Variable decode : list token → str.
Variable max_chunk_tokens : Z.
Variable json_loads : str → exc json.
Variable str_json : option json → str.
Variable str_nat : nat → str.
Variable api : nat → str → str → api_result.

Local Abbreviation process_pairs := (process_pairs json_loads str_json str_nat api).
Local Abbreviation chunker :=
  (_chunk_text_by_tokens_exc token encode decode max_chunk_tokens).
Local Abbreviation compare :=
  (compare token encode decode max_chunk_tokens json_loads str_json str_nat api).

(** What holds when [compare] has returned. *)
Definition settled (b : bool) (st : state) : Prop :=
  b = success st ∧ (success st = true ↔ error_message st = None) ∧
  (success st = false →
     rendered_html st = None ∧ summary_of st = _get_default_summary).

Lemma compare_chunks_settled st chunks1 chunks2 :
  running st → rendered_html st = None → summary_of st = _get_default_summary →
  let result := compare_chunks json_loads str_json str_nat api st chunks1 chunks2 in
  settled result.1 result.2.
Proof.
  intros [Hs He] Hr Hsum. cbv zeta. unfold compare_chunks.
  destruct (_ && _); [by unfold settled|].
  pose proof (process_pairs_running token encode json_loads str_json str_nat api chunks1 chunks2
                (seq 0 (max (length chunks1) (length chunks2))) st (conj Hs He)) as Hp.
  pose proof (process_pairs_keeps token encode json_loads str_json str_nat api chunks1 chunks2
                (seq 0 (max (length chunks1) (length chunks2))) st) as Hk.
  destruct (Semantic.process_pairs _ _ _ _ _ _ st _) as [[st' [e|]]|st'];
    simpl in Hk; destruct Hk as (Hr' & Hs' & _).
  - destruct Hp as [? Hn]. simpl in *. unfold on_main_error. rewrite Hn. simpl.
    unfold settled. simpl. split_and!; [done|done|]. intros _. by rewrite Hr', Hs'.
  - destruct Hp as [Hf (msg & Hm & ?)]. simpl in *.
    unfold settled. rewrite Hf, Hm. split_and!; [done|done|]. intros _. by rewrite Hr', Hs'.
  - destruct Hp as [? Hn]. unfold calculated, rendered, settled. simpl. by rewrite Hn.
Qed.

(** Whatever the two extractions, the tokenizer and the language model
    come to, an exception of theirs included, the boolean [compare] returns
    is the [success] field; a failure leaves an error message and a success
    leaves none; and a failure leaves neither a rendering nor a summary
    other than the default one. *)
Theorem compare_settled (x1 x2 : option str * option str) :
  let result := compare x1 x2 in
  result.1 = success result.2 ∧
  (success result.2 = true ↔ error_message result.2 = None) ∧
  (success result.2 = false →
     rendered_html result.2 = None ∧ summary_of result.2 = _get_default_summary).
Proof.
  cbv zeta. fold (settled (compare x1 x2).1 (compare x1 x2).2).
  unfold compare, Semantic.compare. destruct x1 as [t1 err1], x2 as [t2 err2].
  cbv zeta. destruct (truthy_opt err1); [by unfold settled|].
  destruct (truthy_opt err2); [by unfold settled|].
  destruct t1 as [text1|], t2 as [text2|]; try by unfold settled.
  case_bool_decide; [by unfold settled|].
  destruct (_ && _); [by unfold settled|].
  destruct (chunker text1) as [e|chunks1]; simpl; [by unfold settled|].
  destruct (chunker text2) as [e|chunks2]; simpl; [by unfold settled|].
  by apply compare_chunks_settled.
Qed.

End outcome.

(** *** The summary *)

(** The words and the runs of whitespace of a text, put together again,
    are the text. *)
Lemma words_of_text t : join0 (Lexical.words_of t) = t.
Proof.
  unfold Lexical.words_of. rewrite WordDiffFacts.join0_truthy.
  apply ReFacts.pieces_text.
Qed.

(** The characters of the old text and of the new text that a block counts
    as changed. *)
Definition old_side (b : change_block) : nat :=
  match block_status b with
  | StDeleted | StModified => length (text1 b)
  | _ => 0
  end.

Definition new_side (b : change_block) : nat :=
  match block_status b with
  | StAdded | StModified => length (text2 b)
  | _ => 0
  end.

(** Along the opcodes of a modified block, what is counted as added and
    what is counted as deleted differ by as much as the two rests of the
    texts. *)
Lemma net_balance (words1 words2 : list str) i j ops acc :
  DifflibFacts.opcodes_wf words1 words2 i j ops →
  let result := fold_left (net_step words1 words2) ops acc in
  result.1 + acc.2 + length (join0 (drop i words1))
  = result.2 + acc.1 + length (join0 (drop j words2)).
Proof.
  intros Hwf. revert acc.
  induction Hwf as [|t i1 i2 j1 j2 ops ? ? ? ? Hok Hwf IH]; intros [a0 d0].
  - simpl. rewrite !drop_all. simpl. lia.
  - cbn [fold_left]. cbv zeta in IH.
    rewrite (LexicalFacts.slice_drop words1 i1 i2), (LexicalFacts.slice_drop words2 j1 j2)
      by done.
    unfold join0 in *. rewrite !concat_app, !length_app.
    assert (∀ (l : list str) k, slice l k k = []) as Hsame.
    { intros l k. unfold slice. by rewrite Nat.sub_diag. }
    destruct t; simpl in Hok |- *; unfold join0 in *.
    + destruct Hok as (_ & _ & ->).
      specialize (IH (a0, d0)). simpl in IH. lia.
    + destruct Hok as [-> _]. rewrite (Hsame words1).
      match goal with |- context [fold_left _ ops ?acc] =>
        specialize (IH acc) end. simpl in IH |- *. lia.
    + destruct Hok as [_ ->]. rewrite (Hsame words2).
      match goal with |- context [fold_left _ ops ?acc] =>
        specialize (IH acc) end. simpl in IH |- *. lia.
    + match goal with |- context [fold_left _ ops ?acc] =>
        specialize (IH acc) end. simpl in IH. lia.
Qed.

Lemma summary_step_balance s b :
  let s' := summary_step s b in
  added_chars s' + deleted_chars s + old_side b
  = deleted_chars s' + added_chars s + new_side b.
Proof.
  unfold summary_step, old_side, new_side. destruct (block_status b); simpl; try lia.
  pose proof (net_balance _ _ 0 0 _ (0, 0)
                (DifflibFacts.get_opcodes_wf (Lexical.words_of (text1 b))
                   (Lexical.words_of (text2 b)))) as Hn.
  cbv zeta in Hn. rewrite !drop_0, !words_of_text in Hn.
  destruct (fold_left _ _ _) as [a d]. simpl in *. lia.
Qed.

(** The net change of the summary is the net change of the blocks: what is
    counted as added, less what is counted as deleted, is the new text less
    the old text of the added, deleted and modified blocks. *)
Theorem summary_net_change (blocks : list change_block) :
  let summary := _calculate_summary blocks in
  added_chars summary + sum_list (old_side <$> blocks)
  = deleted_chars summary + sum_list (new_side <$> blocks).
Proof.
  cbv zeta. unfold _calculate_summary.
  destruct blocks as [|b0 blocks]; [done|]. cbn [truthy negb].
  assert (∀ bs s,
    added_chars (fold_left summary_step bs s) + deleted_chars s
      + sum_list (old_side <$> bs)
    = deleted_chars (fold_left summary_step bs s) + added_chars s
      + sum_list (new_side <$> bs)) as Hfold.
  { induction bs as [|b bs IH]; intros s; [simpl; lia|].
    cbn [fold_left]. rewrite !fmap_cons. cbn [sum_list sum_list_with].
    pose proof (IH (summary_step s b)). pose proof (summary_step_balance s b).
    cbv zeta in *. simpl. lia. }
  specialize (Hfold (b0 :: blocks) _get_default_summary). simpl in Hfold |- *. lia.
Qed.

(** The sum of two summaries, counter by counter. *)
Definition summary_add (s1 s2 : summary) : summary :=
  {| added_chars := added_chars s1 + added_chars s2;
     deleted_chars := deleted_chars s1 + deleted_chars s2;
     modified_blocks := modified_blocks s1 + modified_blocks s2;
     modified_chars := modified_chars s1 + modified_chars s2 |}.

Lemma summary_add_default s : summary_add s _get_default_summary = s.
Proof. destruct s. unfold summary_add. simpl. f_equal; lia. Qed.

Lemma summary_step_add s b :
  summary_step s b = summary_add s (summary_step _get_default_summary b).
Proof.
  unfold summary_step, summary_add. destruct (block_status b); simpl.
  - destruct s. simpl. f_equal; lia.
  - f_equal; lia.
  - f_equal; lia.
  - destruct (fold_left _ _ _). simpl. f_equal; lia.
Qed.

Lemma summary_fold_add bs s :
  fold_left summary_step bs s
  = summary_add s (fold_left summary_step bs _get_default_summary).
Proof.
  revert s. induction bs as [|b bs IH]; intros s.
  - simpl. by rewrite summary_add_default.
  - cbn [fold_left]. rewrite IH, (IH (summary_step _ b)), (summary_step_add s b).
    unfold summary_add. simpl. f_equal; lia.
Qed.

(** The summary of a list of blocks that was put together from two lists
    is the sum of the two summaries, and equal blocks count nothing: so the
    summary of a comparison is the sum over its chunk pairs. *)
Theorem summary_of_concatenation (blocks1 blocks2 : list change_block) :
  _calculate_summary (blocks1 ++ blocks2)
  = summary_add (_calculate_summary blocks1) (_calculate_summary blocks2) ∧
  (Forall (λ b, block_status b = StEqual) blocks1 →
   _calculate_summary blocks1 = _get_default_summary).
Proof.
  split.
  - assert (∀ bs, _calculate_summary bs
                  = fold_left summary_step bs _get_default_summary) as Hc.
    { intros bs. unfold _calculate_summary. by destruct bs. }
    rewrite !Hc, fold_left_app. apply summary_fold_add.
  - intros Hall. unfold _calculate_summary. destruct blocks1 as [|b bs]; [done|].
    cbn [truthy negb]. induction Hall as [|b' bs' Hb _ IH]; [done|].
    cbn [fold_left]. unfold summary_step at 2. by rewrite Hb.
Qed.

(** *** The answer of the language model, validated *)

Section validation.

Variable json_loads : str → exc json.
Variable str_json : option json → str.
Variable str_nat : nat → str.

Local Abbreviation validate_block := (validate_block str_json str_nat).
Local Abbreviation validate_blocks := (validate_blocks str_json str_nat).
Local Abbreviation parse_response := (parse_response json_loads str_json str_nat).

(** A validated block against the item it was read from. *)
Definition reads (item : json) (b : change_block) : Prop :=
  ∃ fields t1 t2,
    item = JObj fields ∧
    status_of (obj_get fields (lit "status")) = Some (block_status b) ∧
    text_of (obj_get fields (lit "text1")) = Some t1 ∧
    text_of (obj_get fields (lit "text2")) = Some t2 ∧
    text1 b = (if bool_decide (block_status b = StAdded) then [] else t1) ∧
    text2 b = (if bool_decide (block_status b = StDeleted) then [] else t2).

Lemma validate_block_reads i item b : validate_block i item = Ret b → reads item b.
Proof.
  unfold Semantic.validate_block. destruct item as [| | | | |fields]; try done.
  cbv zeta.
  destruct (status_of _) as [st|] eqn:Es; [|done].
  destruct (text_of (obj_get fields (lit "text1"))) as [t1|] eqn:E1; [|done].
  destruct (text_of (obj_get fields (lit "text2"))) as [t2|] eqn:E2; [|done].
  intros [= <-]. by exists fields, t1, t2.
Qed.

Lemma validate_blocks_reads i items blocks :
  validate_blocks i items = Ret blocks → Forall2 reads items blocks.
Proof.
  revert i blocks. induction items as [|item items IH]; intros i blocks; simpl.
  - by intros [= <-].
  - destruct (Semantic.validate_block _ _ i item) as [e|b] eqn:Eb; [done|].
    destruct (Semantic.validate_blocks _ _ (S i) items) as [e|bs] eqn:Ebs; [done|].
    intros [= <-]. constructor; [by eapply validate_block_reads|by eapply IH].
Qed.

(** When the answer is accepted, it is a JSON object whose key
    [change_blocks] holds an array, and the blocks are the items of that
    array, one for one and in order: each item is an object with a valid
    status and with texts that are strings or missing; a missing text reads
    as the empty string; the new text of a deleted block and the old text of
    an added block are made empty. *)
Theorem accepted_answer (raw : str) (blocks : list change_block) :
  parse_response raw = Ret blocks →
  ∃ fields items,
    json_loads raw = Ret (JObj fields) ∧
    obj_get fields (lit "change_blocks") = Some (JArr items) ∧
    Forall2 reads items blocks ∧
    length blocks = length items ∧
    Forall (λ b, (block_status b = StDeleted → text2 b = [])
                 ∧ (block_status b = StAdded → text1 b = [])) blocks.
Proof.
  unfold Semantic.parse_response.
  destruct (json_loads raw) as [e|[| | | | |fields]]; try done.
  destruct (obj_get fields (lit "change_blocks")) as [[| | | |items|]|] eqn:Ek; try done.
  intros Hv%validate_blocks_reads. exists fields, items.
  split_and!; [done|done|done|symmetry; by eapply Forall2_length|].
  clear Ek. induction Hv as [|item b items blocks Hr _ IH]; [done|].
  constructor; [|done]. destruct Hr as (f & t1 & t2 & _ & _ & _ & _ & H1 & H2).
  split; intros Hs; rewrite Hs in *; by simpl in *.
Qed.

(** The first item that fails a check fails the whole answer: the items
    before it passed, and the error is the one of that item, with its
    index. *)
Theorem rejected_item (i : nat) (items : list json) (e : str) :
  validate_blocks i items = Raise e →
  ∃ k item,
    items !! k = Some item ∧ validate_block (i + k) item = Raise e ∧
    ∀ k' item', k' < k → items !! k' = Some item' →
      ∃ b, validate_block (i + k') item' = Ret b.
Proof.
  revert i. induction items as [|item items IH]; intros i; simpl; [done|].
  destruct (Semantic.validate_block _ _ i item) as [e'|b] eqn:Eb.
  - intros [= ->]. exists 0, item. rewrite Nat.add_0_r.
    split_and!; [done|done|]. intros k' item' Hk. lia.
  - destruct (Semantic.validate_blocks _ _ (S i) items) as [e'|bs] eqn:Ebs; [|done].
    intros [= ->]. destruct (IH _ Ebs) as (k & it & Hk & Hv & Hbefore).
    exists (S k), it. replace (i + S k) with (S i + k) by lia.
    split_and!; [done|done|]. intros [|k'] item' Hlt Hl.
    + simpl in Hl. simplify_eq. rewrite Nat.add_0_r. by exists b.
    + replace (i + S k') with (S i + k') by lia. apply (Hbefore k' item'); [lia|done].
Qed.

End validation.

(** An answer with one deleted block that carries a new text all the
    same, and a list of items whose second one is a number. *)
Definition sample_items : list json :=
  [JObj [(lit "status", JStr (lit "deleted")); (lit "text1", JStr (lit "x"));
         (lit "text2", JStr (lit "y"))]].

Definition sample_answer : json := JObj [(lit "change_blocks", JArr sample_items)].

Lemma accepted_answer_witness :
  ∃ fields items,
    Ret sample_answer = Ret (JObj fields) ∧
    obj_get fields (lit "change_blocks") = Some (JArr items) ∧
    Forall2 reads items
      [{| block_status := StDeleted; text1 := lit "x"; text2 := [] |}] ∧
    1 = length items ∧
    Forall (λ b, (block_status b = StDeleted → text2 b = [])
                 ∧ (block_status b = StAdded → text1 b = []))
      [{| block_status := StDeleted; text1 := lit "x"; text2 := [] |}].
Proof.
  apply (accepted_answer (λ _, Ret sample_answer) (λ _, []) (λ _, []) []). reflexivity.
Defined.

Lemma rejected_item_witness :
  ∃ k item,
    (sample_items ++ [JNum 3]) !! k = Some item ∧
    validate_block (λ _, []) (λ _, lit "1") (0 + k) item
      = Raise (lit "Block 1 is not a JSON object.") ∧
    ∀ k' item', k' < k → (sample_items ++ [JNum 3]) !! k' = Some item' →
      ∃ b, validate_block (λ _, []) (λ _, lit "1") (0 + k') item' = Ret b.
Proof.
  apply (rejected_item (λ _, []) (λ _, lit "1") 0 (sample_items ++ [JNum 3])).
  reflexivity.
Defined.

End SemanticMore.

(** ** More on the token chunker *)

Module ChunkMore.
Import Difflib Re PyFacts Semantic.

Lemma join_snoc (sep : str) (l : list str) x :
  l ≠ [] → join sep (l ++ [x]) = join sep l ++ sep ++ x.
Proof.
  induction l as [|y l IH]; [done|]. intros _.
  destruct l as [|z l]; [done|].
  change (join sep ((y :: z :: l) ++ [x])) with (y ++ sep ++ join sep ((z :: l) ++ [x])).
  rewrite IH by done.
  change (join sep (y :: z :: l)) with (y ++ sep ++ join sep (z :: l)).
  by rewrite <- !app_assoc.
Qed.

Section budget.

Variable token : Type.
Variable encode : str → list token.
Variable decode : list token → str.
Variable max_chunk_tokens : Z.

Local Abbreviation token_count := (token_count token encode).
Local Abbreviation pack_parts := (pack_parts token encode decode max_chunk_tokens).

(** The tokenizer counts a text joined by the separator as no more than
    its two sides and the separator. *)
Definition subadditive : Prop :=
  ∀ x y, (token_count (x ++ separator ++ y)
          ≤ token_count x + separator_tokens token encode + token_count y)%Z.

(** The running count covers the parts that are waiting. *)
Definition covered (current_chunk_parts : list str) (current_token_count : Z) : Prop :=
  (current_chunk_parts = [] ∧ current_token_count = 0%Z)
  ∨ (current_chunk_parts ≠ []
     ∧ (token_count (join separator current_chunk_parts) ≤ current_token_count)%Z
     ∧ (current_token_count ≤ max_chunk_tokens)%Z).

Lemma flush_within chunks current count :
  Forall (λ c, (token_count c ≤ max_chunk_tokens)%Z) chunks →
  covered current count →
  Forall (λ c, (token_count c ≤ max_chunk_tokens)%Z) (flush chunks current).
Proof.
  intros Hc Hcov. unfold flush. destruct current as [|p current]; [done|].
  destruct Hcov as [[? _]|(_ & ? & ?)]; [done|].
  apply Forall_app. split; [done|]. constructor; [lia|done].
Qed.

Lemma pack_parts_within parts chunks current count :
  subadditive →
  Forall (λ p, (token_count (strip p) ≤ max_chunk_tokens)%Z) parts →
  Forall (λ c, (token_count c ≤ max_chunk_tokens)%Z) chunks →
  covered current count →
  Forall (λ c, (token_count c ≤ max_chunk_tokens)%Z)
    (pack_parts parts chunks current count).
Proof.
  intros Hsub Hparts. revert chunks current count.
  induction Hparts as [|p parts Hp _ IH]; intros chunks current count Hc Hcov.
  { by apply (flush_within _ _ count). }
  cbn [Semantic.pack_parts]. cbv zeta.
  destruct (truthy (strip p)) eqn:Ht; [|by apply IH]. cbn [negb].
  destruct (Z.ltb_spec max_chunk_tokens (token_count (strip p))) as [?|_]; [lia|].
  match goal with |- context [Z.leb ?a ?b] => destruct (Z.leb_spec a b) as [Hle|Hgt] end.
  - apply IH; [done|]. right. split; [by destruct current|]. split; [|done].
    destruct Hcov as [[-> ->]|(Hne & Hcur & _)]; [simpl; lia|].
    rewrite join_snoc by done. destruct current as [|q current]; [done|].
    cbn [truthy] in *.
    pose proof (Hsub (join separator (q :: current)) (strip p)). lia.
  - apply IH; [by apply (flush_within _ _ count)|].
    right. split; [done|]. simpl. lia.
Qed.

(** Where no part is over the budget and the tokenizer is subadditive, no
    chunk is over the budget: the count that is kept for the waiting parts
    is then never below the count of their joined text. *)
Theorem chunks_within_budget (text : str) :
  subadditive →
  Forall (λ p, (token_count (strip p) ≤ max_chunk_tokens)%Z) (split_parts text) →
  Forall (λ c, (token_count c ≤ max_chunk_tokens)%Z)
    (_chunk_text_by_tokens token encode decode max_chunk_tokens text).
Proof.
  intros Hsub Hparts. unfold _chunk_text_by_tokens.
  destruct (truthy text); [|done]. cbn [negb].
  assert (Forall (λ c, (token_count c ≤ max_chunk_tokens)%Z)
            (pack_parts (split_parts text) [] [] 0)) as Hall.
  { apply pack_parts_within; [done|done|done|by left]. }
  rewrite Forall_forall in Hall. apply Forall_forall.
  intros c [_ Hc]%list_elem_of_filter. by apply Hall.
Qed.

(** No chunk is blank, and a blank text has no chunk. *)
Theorem chunks_not_blank (text : str) :
  Forall (λ c, blank c = false)
    (_chunk_text_by_tokens token encode decode max_chunk_tokens text) ∧
  (blank text = true →
   _chunk_text_by_tokens token encode decode max_chunk_tokens text = []).
Proof.
  split.
  - unfold _chunk_text_by_tokens. destruct (truthy text); [|done]. cbn [negb].
    apply Forall_forall. intros c [Hc _]%list_elem_of_filter.
    rewrite strip_blank in Hc. by apply negb_true_iff in Hc.
  - intros Hb%strip_nil_blank. unfold _chunk_text_by_tokens, split_parts.
    rewrite Hb. by destruct (truthy text).
Qed.

End budget.

(** A run of [chunks_within_budget]: every character is a token. *)
Lemma chunks_within_budget_witness :
  Forall (λ c, (token_count ascii id c ≤ 500)%Z)
    (_chunk_text_by_tokens ascii id id 500 (lit "One." ++ [LF; LF] ++ lit "Two.")).
Proof.
  apply chunks_within_budget.
  - intros x y. unfold Semantic.token_count, separator_tokens, Semantic.token_count, id.
    rewrite !length_app. lia.
  - repeat (constructor; [by vm_compute|]). constructor.
Defined.

End ChunkMore.

(** ** The chunker and the exceptions of the tokenizer *)

Module ChunkRaising.
Import Difflib Re PyFacts Semantic.

Section total.

Variable token : Type.
Variable encode : str → list token.
Variable decode : list token → str.
Variable max_chunk_tokens : Z.

(** A tokenizer that takes every text. *)
Definition never_raises : str → exc (list token) := λ s, Ret (encode s).

Lemma token_count_exc_total s :
  token_count_exc token never_raises s = Ret (token_count token encode s).
Proof. done. Qed.

Lemma pack_words_exc_total words chunks sub_chunk sub_chunk_tokens :
  pack_words_exc token never_raises decode max_chunk_tokens words chunks sub_chunk
    sub_chunk_tokens
  = Ret (pack_words token encode decode max_chunk_tokens words chunks sub_chunk
           sub_chunk_tokens).
Proof.
  revert chunks sub_chunk sub_chunk_tokens.
  induction words as [|word words IH]; intros chunks sub_chunk sub_chunk_tokens; [done|].
  cbn [pack_words_exc pack_words]. rewrite !token_count_exc_total.
  cbn [mbind exc_bind]. cbv zeta.
  destruct (_ <=? max_chunk_tokens)%Z; [apply IH|].
  destruct (_ <=? max_chunk_tokens)%Z; [apply IH|].
  unfold never_raises at 1. cbn [mbind exc_bind]. apply IH.
Qed.

Lemma pack_parts_exc_total parts chunks current_chunk_parts current_token_count :
  pack_parts_exc token never_raises decode max_chunk_tokens
    (separator_tokens token encode) parts chunks current_chunk_parts
    current_token_count
  = Ret (pack_parts token encode decode max_chunk_tokens parts chunks
           current_chunk_parts current_token_count).
Proof.
  revert chunks current_chunk_parts current_token_count.
  induction parts as [|part parts IH];
    intros chunks current_chunk_parts current_token_count; [done|].
  cbn [pack_parts_exc pack_parts]. cbv zeta.
  destruct (negb (truthy (strip part))); [apply IH|].
  rewrite token_count_exc_total. cbn [mbind exc_bind].
  destruct (max_chunk_tokens <? _)%Z.
  - rewrite pack_words_exc_total. cbn [mbind exc_bind].
    destruct (pack_words _ _ _ _ _ _ _ _) as [chunks' sub_chunk]. apply IH.
  - destruct (_ <=? max_chunk_tokens)%Z; apply IH.
Qed.

(** With a tokenizer that takes every text the chunker of [compare]
    returns, and returns the chunks of [_chunk_text_by_tokens]. *)
Lemma chunker_without_exception text :
  _chunk_text_by_tokens_exc token never_raises decode max_chunk_tokens text
  = Ret (_chunk_text_by_tokens token encode decode max_chunk_tokens text).
Proof.
  unfold _chunk_text_by_tokens_exc, _chunk_text_by_tokens.
  destruct (negb (truthy text)); [done|]. cbv zeta.
  rewrite token_count_exc_total. cbn [mbind exc_bind].
  change (token_count token encode separator) with (separator_tokens token encode).
  by rewrite pack_parts_exc_total.
Qed.

End total.

Section failure.

Variable token : Type.
Variable encode : str → exc (list token).
Variable decode : list token → str.
Variable max_chunk_tokens : Z.
Variable json_loads : str → exc json.
Variable str_json : option json → str.
Variable str_nat : nat → str.
Variable api : nat → str → str → api_result.

Local Abbreviation chunker :=
  (_chunk_text_by_tokens_exc token encode decode max_chunk_tokens).
Local Abbreviation compare :=
  (compare token encode decode max_chunk_tokens json_loads str_json str_nat api).

(** The loop over the parts does not get past a part the tokenizer does
    not take. *)
Lemma pack_parts_exc_raises separator_tokens parts chunks current_chunk_parts
    current_token_count part e :
  part ∈ parts → strip part ≠ [] → encode (strip part) = Raise e →
  ∃ e', pack_parts_exc token encode decode max_chunk_tokens separator_tokens parts
          chunks current_chunk_parts current_token_count = Raise e'.
Proof.
  intros Hin Hne He. revert chunks current_chunk_parts current_token_count.
  induction parts as [|p parts IH]; intros chunks current_chunk_parts current_token_count;
    [by apply elem_of_nil in Hin|].
  cbn [pack_parts_exc]. cbv zeta.
  apply elem_of_cons in Hin as [<-|Hin].
  - destruct (strip part) eqn:E; [done|]. cbn [truthy negb].
    unfold token_count_exc. rewrite He. by eexists.
  - destruct (negb (truthy (strip p))); [by apply IH|].
    destruct (token_count_exc token encode (strip p)) as [e1|n]; [by eexists|].
    cbn [mbind exc_bind]. destruct (max_chunk_tokens <? n)%Z.
    + destruct (pack_words_exc _ _ _ _ _ _ _ _) as [e2|packed]; [by eexists|].
      cbn [mbind exc_bind]. by apply IH.
    + destruct (_ <=? max_chunk_tokens)%Z; by apply IH.
Qed.

(** Chunking a text raises when the tokenizer raises on one of the parts
    the text is split into. *)
Lemma chunker_raises text part e :
  part ∈ split_parts text → strip part ≠ [] → encode (strip part) = Raise e →
  ∃ e', chunker text = Raise e'.
Proof.
  intros Hin Hne He. unfold _chunk_text_by_tokens_exc.
  destruct text as [|c text].
  { exfalso. vm_compute in Hin. inversion Hin. }
  cbn [truthy negb]. cbv zeta.
  destruct (token_count_exc token encode separator) as [e1|n]; [by eexists|].
  cbn [mbind exc_bind].
  destruct (pack_parts_exc_raises n (split_parts (c :: text)) [] [] 0%Z part e Hin Hne He)
    as [e' ->].
  by eexists.
Qed.

(** When the tokenizer raises on a part of one of the two texts,
    [compare] returns False: [success] is False, the message names the
    chunking and carries the text of the exception that ended it, no block
    has been made and no call. *)
Theorem chunking_failure (text1 text2 part e : str) :
  text1 ≠ text2 → strip text1 ≠ [] ∨ strip text2 ≠ [] →
  part ∈ split_parts text1 ∨ part ∈ split_parts text2 →
  strip part ≠ [] → encode (strip part) = Raise e →
  ∃ st e',
    compare (Some text1, None) (Some text2, None) = (false, st) ∧
    (chunker text1 = Raise e'
     ∨ (∃ chunks1, chunker text1 = Ret chunks1) ∧ chunker text2 = Raise e') ∧
    success st = false ∧
    error_message st = Some (lit "Error during text chunking: " ++ e') ∧
    text1_raw st = Some text1 ∧ text2_raw st = Some text2 ∧
    all_change_blocks st = [] ∧ rendered_html st = None ∧
    summary_of st = _get_default_summary ∧
    api_call_counter st = 0 ∧ calls st = [].
Proof.
  intros Hne Hblank Hin Hp He. unfold compare, Semantic.compare. simpl.
  rewrite bool_decide_eq_false_2 by done.
  assert (negb (truthy (strip text1)) && negb (truthy (strip text2)) = false) as ->.
  { destruct Hblank as [H|H]; [destruct (strip text1)|destruct (strip text2)];
      by rewrite ?andb_false_r. }
  destruct (chunker text1) as [e1|chunks1] eqn:E1; simpl.
  { exists (set_error (set_raw (set_raw reset (Some text1) None) (Some text1) (Some text2))
              (lit "Error during text chunking: " ++ e1)), e1.
    split_and!; try done. by left. }
  destruct Hin as [Hin|Hin].
  { destruct (chunker_raises text1 part e Hin Hp He) as [e' He']. congruence. }
  destruct (chunker_raises text2 part e Hin Hp He) as [e' ->]. simpl.
  eexists _, e'. split_and!; try done. right. split; [by eexists|done].
Qed.

End failure.

(** A tokenizer that raises on a less-than sign, as [tiktoken] does on the
    name of a special token. *)
Definition sample_encode (s : str) : exc (list ascii) :=
  if bool_decide ("<"%char ∈ s) then Raise (lit "disallowed special token") else Ret s.

Lemma chunking_failure_witness :
  ∃ st,
    Semantic.compare ascii sample_encode id 500 (λ _, Raise []) (λ _, []) (λ _, [])
      (λ _ _ _, RateLimitError [])
      (Some (lit "one. <|endoftext|>"), None) (Some (lit "two"), None) = (false, st) ∧
    success st = false ∧
    error_message st
    = Some (lit "Error during text chunking: disallowed special token") ∧
    all_change_blocks st = [] ∧ api_call_counter st = 0.
Proof.
  destruct (chunking_failure ascii sample_encode id 500 (λ _, Raise []) (λ _, [])
              (λ _, []) (λ _ _ _, RateLimitError [])
              (lit "one. <|endoftext|>") (lit "two") (lit "<|endoftext|>")
              (lit "disallowed special token"))
    as (st & e' & H1 & Hc & H2 & H3 & _ & _ & H4 & _ & _ & H5 & _).
  - discriminate.
  - left. discriminate.
  - left. vm_compute. apply list_elem_of_further, list_elem_of_here.
  - discriminate.
  - reflexivity.
  - exists st. destruct Hc as [Hc|[_ Hc]]; vm_compute in Hc; simplify_eq.
    split_and!; [exact H1|exact H2|exact H3|exact H4|exact H5].
Defined.

End ChunkRaising.

(** ** More on the lexical comparison *)

Module LexicalMore.
Import Difflib DifflibFacts Re ReFacts PyFacts Lexical LexicalFacts NormalizeFacts.

(** *** The lines of a text *)

(** In a squeezed text a whitespace character is a space, and what follows
    it is no whitespace. *)
Lemma squeezed_lookup x i c :
  squeezed x = true → x !! i = Some c → isspace c = true →
  c = SP ∧ ∀ d, x !! S i = Some d → isspace d = false.
Proof.
  revert i. induction x as [|e x IH]; intros i; [done|]. simpl.
  intros [He Hx]%andb_true_iff. destruct i as [|i]; [|by apply IH].
  simpl. intros [= ->] Hc. rewrite Hc in He.
  apply andb_true_iff in He as [->%bool_decide_eq_true Hh]. split; [done|].
  intros d Hd. destruct x as [|f x]; [done|]. simpl in *. simplify_eq.
  by apply negb_true_iff.
Qed.

(** Every line that [_preprocess_text] returns is clean: it is not empty, it
    begins and ends with a character that is no whitespace, its only
    whitespace is single spaces, it holds no line boundary, and the options
    are in force: no capital letter is left when the case is ignored, no
    punctuation when the punctuation is.  Without a text there are no
    lines. *)
Theorem preprocessed_lines_clean (o : options) (raw_text : str) :
  _preprocess_text o None = None ∧
  ∃ lines,
    _preprocess_text o (Some raw_text) = Some lines ∧
    Forall (λ x,
      x ≠ [] ∧ strip x = x ∧ head_solid x = true ∧
      (∀ c, last x = Some c → isspace c = false) ∧
      (∀ i c, x !! i = Some c → isspace c = true →
         c = SP ∧ ∃ d, x !! S i = Some d ∧ isspace d = false) ∧
      Forall (λ c, is_linebreak c = false) x ∧
      (ignore_case o = true → lower x = x) ∧
      (ignore_punctuation o = true → Forall (λ c, is_punctuation c = false) x))
      lines.
Proof.
  split; [done|]. eexists. split; [done|].
  eapply Forall_impl; [apply processed_lines_normal|].
  intros x [Hn Hx]. pose proof Hn as (Hsq & Hst & Hc & Hp).
  assert (∀ c, last x = Some c → isspace c = false) as Hlast.
  { intros c Hl. rewrite <- Hst in Hl. by apply strip_last in Hl. }
  split_and!; [done|done| |done| |by eapply normal_no_linebreak|done|].
  - rewrite <- Hst. unfold strip. apply rstrip_solid, lstrip_solid.
  - intros i c Hi Hws. destruct (squeezed_lookup x i c Hsq Hi Hws) as [-> Hnext].
    split; [done|]. destruct (x !! S i) as [d|] eqn:Hd; [by exists d; auto|].
    exfalso. apply lookup_ge_None in Hd.
    assert (last x = Some SP) as Hl.
    { rewrite last_lookup. rewrite <- Hi. f_equal.
      apply lookup_lt_Some in Hi. lia. }
    by apply Hlast in Hl.
  - intros Hpo. rewrite <- (Hp Hpo). apply remove_punctuation_clean.
Qed.

(** *** The fields [compare] leaves *)

(** When neither the preprocessing nor the diff raises, the boolean
    [compare] returns is the [success] field; a failure leaves an error
    message and a success leaves none; the raw texts are reported identical
    only when no option is on and they are equal; identical documents have
    no diff and an all-zero summary, and a success that is not identical
    has a diff. *)
Theorem compare_fields (o : options) (x1 x2 : option str * option str) :
  let result := compare o x1 x2 in
  let st := result.2 in
  result.1 = success st ∧
  (success st = true ↔ error_message st = None) ∧
  (is_identical_raw st = true →
     is_identical st = true ∧
     ignore_case o || ignore_punctuation o || de_hyphenate o = false ∧
     text1_raw st = text2_raw st) ∧
  (is_identical st = true →
     success st = true ∧ diff_html st = None ∧ summary_of st = zero_summary) ∧
  (success st = true → is_identical st = false → ∃ html, diff_html st = Some html).
Proof.
  destruct x1 as [t1 err1], x2 as [t2 err2].
  unfold compare, compare_with. cbv zeta.
  destruct (truthy_opt err1); [simpl; by split_and!|].
  destruct (truthy_opt err2); [simpl; by split_and!|].
  unfold compare_texts. cbn [text1_raw text2_raw set_raw].
  destruct t1 as [t1|], t2 as [t2|]; try (simpl; by split_and!).
  destruct (negb (ignore_case o || ignore_punctuation o || de_hyphenate o)
            && bool_decide (t1 = t2)) eqn:Hraw.
  { apply andb_true_iff in Hraw as [Ho%negb_true_iff ->%bool_decide_eq_true].
    simpl. by split_and!. }
  cbn [_preprocess_text text1_raw text2_raw set_processed set_raw].
  match goal with |- context [bool_decide (?l1 = ?l2)] =>
    destruct (bool_decide (l1 = l2)) eqn:Heq end.
  - simpl. rewrite andb_false_r. by split_and!.
  - destruct (_generate_diff_html_with_word_level _ _) as [html s].
    simpl. split_and!; try done. intros _ _. by exists html.
Qed.

(** *** How many lines the diff shows *)

Lemma replace_rounds_length (a b : list str) i1 i2 j1 j2 :
  Forall (λ l, l ≠ []) a → Forall (λ l, l ≠ []) b →
  i2 ≤ length a → j2 ≤ length b →
  length (flat_map (replace_round a b i1 j1 (i2 - i1) (j2 - j1))
            (seq 0 (max (i2 - i1) (j2 - j1))))
  = max (i2 - i1) (j2 - j1).
Proof.
  intros Ha Hb ? ?.
  assert (∀ n k, k + n ≤ max (i2 - i1) (j2 - j1) →
    length (flat_map (replace_round a b i1 j1 (i2 - i1) (j2 - j1)) (seq k n)) = n)
    as Hlen; [|by apply Hlen].
  induction n as [|n IH]; intros k Hk; [done|]. simpl.
  rewrite length_app, IH by lia.
  rewrite replace_round_paired, paired_render_one by (done || lia). done.
Qed.

(** What the opcodes from a position on add up to: the equal lines [e],
    the added and the deleted lines, the lines [r1] and [r2] of the two
    sides of the replaced spans, and the modified lines [m]. *)
Lemma diff_steps_account (a b : list str) i j ops st0 :
  Forall (λ l, l ≠ []) a → Forall (λ l, l ≠ []) b →
  opcodes_wf a b i j ops →
  let st := fold_left (diff_step a b) ops st0 in
  ∃ e added deleted r1 r2 m,
    length a - i = e + deleted + r1 ∧ length b - j = e + added + r2 ∧
    r1 ≤ m ∧ r2 ≤ m ∧ m ≤ r1 + r2 ∧
    lines_added (count st) = lines_added (count st0) + added ∧
    lines_deleted (count st) = lines_deleted (count st0) + deleted ∧
    lines_modified (count st) = lines_modified (count st0) + m ∧
    length (html_out st) = length (html_out st0) + e + added + deleted + m.
Proof.
  intros Ha Hb Hwf. revert st0.
  induction Hwf as [|t i1 i2 j1 j2 ops Hi1 Hi2 Hj1 Hj2 Hok Hwf IH]; intros st0.
  { exists 0, 0, 0, 0, 0, 0. simpl. lia. }
  cbn [fold_left]. cbv zeta in IH.
  destruct (IH (diff_step a b st0 (t, i1, i2, j1, j2)))
    as (e & ad & de & r1 & r2 & m & E1 & E2 & E3 & E4 & E5 & E6 & E7 & E8 & E9).
  rewrite E6, E7, E8, E9. clear IH E6 E7 E8 E9.
  assert (i2 ≤ length a ∧ j2 ≤ length b) as [? ?] by done.
  destruct t; simpl in Hok |- *.
  - destruct Hok as (? & ? & Hs). apply (f_equal length) in Hs.
    rewrite !slice_length in Hs by done.
    exists (e + (i2 - i1)), ad, de, r1, r2, m.
    rewrite length_app, length_fmap, slice_length by done. lia.
  - destruct Hok as [-> ?].
    exists e, (ad + (j2 - j1)), de, r1, r2, m.
    rewrite length_app, length_fmap, !slice_length by done. lia.
  - destruct Hok as [? ->].
    exists e, ad, (de + (i2 - i1)), r1, r2, m.
    rewrite length_app, length_fmap, !slice_length by done. lia.
  - destruct Hok as [? ?].
    exists e, ad, de, (r1 + (i2 - i1)), (r2 + (j2 - j1)), (m + max (i2 - i1) (j2 - j1)).
    rewrite length_app, replace_rounds_length by done. lia.
Qed.

(** For two sequences of non-empty lines, as preprocessing yields them,
    the diff is the list [html_out] of the rendered lines, joined by
    newlines, and the summary is the counters of the loop.  That list has at
    least as many lines as the longer sequence and at most as many as both
    have together; no more lines are counted as added than the B side has,
    nor as deleted than the A side has; and the three counters together are
    no more than the rendered lines. *)
Theorem diff_line_counts (a b : list str) :
  Forall (λ l, l ≠ []) a → Forall (λ l, l ≠ []) b →
  let st := fold_left (diff_step a b) (get_opcodes a b)
              {| html_out := []; count := zero_summary |} in
  let result := _generate_diff_html_with_word_level a b in
  result = (join [LF] (html_out st), count st) ∧
  max (length a) (length b) ≤ length (html_out st) ∧
  length (html_out st) ≤ length a + length b ∧
  lines_added result.2 ≤ length b ∧
  lines_deleted result.2 ≤ length a ∧
  lines_added result.2 + lines_deleted result.2 + lines_modified result.2
    ≤ length (html_out st).
Proof.
  intros Ha Hb. cbv zeta. unfold _generate_diff_html_with_word_level. cbv zeta.
  destruct (diff_steps_account a b 0 0 (get_opcodes a b)
              {| html_out := []; count := zero_summary |} Ha Hb (get_opcodes_wf a b))
    as (e & ad & de & r1 & r2 & m & H1 & H2 & H3 & H4 & H5 & H6 & H7 & H8 & H9).
  split; [done|]. cbn [fst snd] in *. simpl in H6, H7, H8, H9. lia.
Qed.

(** A run of [diff_line_counts]: two lines against three. *)
Lemma diff_line_counts_witness :
  let a := [lit "a"; lit "b"] in
  let b := [lit "a"; lit "c"; lit "d"] in
  let st := fold_left (diff_step a b) (get_opcodes a b)
              {| html_out := []; count := zero_summary |} in
  _generate_diff_html_with_word_level a b = (join [LF] (html_out st), count st) ∧
  3 ≤ length (html_out st) ∧ length (html_out st) ≤ 5 ∧
  lines_added (count st) + lines_deleted (count st) + lines_modified (count st)
    ≤ length (html_out st).
Proof.
  intros a b st.
  destruct (diff_line_counts a b) as (H1 & H2 & H3 & _ & _ & H6);
    [by repeat constructor|by repeat constructor|].
  split_and!; [exact H1|exact H2|exact H3|exact H6].
Defined.

End LexicalMore.

(** ** Text extraction *)

Module UtilsFacts.
Import Re ReFacts PyFacts Utils.

(** *** The extension of a file name *)

Lemma split_char_from_plain sep w cur :
  sep ∉ w → split_char_from sep w cur = [cur ++ w].
Proof.
  revert cur. induction w as [|c w IH]; intros cur Hw.
  - simpl. by rewrite app_nil_r.
  - apply not_elem_of_cons in Hw as [Hc Hw]. simpl.
    rewrite bool_decide_eq_false_2 by done. rewrite IH by done.
    by rewrite <- app_assoc.
Qed.

Lemma split_char_from_cons sep s cur : split_char_from sep s cur ≠ [].
Proof.
  revert cur. induction s as [|c s IH]; intros cur; simpl; [done|].
  destruct (bool_decide (c = sep)); [done|apply IH].
Qed.

(** What stands behind the last dot of a name is its last field. *)
Lemma split_char_last sep stem w :
  sep ∉ w → List.last (split_char sep (stem ++ sep :: w)) [] = w.
Proof.
  intros Hw. unfold split_char. generalize (@nil ascii) at 1 as cur.
  induction stem as [|c stem IH]; intros cur.
  - simpl. rewrite bool_decide_eq_true_2 by done.
    by rewrite split_char_from_plain.
  - simpl. destruct (bool_decide (c = sep)); [|apply IH].
    specialize (IH []).
    destruct (split_char_from sep (stem ++ sep :: w) []) eqn:E; [|done].
    by apply split_char_from_cons in E.
Qed.

Lemma lower_dot s : "."%char ∈ lower s → "."%char ∈ s.
Proof.
  unfold lower. intros (c & Hc & Hin)%list_elem_of_fmap.
  assert (c = "."%char) as <-; [|done].
  symmetry in Hc. revert Hc.
  destruct c as [[] [] [] [] [] [] [] []]; vm_compute; (discriminate || done).
Qed.

(** The extension that [extract_text_from_file] reads off a name that ends,
    in whatever case, with a dot and [ext]. *)
Lemma file_ext_of stem ext file_name :
  lower file_name = stem ++ "."%char :: ext → "."%char ∉ ext →
  (if bool_decide ("."%char ∈ file_name)
   then List.last (split_char "." (lower file_name)) [] else []) = ext.
Proof.
  intros Hn He. rewrite bool_decide_eq_true_2.
  - rewrite Hn. by apply split_char_last.
  - apply lower_dot. rewrite Hn. apply elem_of_app. right. apply list_elem_of_here.
Qed.

(** *** Line ends *)

Lemma replace_char_gone old new s : old ∉ new → old ∉ replace_char old new s.
Proof.
  intros Hn. induction s as [|c s IH]; [apply not_elem_of_nil|].
  change (replace_char old new (c :: s))
    with ((if bool_decide (c = old) then new else [c]) ++ replace_char old new s).
  rewrite elem_of_app. intros [Hc|Hc]; [|done].
  case_bool_decide; [done|]. apply list_elem_of_singleton in Hc. by subst.
Qed.

(** No carriage return is left. *)
Lemma unify_newlines_no_cr s : CR ∉ unify_newlines s.
Proof.
  apply replace_char_gone. rewrite elem_of_cons, elem_of_nil. by intros [?|[]].
Qed.

(** *** Spaces in front of a newline *)

(** No space stands right in front of a newline. *)
Definition tidy (s : str) : Prop := ∀ i, s !! i = Some SP → s !! S i ≠ Some LF.

Lemma spaces_newline_blind : blind spaces_newline.
Proof. done. Qed.

Lemma spaces_newline_other c s : c ≠ SP → spaces_newline None (c :: s) = None.
Proof. intros Hc. unfold spaces_newline. simpl. by rewrite bool_decide_eq_false_2. Qed.

(** After a space the pattern matches, or it does not and the next
    character is no newline and, if it is a space, starts no match
    either. *)
Lemma spaces_newline_space s :
  (∃ n, spaces_newline None (SP :: s) = Some (S n))
  ∨ (spaces_newline None (SP :: s) = None ∧ head s ≠ Some LF
     ∧ ∀ s', s = SP :: s' → spaces_newline None s = None).
Proof.
  unfold spaces_newline. cbn [span_len].
  rewrite (bool_decide_eq_true_2 (SP = SP)) by done. cbn [drop].
  assert (head s = Some LF → drop (span_len (λ c, bool_decide (c = SP)) s) s = s) as Hlf.
  { destruct s as [|d s]; [done|]. simpl. by intros [= ->]. }
  destruct (drop (span_len _ s) s) as [|c r] eqn:Hd.
  - right. split_and!; [done| |].
    + intros Hh. specialize (Hlf Hh). by subst.
    + intros s' ->. by destruct (span_len _ _).
  - case_bool_decide as Hc; [left; by eexists|]. right. split_and!; [done| |].
    + intros Hh. specialize (Hlf Hh). subst. simpl in Hh. by simplify_eq.
    + intros s' ->. by destruct (span_len _ _).
Qed.

Lemma sub_spaces_head s :
  head s ≠ Some SP → head (sub spaces_newline [LF] s) = head s.
Proof.
  destruct s as [|c s]; [done|]. simpl. intros Hc.
  rewrite sub_skip; [done|done|]. apply spaces_newline_other. by intros ->.
Qed.

(** Once the spaces in front of the newlines are taken away, none is
    left. *)
Lemma sub_spaces_tidy s : tidy (sub spaces_newline [LF] s).
Proof.
  assert (∀ n s, length s ≤ n → tidy (sub spaces_newline [LF] s)) as Hn;
    [|by apply (Hn (length s))].
  clear s. induction n as [|n IH]; intros s Hs.
  { destruct s; [|simpl in Hs; lia]. by intros i. }
  destruct s as [|c s]; [by intros i|]. simpl in Hs.
  destruct (decide (c = SP)) as [->|Hc].
  - destruct (spaces_newline_space s) as [[k Hm]|(Hm & Hh & Hnext)].
    + rewrite (sub_hit _ _ _ _ _ spaces_newline_blind Hm).
      intros [|i]; [done|]. simpl. apply IH. rewrite length_drop. simpl. lia.
    + rewrite sub_skip by done. intros [|i]; [|simpl; apply IH; lia].
      intros _. simpl. rewrite <- head_lookup.
      destruct s as [|d s]; [done|].
      destruct (decide (d = SP)) as [->|Hd].
      * rewrite sub_skip; [done|done|by apply (Hnext s)].
      * rewrite sub_spaces_head; [done|]. simpl. by intros [= ->].
  - rewrite sub_skip by (done || by apply spaces_newline_other).
    intros [|i]; [by intros [= ->]|]. simpl. apply IH. lia.
Qed.

Lemma tidy_strip s : tidy s → tidy (strip s).
Proof.
  intros Ht i Hi Hn.
  destruct (strip_split s) as (ws1 & ws2 & Heq & _).
  apply (Ht (length ws1 + i)); rewrite Heq.
  - rewrite lookup_app_r by lia. replace (length ws1 + i - length ws1) with i by lia.
    by apply lookup_app_l_Some.
  - rewrite lookup_app_r by lia.
    replace (S (length ws1 + i) - length ws1) with (S i) by lia.
    by apply lookup_app_l_Some.
Qed.

Section extraction.

Variable decode_utf8 decode_latin1 : bytes → option str.
Variable pdf_page_texts : bytes → exc (list str).

Local Abbreviation extract_text_from_file :=
  (extract_text_from_file decode_utf8 decode_latin1 pdf_page_texts).

(** What an extraction comes to: a stripped text and no error, or no text
    and an error message that is not empty. *)
Definition extracted (r : option str * option str) : Prop :=
  (∃ text, r = (Some text, None) ∧ strip text = text)
  ∨ (∃ e, r = (None, Some e) ∧ e ≠ []).

Lemma finish_extracted file_name full_text error_message :
  extracted (finish file_name full_text error_message).
Proof.
  unfold finish. destruct full_text as [t|].
  - left. eexists. split; [done|]. apply strip_strip.
  - right. eexists. split; [done|].
    destruct error_message as [[|c e]|]; by simpl.
Qed.

Lemma error_extracted e : e ≠ [] → extracted (None, Some e).
Proof. intros He. right. by exists e. Qed.

Lemma extract_extracted uploaded_file : extracted (extract_text_from_file uploaded_file).
Proof.
  unfold extract_text_from_file, Utils.extract_text_from_file.
  destruct uploaded_file as [f|]; [|by apply error_extracted].
  cbv zeta. destruct (getvalue f) as [type_name e|file_bytes].
  { apply error_extracted. by destruct (name f). }
  destruct (bool_decide (_ = lit "txt")).
  { destruct (decode_utf8 file_bytes); [apply finish_extracted|].
    destruct (decode_latin1 file_bytes); [apply finish_extracted|].
    by apply error_extracted. }
  destruct (bool_decide (_ = lit "pdf")).
  { destruct (pdf_page_texts file_bytes); [|apply finish_extracted].
    destruct (str_in _ _); [apply finish_extracted|].
    destruct (str_in _ _); [apply finish_extracted|].
    destruct (_ || _); apply finish_extracted. }
  destruct (pdf_page_texts file_bytes); [apply finish_extracted|].
  destruct (negb _); apply finish_extracted.
Qed.

(** Whatever the file is, the extraction returns either a text and no
    error or an error and no text; the text has no whitespace at either end
    and the error message is not empty.  So a caller that finds no error
    has a text. *)
Theorem extraction_outcome (uploaded_file : option uploaded) :
  let result := extract_text_from_file uploaded_file in
  (result.1 = None ↔ truthy_opt result.2 = true) ∧
  (result.1 = None ↔ result.2 ≠ None) ∧
  (∀ text, result.1 = Some text → strip text = text) ∧
  (uploaded_file = None →
   result = (None, Some (lit "Internal error: No file object provided."))).
Proof.
  cbv zeta. destruct (extract_extracted uploaded_file) as [(t & Hr & Ht)|(e & Hr & He)].
  - rewrite Hr. simpl. split_and!; [done|done|by intros ? [= <-]|by intros ->].
  - rewrite Hr. simpl. split_and!; [by destruct e|done|done|by intros ->].
Qed.

(** With extracted files the lexical comparison fails exactly when an
    extraction failed, and the message names the document and carries the
    error of the extraction; the check for a missing text behind the two
    error checks never fires. *)
Theorem lexical_compare_of_files (o : Lexical.options) (file1 file2 : option uploaded) :
  let x1 := extract_text_from_file file1 in
  let x2 := extract_text_from_file file2 in
  let result := Lexical.compare o x1 x2 in
  (Lexical.success result.2 = false ↔ x1.2 ≠ None ∨ x2.2 ≠ None) ∧
  (∀ e, x1.2 = Some e →
     Lexical.error_message result.2 = Some (lit "Error in Document 1: " ++ e)) ∧
  (∀ e, x1.2 = None → x2.2 = Some e →
     Lexical.error_message result.2 = Some (lit "Error in Document 2: " ++ e)) ∧
  Lexical.error_message result.2 ≠ Some (lit "Text extraction failed unexpectedly.").
Proof.
  cbv zeta.
  destruct (extract_extracted file1) as [(t1 & -> & _)|(e1 & -> & He1)].
  2:{ unfold Lexical.compare, Lexical.compare_with. simpl.
      destruct e1 as [|c e1]; [done|]. simpl.
      split_and!; [by split; auto|by intros ? [= <-]|done|done]. }
  destruct (extract_extracted file2) as [(t2 & -> & _)|(e2 & -> & He2)].
  2:{ unfold Lexical.compare, Lexical.compare_with. simpl.
      destruct e2 as [|c e2]; [done|]. simpl.
      split_and!; [by split; auto|done|by intros ? _ [= <-]|done]. }
  unfold Lexical.compare, Lexical.compare_with. simpl.
  unfold Lexical.compare_texts. simpl.
  destruct (_ && _); simpl.
  { split_and!; [split; [done|by intros [?|?]]|done|done|done]. }
  destruct (bool_decide _); simpl.
  { split_and!; [split; [done|by intros [?|?]]|done|done|done]. }
  split_and!; [split; [done|by intros [?|?]]|done|done|done].
Qed.

(** A text file, whatever the case of its extension, is read as UTF-8 or,
    failing that, as Latin-1; the text that comes back is stripped and has no
    carriage return left in it. *)
Theorem text_file_extracted (f : uploaded) (stem : str) (file_bytes : bytes)
    (full_text : str) :
  lower (name f) = stem ++ lit ".txt" →
  getvalue f = ReadBytes file_bytes →
  decode_utf8 file_bytes = Some full_text
  ∨ (decode_utf8 file_bytes = None ∧ decode_latin1 file_bytes = Some full_text) →
  extract_text_from_file (Some f) = (Some (strip (unify_newlines full_text)), None) ∧
  CR ∉ strip (unify_newlines full_text).
Proof.
  intros Hn Hg Hd. split.
  - unfold extract_text_from_file, Utils.extract_text_from_file. cbv zeta.
    rewrite (file_ext_of stem (lit "txt") (name f) Hn), Hg;
      [|apply (bool_decide_unpack _); by vm_compute].
    rewrite bool_decide_eq_true_2 by done.
    by destruct Hd as [->|[-> ->]].
  - pose proof (unify_newlines_no_cr full_text) as Hcr.
    intros Hin. apply Hcr.
    destruct (strip_split (unify_newlines full_text)) as (ws1 & ws2 & Heq & _).
    rewrite Heq, !elem_of_app. auto.
Qed.

(** A PDF whose pages can be read gives a stripped text in which no space
    stands in front of a newline. *)
Theorem pdf_file_extracted (f : uploaded) (stem : str) (file_bytes : bytes)
    (page_texts : list str) :
  lower (name f) = stem ++ lit ".pdf" →
  getvalue f = ReadBytes file_bytes →
  pdf_page_texts file_bytes = Ret page_texts →
  extract_text_from_file (Some f) = (Some (strip (pdf_full_text page_texts)), None) ∧
  ∀ i, strip (pdf_full_text page_texts) !! i = Some SP →
       strip (pdf_full_text page_texts) !! S i ≠ Some LF.
Proof.
  intros Hn Hg Hp. split.
  - unfold extract_text_from_file, Utils.extract_text_from_file. cbv zeta.
    rewrite (file_ext_of stem (lit "pdf") (name f) Hn), Hg;
      [|apply (bool_decide_unpack _); by vm_compute].
    rewrite bool_decide_eq_false_2 by done.
    rewrite bool_decide_eq_true_2 by done. by rewrite Hp.
  - apply tidy_strip. unfold pdf_full_text. cbv zeta. apply sub_spaces_tidy.
Qed.

End extraction.

(** A run of [text_file_extracted]: a file with a capital extension and
    the three kinds of line end. *)
Lemma text_file_extracted_witness :
  let f := {| name := lit "Notes.TXT";
              getvalue := ReadBytes (lit " a" ++ [CR; LF] ++ lit "b" ++ [CR] ++ lit "c"
                                       ++ [LF]) |} in
  extract_text_from_file (λ b, Some b) (λ _, None) (λ _, Raise []) (Some f)
  = (Some (lit "a" ++ [LF] ++ lit "b" ++ [LF] ++ lit "c"), None).
Proof.
  intros f.
  destruct (text_file_extracted (λ b, Some b) (λ _, None) (λ _, Raise []) f
              (lit "notes")
              (lit " a" ++ [CR; LF] ++ lit "b" ++ [CR] ++ lit "c" ++ [LF])
              (lit " a" ++ [CR; LF] ++ lit "b" ++ [CR] ++ lit "c" ++ [LF]))
    as [H _]; [reflexivity|reflexivity|by left|].
  exact H.
Defined.

(** A run of [pdf_file_extracted]: two pages, the first of which ends its
    line with spaces. *)
Lemma pdf_file_extracted_witness :
  let f := {| name := lit "a.pdf"; getvalue := ReadBytes [] |} in
  extract_text_from_file (λ _, None) (λ _, None)
    (λ _, Ret [lit "one  " ++ [LF] ++ lit "two"; []; lit "three"]) (Some f)
  = (Some (lit "one" ++ [LF] ++ lit "two" ++ [LF] ++ lit "three"), None).
Proof.
  intros f.
  destruct (pdf_file_extracted (λ _, None) (λ _, None)
              (λ _, Ret [lit "one  " ++ [LF] ++ lit "two"; []; lit "three"]) f
              (lit "a") [] [lit "one  " ++ [LF] ++ lit "two"; []; lit "three"])
    as [H _]; [reflexivity|reflexivity|reflexivity|].
  exact H.
Defined.

End UtilsFacts.
